(** * RBT screening scripts: a shallow embedding and its properties

    The development follows three scripts of the repository:

    - [scripts/parity_check.py]   (module [ParityCheck]),
    - [scripts/bond_quantum.py]   (module [BondQuantum]),
    - [scripts/check_phonon_stability.py] (module [PhononStability]),

    and two functions of the scripts around them:

    - [calculate_tc_mcmillan] of [scripts/process_strain_scan.py]
      (module [StrainScan]),
    - [count_files_in_strain_folders] of [scripts/monitor_progress.py]
      (module [MonitorProgress]).

    Conventions of the embedding.

    - In [ParityCheck], [BondQuantum] and [StrainScan] a Python [float]
      is idealised as a real number ([R]): rounding, overflow and the
      infinities are not modelled there.  What the code does on exact
      inputs is: a division of Python floats by zero raises
      [ZeroDivisionError], numpy's square root of a negative number is
      [nan] ([BondQuantum.pyfloat]).  The module [Binary64] has the
      phonon-energy estimator in binary64 arithmetic, on the kernel's
      primitive floats.
    - In [PhononStability] a frequency is the binary64 number that
      [float] reads from the text, kept as the rational number ([Q]) it
      is equal to.
    - A Python [dict] whose keys differ between code paths is a
      [gmap string value]; a missing key is a failed lookup, which the
      embedding turns into [Raise (KeyError k)].
    - Exceptions are the [result] monad; [sys.exit n] is the exit code
      returned by [main] (it raises [SystemExit], which the
      [except Exception] clauses of the scripts do not catch).
    - The neighbour finder [CrystalNN.get_nn_info], the periodic table
      [Element(...).atomic_mass] and the structure parser are external:
      they are arguments of the functions that call them. *)

From Stdlib Require Import Reals Lra Lia QArith ZArith Ascii String.
From Stdlib Require Floats.
From stdpp Require Import gmap strings list sorting.

(** ** Python runtime: exceptions *)

Inductive exn : Type :=
  | FileNotFoundError
  | ValueError
  | RuntimeError
  | KeyError (key : string)
  | IndexError
  | TypeError
  | ZeroDivisionError
  | OverflowError.

Inductive result (A : Type) : Type :=
  | Ok (a : A)
  | Raise (e : exn).
Arguments Ok {A} a.
Arguments Raise {A} e.

#[global] Instance result_ret : MRet result := fun A a => Ok a.
#[global] Instance result_bind : MBind result := fun A B f m =>
  match m with
  | Ok a => f a
  | Raise e => Raise e
  end.

(** Decidable comparisons on the idealised floats. *)
#[global] Instance Rle_decision : RelDecision Rle := Rle_dec.
#[global] Instance Rlt_decision : RelDecision Rlt := Rlt_dec.
#[global] Instance Req_decision : EqDecision R := Req_dec_T.

(** ** Crystal structures and the neighbour oracle *)

(** One record of [CrystalNN.get_nn_info]: the keys the scripts read;
    [weight] is a Python float. *)
Record Neighbor : Type := mkNeighbor {
  site_index : nat;
  weight : R
}.

(** A pymatgen [Structure], reduced to what the scripts read: the
    [species_string] of every site, in site order, and the formula. *)
Record Structure : Type := mkStructure {
  species : list string;
  formula : string
}.

(** [cnn s i] is [self.cnn.get_nn_info(structure, i)]; [None] when the
    call raises. *)
Definition NNOracle : Type := Structure → nat → option (list Neighbor).

(** The file system as [load_structure] sees it: a path is absent, or
    holds something the parser rejects, or parses to a structure. *)
Inductive structure_file : Type :=
  | NoSuchFile
  | Unparseable
  | Parses (s : Structure).

Definition load_structure (fs : string → structure_file) (filepath : string)
  : result Structure :=
  match fs filepath with
  | NoSuchFile => Raise FileNotFoundError
  | Unparseable => Raise ValueError
  | Parses s => Ok s
  end.

(** An oracle is well formed on a structure when every neighbour it
    reports is a site of that structure. *)
Definition oracle_in_range (cnn : NNOracle) (s : Structure) : Prop :=
  ∀ i nbrs nb, cnn s i = Some nbrs → nb ∈ nbrs →
    (site_index nb < length (species s))%nat.

(** ** Insertion-ordered dictionaries keyed by node index

    networkx keeps a graph as Python dicts, and Python dicts iterate in
    insertion order; the order is observable (the list of odd vertices),
    so the adjacency structure is an association list with [dict]
    update semantics: assigning to an existing key keeps its position. *)

Section dict.
Context {V : Type}.

Fixpoint dict_get (k : nat) (d : list (nat * V)) : option V :=
  match d with
  | [] => None
  | (k', v) :: d' => if decide (k = k') then Some v else dict_get k d'
  end.

Definition dict_mem (k : nat) (d : list (nat * V)) : bool :=
  bool_decide (k ∈ d.*1).

(** [d[k] = v] *)
Fixpoint dict_set (k : nat) (v : V) (d : list (nat * V)) : list (nat * V) :=
  match d with
  | [] => [(k, v)]
  | (k', v') :: d' =>
      if decide (k = k') then (k, v) :: d' else (k', v') :: dict_set k v d'
  end.

(** [d[k] = f(d[k])] for a key that is present; no change otherwise. *)
Fixpoint dict_alter (f : V → V) (k : nat) (d : list (nat * V)) : list (nat * V) :=
  match d with
  | [] => []
  | (k', v') :: d' =>
      if decide (k = k') then (k', f v') :: d' else (k', v') :: dict_alter f k d'
  end.
End dict.

(** Python's [min] and [max] over a sequence of integers: an empty
    sequence raises [ValueError]. *)
Definition py_min (l : list nat) : result nat :=
  match l with
  | [] => Raise ValueError
  | x :: l' => Ok (foldl Nat.min x l')
  end.

Definition py_max (l : list nat) : result nat :=
  match l with
  | [] => Raise ValueError
  | x :: l' => Ok (foldl Nat.max x l')
  end.

(** [np.mean] over a list of integers.  On an empty list numpy warns
    and returns [nan], which is [None] here; it does not raise.  On
    other lists the value is the exact mean, which numpy rounds to
    binary64; it is only printed. *)
Definition np_mean (l : list nat) : option Q :=
  match l with
  | [] => None
  | _ :: _ =>
      Some (inject_Z (Z.of_nat (sum_list l)) / inject_Z (Z.of_nat (length l)))%Q
  end.

(** * parity_check.py *)

Module ParityCheck.

(** A networkx [Graph]: [G._adj], node ↦ (neighbour ↦ distance).
    [G._node] always has the same keys in the same order; the node
    attributes (element, coordinates) are never read back and are
    left out. *)
Definition Graph : Type := list (nat * list (nat * R)).

Definition empty_graph : Graph := [].

Definition nodes (G : Graph) : list nat := G.*1.

Definition number_of_nodes (G : Graph) : nat := length G.

(** [Graph.add_node]: a new node gets an empty adjacency dict. *)
Definition add_node (n : nat) (G : Graph) : Graph :=
  if dict_mem n G then G else G ++ [(n, [])].

(** [Graph.has_edge]: [v in self._adj[u]], [False] on [KeyError]. *)
Definition has_edge (u v : nat) (G : Graph) : bool :=
  match dict_get u G with
  | Some nbrs => dict_mem v nbrs
  | None => false
  end.

(** [Graph.add_edge]: both end points are created when absent, then
    [_adj[u][v]] and [_adj[v][u]] are set. *)
Definition add_edge (u v : nat) (d : R) (G : Graph) : Graph :=
  let G := add_node u G in
  let G := add_node v G in
  let G := dict_alter (dict_set v d) u G in
  dict_alter (dict_set u d) v G.

(** [Graph.degree]: a self-loop counts twice. *)
Definition degree_of (n : nat) (nbrs : list (nat * R)) : nat :=
  (length nbrs + (if dict_mem n nbrs then 1 else 0))%nat.

Definition degree (G : Graph) : list (nat * nat) :=
  map (λ '(n, nbrs), (n, degree_of n nbrs)) G.

(** [Graph.number_of_edges]: half the sum of the degrees. *)
Definition number_of_edges (G : Graph) : nat :=
  (sum_list (degree G).*2 / 2)%nat.

(** [Graph.edges]: every node in order, every neighbour of it that is
    not a node already visited. *)
Fixpoint edges_from (G : Graph) (seen : gset nat) : list (nat * nat) :=
  match G with
  | [] => []
  | (n, nbrs) :: G' =>
      map (λ nbr, (n, nbr)) (filter (λ nbr, nbr ∉ seen) nbrs.*1)
        ++ edges_from G' ({[n]} ∪ seen)
  end.

Definition edges (G : Graph) : list (nat * nat) := edges_from G ∅.

Section build.
Variable cnn : NNOracle.
Variable cutoff_distance : R.

(** The body of the inner loop over [neighbors]. *)
Definition visit_neighbor (i : nat) (G : Graph) (neighbor : Neighbor) : Graph :=
  let j := site_index neighbor in
  let distance := weight neighbor in
  if decide (distance <= cutoff_distance)%R then
    if has_edge i j G then G else add_edge i j distance G
  else G.

(** The body of the loop over the sites, with its [try]/[except]. *)
Definition visit_site (structure : Structure) (G : Graph) (i : nat) : Graph :=
  match cnn structure i with
  | Some neighbors => foldl (visit_neighbor i) G neighbors
  | None => G
  end.

Definition build_connectivity_graph (structure : Structure) : Graph :=
  let sites := seq 0 (length (species structure)) in
  let G := foldl (λ G i, add_node i G) empty_graph sites in
  foldl (visit_site structure) G sites.
End build.

(** The [stats] dictionary; [avg_degree] is [None] for [nan]. *)
Record DegreeStats : Type := mkStats {
  total_vertices : nat;
  total_edges : nat;
  min_degree : nat;
  max_degree : nat;
  avg_degree : option Q;
  odd_degree_count : nat;
  even_degree_count : nat
}.

(** [x if degree_values else 0]: a list is true when it is not empty. *)
Definition list_truthy {A : Type} (l : list A) : bool :=
  match l with [] => false | _ :: _ => true end.

Definition calculate_parity (graph : Graph) : result (nat * list nat * DegreeStats) :=
  let degrees := degree graph in
  let degree_values := degrees.*2 in
  let odd_vertices :=
    (filter (λ nd, (nd.2 mod 2 = 1)%nat) degrees).*1 in
  let K := length odd_vertices in
  min_degree ← (if list_truthy degree_values then py_min degree_values else Ok 0%nat);
  max_degree ← (if list_truthy degree_values then py_max degree_values else Ok 0%nat);
  let avg_degree :=
    if list_truthy degree_values then np_mean degree_values else Some 0%Q in
  mret (K, odd_vertices, {|
    total_vertices := number_of_nodes graph;
    total_edges := number_of_edges graph;
    min_degree := min_degree;
    max_degree := max_degree;
    avg_degree := avg_degree;
    odd_degree_count := K;
    even_degree_count := (length degree_values - K)%nat
  |}).

Record Results : Type := mkResults {
  r_filepath : string;
  r_formula : string;
  K_parity : nat;
  passes_parity_test : bool;
  odd_vertices : list nat;
  graph_stats : DegreeStats;
  r_structure : Structure
}.

Section cli.
Variable fs : string → structure_file.
Variable cnn : NNOracle.

Definition analyze_structure (cutoff_distance : R) (filepath : string)
  : result Results :=
  structure ← load_structure fs filepath;
  let graph := build_connectivity_graph cnn cutoff_distance structure in
  '(K, odd_vertices, stats) ← calculate_parity graph;
  mret {|
    r_filepath := filepath;
    r_formula := formula structure;
    K_parity := K;
    passes_parity_test := bool_decide (K = 0%nat);
    odd_vertices := odd_vertices;
    graph_stats := stats;
    r_structure := structure
  |}.

(** [--cutoff] defaults to 3.5. *)
Definition default_cutoff : R := 3.5.

(** [print_results], reduced to what can make it raise: it indexes
    the structure with each of the first ten odd vertices. *)
Definition print_results (results : Results) : result unit :=
  if forallb (λ vertex, bool_decide (vertex < length (species (r_structure results)))%nat)
             (take 10 (odd_vertices results))
  then Ok ()
  else Raise IndexError.

(** The exit code of [main]. *)
Definition main (structure_file : string) (cutoff : option R) (quiet : bool) : Z :=
  let run : result Z :=
    results ← analyze_structure (default default_cutoff cutoff) structure_file;
    _ ← (if quiet then Ok () else print_results results);
    mret (if passes_parity_test results then 0%Z else 1%Z) in
  match run with
  | Ok exit_code => exit_code
  | Raise _ => 2%Z
  end.
End cli.

(** ** Vocabulary for the properties of graphs *)

(** [v] is a key of [G._adj[u]]. *)
Definition adjacent (G : Graph) (u v : nat) : Prop :=
  ∃ nbrs, dict_get u G = Some nbrs ∧ v ∈ nbrs.*1.

(** The representation invariant networkx maintains: keys are unique,
    at both levels, and the adjacency is symmetric. *)
Definition wf_graph (G : Graph) : Prop :=
  NoDup (nodes G)
  ∧ (∀ u nbrs, dict_get u G = Some nbrs → NoDup nbrs.*1)
  ∧ (∀ u v, adjacent G u v → adjacent G v u).

(** The unordered pair of end points of an edge. *)
Definition unordered (e : nat * nat) : nat * nat :=
  (e.1 `min` e.2, e.1 `max` e.2)%nat.

(** How many edge ends of [es] sit at node [n]: an edge counts once for
    each of its end points that is [n], so a self-loop counts twice. *)
Definition ends_at (n : nat) (e : nat * nat) : nat :=
  ((if decide (e.1 = n) then 1 else 0) + (if decide (e.2 = n) then 1 else 0))%nat.

Definition incident_ends (es : list (nat * nat)) (n : nat) : nat :=
  sum_list (ends_at n <$> es).

(** How many edges of [es] have [n] as an end point. *)
Definition incident_edges (es : list (nat * nat)) (n : nat) : nat :=
  length (filter (λ e, e.1 = n ∨ e.2 = n) es).

(** The nodes of odd degree, in node order, for the two ways of
    counting: edge ends at the node (networkx), edges at the node. *)
Definition odd_by_ends (G : Graph) : list nat :=
  filter (λ n, (incident_ends (edges G) n mod 2 = 1)%nat) (nodes G).

Definition odd_by_edges (G : Graph) : list nat :=
  filter (λ n, (incident_edges (edges G) n mod 2 = 1)%nat) (nodes G).

(** The oracle lists [j] among the neighbours of [i], within the cutoff. *)
Definition reported (cnn : NNOracle) (cutoff_distance : R) (s : Structure)
    (i j : nat) : Prop :=
  ∃ neighbors neighbor,
    cnn s i = Some neighbors ∧ neighbor ∈ neighbors
    ∧ site_index neighbor = j ∧ (weight neighbor <= cutoff_distance)%R.

(** [G[u][v]['distance']], when the edge exists. *)
Definition edge_distance (G : Graph) (u v : nat) : option R :=
  dict_get u G ≫= dict_get v.

(** The oracle lists [j] among the neighbours of [i] at distance [d],
    within the cutoff. *)
Definition reported_at (cnn : NNOracle) (cutoff_distance : R) (s : Structure)
    (i j : nat) (d : R) : Prop :=
  ∃ neighbors neighbor,
    cnn s i = Some neighbors ∧ neighbor ∈ neighbors
    ∧ site_index neighbor = j ∧ weight neighbor = d ∧ (d <= cutoff_distance)%R.

(** Every stored distance is a reported one. *)
Definition distances_reported (cnn : NNOracle) (cutoff_distance : R) (s : Structure)
    (G : Graph) : Prop :=
  ∀ u nbrs v d, (u, nbrs) ∈ G → (v, d) ∈ nbrs →
    reported_at cnn cutoff_distance s u v d ∨ reported_at cnn cutoff_distance s v u d.

(** The invariant of the traversal in [edges_from]: the nodes still to
    visit have unique keys, none of them was visited, and a neighbour of
    one of them either was visited or is still to visit and has it as a
    neighbour in turn. *)
Definition traversal_ok (G : Graph) (seen : gset nat) : Prop :=
  NoDup G.*1
  ∧ ∀ m nbrs, (m, nbrs) ∈ G →
      NoDup nbrs.*1 ∧ (m ∉ seen)
      ∧ ∀ x, x ∈ nbrs.*1 → x ∈ seen ∨ (∃ nbrs_x, (x, nbrs_x) ∈ G ∧ m ∈ nbrs_x.*1).

(** What the construction loop maintains: the graph is well formed, its
    nodes are the sites in order, and every adjacency comes from a
    report of the oracle, from one end or the other. *)
Definition build_invariant (cnn : NNOracle) (cutoff_distance : R) (s : Structure)
    (G : Graph) : Prop :=
  wf_graph G
  ∧ nodes G = seq 0 (length (species s))
  ∧ ∀ a b, adjacent G a b →
      reported cnn cutoff_distance s a b ∨ reported cnn cutoff_distance s b a.

End ParityCheck.

(** * bond_quantum.py *)

Module BondQuantum.

Open Scope R_scope.

(** ** Floats

    A float the analysis computes is a real number or [nan], which
    numpy's square root returns for a negative argument.  Rounding,
    overflow and the infinities are not modelled; the module
    [Binary64] below has the estimator in binary64 arithmetic. *)
Inductive pyfloat : Type :=
  | Finite (x : R)
  | NaN.

Definition float_map (f : R → R) (a : pyfloat) : pyfloat :=
  match a with
  | Finite x => Finite (f x)
  | NaN => NaN
  end.

(** [a < b]: false as soon as one side is [nan]. *)
Definition float_lt (a b : pyfloat) : bool :=
  match a, b with
  | Finite x, Finite y => bool_decide (x < y)
  | _, _ => false
  end.

(** [a >= b] for a number [b]: false when [a] is [nan]. *)
Definition float_ge (a : pyfloat) (b : R) : bool :=
  match a with
  | Finite x => bool_decide (b <= x)
  | NaN => false
  end.

(** [x / y] on Python floats: [ZeroDivisionError] when [y] is zero. *)
Definition py_div (x y : R) : result R :=
  if decide (y = 0) then Raise ZeroDivisionError else Ok (x / y).

(** [np.sqrt]: [nan], with a warning and no exception, on a negative
    argument. *)
Definition np_sqrt (x : R) : pyfloat :=
  if decide (x < 0) then NaN else Finite (sqrt x).

(** Physical constants of [BondQuantumAnalyzer]; [np.pi] is [PI]. *)
Definition HBAR : R := 6.582119569e-16.

(** Light atoms that dominate phonon frequencies. *)
Definition LIGHT_ATOMS : gset string :=
  list_to_set ["H"; "He"; "Li"; "Be"; "B"; "C"; "N"; "O"; "F"; "Ne"].

(** The threshold set by [__init__] and the default of [--threshold]. *)
Definition default_threshold : R := 0.081.

(** A bond dictionary as [find_light_atom_bonds] builds it. *)
Record Bond : Type := mkBond {
  atom1_idx : nat;
  atom2_idx : nat;
  atom1_element : string;
  atom2_element : string;
  distance : R;
  reduced_mass : R;
  bond_type : string;
  both_light : bool
}.

(** The same dictionary after [analyze_structure] has added the two
    energy keys to it. *)
Record AnalyzedBond : Type := mkAnalyzed {
  bond :> Bond;
  phonon_energy_eV : pyfloat;
  phonon_energy_meV : pyfloat
}.

(** [tuple(sorted([i, j]))] *)
Definition sorted_pair (i j : nat) : nat * nat := (i `min` j, i `max` j)%nat.

Definition pair_of (b : Bond) : nat * nat :=
  sorted_pair (atom1_idx b) (atom2_idx b).

(** The duplicate-removal loop: [unique_bonds] in order, given the
    pairs already in [seen_pairs]. *)
Fixpoint remove_duplicates (light_bonds : list Bond) (seen_pairs : gset (nat * nat))
  : list Bond :=
  match light_bonds with
  | [] => []
  | bond :: rest =>
      let pair := pair_of bond in
      if decide (pair ∈ seen_pairs)
      then remove_duplicates rest seen_pairs
      else bond :: remove_duplicates rest ({[pair]} ∪ seen_pairs)
  end.

Section selector.
Variable cnn : NNOracle.
(** [Element(symbol).atomic_mass]; [None] when the constructor raises. *)
Variable atomic_mass : string → option R.

(** [_calculate_reduced_mass]: any exception, a division by zero
    included, gives the fallback 1.0. *)
Definition _calculate_reduced_mass (element1 element2 : string) : R :=
  match atomic_mass element1, atomic_mass element2 with
  | Some m1, Some m2 =>
      if decide (m1 + m2 = 0) then 1 else (m1 * m2) / (m1 + m2)
  | _, _ => 1
  end.

Definition make_bond (i j : nat) (element neighbor_element : string) (d : R) : Bond := {|
  atom1_idx := i;
  atom2_idx := j;
  atom1_element := element;
  atom2_element := neighbor_element;
  distance := d;
  reduced_mass := _calculate_reduced_mass element neighbor_element;
  bond_type := element +:+ "-" +:+ neighbor_element;
  both_light := bool_decide (element ∈ LIGHT_ATOMS)
                && bool_decide (neighbor_element ∈ LIGHT_ATOMS)
|}.

(** The loop over [neighbors], inside the [try]: [structure[j]]
    raises for an index that is not a site, which ends the loop for
    this atom and keeps what was appended so far. *)
Fixpoint scan_neighbors (structure : Structure) (i : nat) (element : string)
    (neighbors : list Neighbor) (light_bonds : list Bond) : list Bond :=
  match neighbors with
  | [] => light_bonds
  | neighbor :: rest =>
      let j := site_index neighbor in
      match species structure !! j with
      | Some neighbor_element =>
          scan_neighbors structure i element rest
            (light_bonds ++ [make_bond i j element neighbor_element (weight neighbor)])
      | None => light_bonds
      end
  end.

(** The loop over [enumerate(structure)], from site [i] on. *)
Fixpoint scan_sites (structure : Structure) (i : nat) (sites : list string)
    (light_bonds : list Bond) : list Bond :=
  match sites with
  | [] => light_bonds
  | element :: rest =>
      let light_bonds :=
        if decide (element ∈ LIGHT_ATOMS) then
          match cnn structure i with
          | Some neighbors => scan_neighbors structure i element neighbors light_bonds
          | None => light_bonds
          end
        else light_bonds in
      scan_sites structure (S i) rest light_bonds
  end.

Definition all_light_bonds (structure : Structure) : list Bond :=
  scan_sites structure 0 (species structure) [].

Definition find_light_atom_bonds (structure : Structure) : list Bond :=
  remove_duplicates (all_light_bonds structure) ∅.
End selector.

(** Two bond records join the same two atoms, whichever of the two is
    the origin. *)
Definition same_atoms (b b' : Bond) : Prop :=
  (atom1_idx b = atom1_idx b' ∧ atom2_idx b = atom2_idx b')
  ∨ (atom1_idx b = atom2_idx b' ∧ atom2_idx b = atom1_idx b').

(** The origin of a bond is a light atom, and [both_light] says whether
    the other end is one too. *)
Definition light_origin (b : Bond) : Prop :=
  atom1_element b ∈ LIGHT_ATOMS
  ∧ (both_light b = true ↔ atom2_element b ∈ LIGHT_ATOMS).

(** The bond record built for a report of the oracle: [neighbor] is
    listed for the light atom at site [i]. *)
Definition bond_from_report (cnn : NNOracle) (atomic_mass : string → option R)
    (s : Structure) (b : Bond) : Prop :=
  ∃ i element neighbors neighbor neighbor_element,
    species s !! i = Some element ∧ element ∈ LIGHT_ATOMS
    ∧ cnn s i = Some neighbors ∧ neighbor ∈ neighbors
    ∧ species s !! site_index neighbor = Some neighbor_element
    ∧ b = make_bond atomic_mass i (site_index neighbor) element neighbor_element
            (weight neighbor).

(** [estimate_phonon_energy], line by line.  The two divisions are
    divisions of Python floats and raise on a zero divisor: a bond
    distance of zero, a reduced mass of zero. *)
Definition estimate_phonon_energy (bond_distance reduced_mass : R) : result pyfloat :=
  let r_angstrom := bond_distance in
  let mu_amu := reduced_mass in
  let force_constant_scale := 100 in
  k_force ← py_div force_constant_scale (r_angstrom ^ 2);
  let amu_to_ev_per_ang2 := 1.036427e-4 in
  let mu_ev_units := mu_amu * amu_to_ev_per_ang2 in
  ratio ← py_div k_force mu_ev_units;
  let omega := np_sqrt ratio in
  let energy_meV := float_map (λ omega, (HBAR * omega / PI) * 1000) omega in
  let energy_eV := float_map (λ energy_meV, energy_meV / 1000) energy_meV in
  mret energy_eV.

(** The body of the first loop of [analyze_structure]: the two energy
    keys are added to the bond. *)
Definition with_energy (b : Bond) : result AnalyzedBond :=
  e ← estimate_phonon_energy (distance b) (reduced_mass b);
  mret {| bond := b;
          phonon_energy_eV := e;
          phonon_energy_meV := float_map (λ e, e * 1000) e |}.

(** The loop itself: the first bond on which the estimator raises ends
    it, and the exception leaves [analyze_structure]. *)
Fixpoint add_energies (light_bonds : list Bond) : result (list AnalyzedBond) :=
  match light_bonds with
  | [] => mret []
  | b :: rest =>
      b ← with_energy b;
      rest ← add_energies rest;
      mret (b :: rest)
  end.

(** [list.sort(key=lambda x: x['distance'])]: ascending and stable.
    An element is inserted in front of the first one whose key is not
    smaller, so equal keys keep their original order. *)
Fixpoint insert_by_distance (b : AnalyzedBond) (l : list AnalyzedBond)
  : list AnalyzedBond :=
  match l with
  | [] => [b]
  | c :: l' =>
      if decide (distance b <= distance c) then b :: c :: l'
      else c :: insert_by_distance b l'
  end.

Definition sort_by_distance (l : list AnalyzedBond) : list AnalyzedBond :=
  foldr insert_by_distance [] l.


(** Python's [max] over a non-empty sequence, first element apart: the
    running maximum is replaced by an item that compares greater. *)
Definition py_max_float (x : pyfloat) (l : list pyfloat) : pyfloat :=
  foldl (λ m y, if float_lt m y then y else m) x l.

(** The values stored in the result dictionary. *)
Inductive value : Type :=
  | VStr (s : string)
  | VInt (n : Z)
  | VFloat (x : pyfloat)
  | VBool (b : bool)
  | VNone
  | VBond (b : AnalyzedBond)
  | VBonds (bs : list AnalyzedBond).

(** [results[key]] *)
Definition getitem (results : gmap string value) (key : string) : result value :=
  match results !! key with
  | Some v => Ok v
  | None => Raise (KeyError key)
  end.

(** What the format specification [:.1f] accepts. *)
Definition format_float (v : value) : result unit :=
  match v with
  | VInt _ | VFloat _ | VBool _ => Ok ()
  | _ => Raise TypeError
  end.

Definition truthy (v : value) : bool :=
  match v with
  | VStr s => negb (bool_decide (s = ""))
  | VInt n => negb (bool_decide (n = 0%Z))
  | VFloat (Finite x) => negb (bool_decide (x = 0))
  | VFloat NaN => true
  | VBool b => b
  | VNone => false
  | VBond _ => true
  | VBonds bs => negb (bool_decide (bs = []))
  end.

Section cli.
Variable fs : string → structure_file.
Variable cnn : NNOracle.
Variable atomic_mass : string → option R.

Definition analyze_structure (threshold_energy : R) (filepath : string)
  : result (gmap string value) :=
  structure ← load_structure fs filepath;
  let light_bonds := find_light_atom_bonds cnn atomic_mass structure in
  match light_bonds with
  | [] =>
      mret (list_to_map [
        ("filepath", VStr filepath);
        ("formula", VStr (formula structure));
        ("light_bonds", VBonds []);
        ("shortest_bond", VNone);
        ("phonon_energy_meV", VInt 0);
        ("phonon_energy_eV", VInt 0);
        ("passes_energy_test", VBool false);
        ("critical_bonds", VBonds [])
      ])
  | _ :: _ =>
      light_bonds ← add_energies light_bonds;
      let light_bonds := sort_by_distance light_bonds in
      let critical_bonds :=
        filter (λ b : AnalyzedBond,
                  float_ge (phonon_energy_eV b) threshold_energy = true)
               light_bonds in
      match light_bonds with
      | [] => Raise IndexError
      | shortest_bond :: others =>
          let max_energy :=
            py_max_float (phonon_energy_eV shortest_bond) (phonon_energy_eV <$> others) in
          mret (list_to_map [
            ("filepath", VStr filepath);
            ("formula", VStr (formula structure));
            ("light_bonds", VBonds light_bonds);
            ("shortest_bond", VBond shortest_bond);
            ("phonon_energy_meV", VFloat (float_map (λ e, e * 1000) max_energy));
            ("phonon_energy_eV", VFloat max_energy);
            ("passes_energy_test", VBool (float_ge max_energy threshold_energy));
            ("critical_bonds", VBonds critical_bonds);
            ("threshold_meV", VFloat (Finite (threshold_energy * 1000)))
          ])
      end
  end.

(** [print_results], reduced to the dictionary accesses and number
    formats that can make it raise, in the order they happen. *)
Definition print_results (results : gmap string value) : result unit :=
  _ ← getitem results "formula";
  energy ← getitem results "phonon_energy_meV";
  _ ← format_float energy;
  threshold ← getitem results "threshold_meV";
  _ ← format_float threshold;
  _ ← getitem results "passes_energy_test";
  _ ← getitem results "shortest_bond";
  _ ← getitem results "critical_bonds";
  _ ← getitem results "light_bonds";
  mret ().

(** The quiet one-line report. *)
Definition print_quiet (results : gmap string value) : result unit :=
  energy_meV ← getitem results "phonon_energy_meV";
  threshold_meV ← getitem results "threshold_meV";
  _ ← getitem results "passes_energy_test";
  _ ← format_float energy_meV;
  _ ← format_float threshold_meV;
  mret ().

(** The exit code of [main]. *)
Definition main (structure_file : string) (threshold : option R) (quiet : bool) : Z :=
  let run : result Z :=
    results ← analyze_structure (default default_threshold threshold) structure_file;
    _ ← (if quiet then Ok () else print_results results);
    passes ← getitem results "passes_energy_test";
    let exit_code := if truthy passes then 0%Z else 1%Z in
    _ ← (if quiet then print_quiet results else Ok ());
    mret exit_code in
  match run with
  | Ok exit_code => exit_code
  | Raise _ => 2%Z
  end.
End cli.

(** The dictionary [analyze_structure] returns when there are bonds. *)
Definition report (filepath : string) (s : Structure) (threshold_energy : R)
    (shortest_bond : AnalyzedBond) (others : list AnalyzedBond)
  : gmap string value :=
  let light_bonds := shortest_bond :: others in
  let max_energy :=
    py_max_float (phonon_energy_eV shortest_bond) (phonon_energy_eV <$> others) in
  list_to_map [
    ("filepath", VStr filepath);
    ("formula", VStr (formula s));
    ("light_bonds", VBonds light_bonds);
    ("shortest_bond", VBond shortest_bond);
    ("phonon_energy_meV", VFloat (float_map (λ e, e * 1000) max_energy));
    ("phonon_energy_eV", VFloat max_energy);
    ("passes_energy_test", VBool (float_ge max_energy threshold_energy));
    ("critical_bonds",
       VBonds (filter (λ b : AnalyzedBond,
                         float_ge (phonon_energy_eV b) threshold_energy = true)
                      light_bonds));
    ("threshold_meV", VFloat (Finite (threshold_energy * 1000)))
  ].

(** The dictionary [analyze_structure] returns when there is no bond. *)
Definition empty_report (filepath : string) (s : Structure) : gmap string value :=
  list_to_map [
    ("filepath", VStr filepath);
    ("formula", VStr (formula s));
    ("light_bonds", VBonds []);
    ("shortest_bond", VNone);
    ("phonon_energy_meV", VInt 0);
    ("phonon_energy_eV", VInt 0);
    ("passes_energy_test", VBool false);
    ("critical_bonds", VBonds [])
  ].

End BondQuantum.

(** * The estimator of bond_quantum.py in binary64 arithmetic

    Python floats and [numpy.float64] are IEEE-754 binary64 numbers,
    which are the primitive floats of the kernel: [mul], [div] and
    [sqrt] round to nearest, ties to even.  A decimal literal denotes
    the nearest binary64 number, as in Python. *)

Module Binary64.
Import PrimFloat.

#[warnings="-inexact-float"]
Definition HBAR : PrimFloat.float := 6.582119569e-16%float.

(** [np.pi] *)
#[warnings="-inexact-float"]
Definition PI : PrimFloat.float := 3.141592653589793%float.

#[warnings="-inexact-float"]
Definition amu_to_ev_per_ang2 : PrimFloat.float := 1.036427e-4%float.

(** [x ** 2] on a Python float goes through C's [pow]: the square,
    taken here as correctly rounded, and [OverflowError] when the
    square of a finite number is not finite.  An underflow to zero is
    not an error. *)
Definition float_pow2 (x : PrimFloat.float) : result PrimFloat.float :=
  let square := PrimFloat.mul x x in
  if PrimFloat.is_infinity square && negb (PrimFloat.is_infinity x)
  then Raise OverflowError
  else Ok square.

(** [x / y] on Python floats. *)
Definition py_div (x y : PrimFloat.float) : result PrimFloat.float :=
  if PrimFloat.eqb y 0%float then Raise ZeroDivisionError else Ok (PrimFloat.div x y).

Definition estimate_phonon_energy (bond_distance reduced_mass : PrimFloat.float)
  : result PrimFloat.float :=
  let r_angstrom := bond_distance in
  let mu_amu := reduced_mass in
  let force_constant_scale := 100%float in
  r_squared ← float_pow2 r_angstrom;
  k_force ← py_div force_constant_scale r_squared;
  let mu_ev_units := PrimFloat.mul mu_amu amu_to_ev_per_ang2 in
  ratio ← py_div k_force mu_ev_units;
  let omega := PrimFloat.sqrt ratio in
  let energy_meV :=
    PrimFloat.mul (PrimFloat.div (PrimFloat.mul HBAR omega) PI) 1000%float in
  let energy_eV := PrimFloat.div energy_meV 1000%float in
  mret energy_eV.



(** Two numbers that are no binary64 numbers when written in decimal. *)
#[warnings="-inexact-float"]
Definition one_tenth : PrimFloat.float := 0.1%float.

#[warnings="-inexact-float"]
Definition mock_frequency : PrimFloat.float := (-16.678)%float.

(** A finite binary64 number as the rational number it is equal to. *)
Definition to_Q (x : PrimFloat.float) : option Q :=
  match FloatOps.Prim2SF x with
  | SpecFloat.S754_zero _ => Some 0%Q
  | SpecFloat.S754_finite negative m e =>
      let m := if negative then Zneg m else Zpos m in
      Some (Qred (Qmake (m * 2 ^ Z.max 0 e) (Z.to_pos (2 ^ Z.max 0 (- e)))))
  | _ => None
  end.

(** Two positive distances far outside the range of bond lengths. *)
#[warnings="-inexact-float"]
Definition tiny_distance : PrimFloat.float := 1e-200%float.


End Binary64.

(** * check_phonon_stability.py *)

Module PhononStability.

(** ** The regular expression [freq\(.*?\)=\s*([\-0-9\.]+)]

    A text line is a [string] of code points below 256.  [search]
    tries every start position from the left; at a start position the
    literal [freq(] must follow, then the lazy [.*?] tries the
    shortest stretch of non-newline characters after which [)=],
    optional white space and a non-empty run of [-], digits and [.]
    follow.  The white space and the run are matched greedily; giving
    characters back never helps, since no white space is in the class. *)

Definition LF : ascii := ascii_of_nat 10.

(** [\s] for a [str] pattern, on code points below 256. *)
Definition is_space (c : ascii) : bool :=
  let n := nat_of_ascii c in
  ((9 <=? n) && (n <=? 13) || (28 <=? n) && (n <=? 32)
   || (n =? 133) || (n =? 160))%nat.

Definition is_digit (c : ascii) : bool :=
  let n := nat_of_ascii c in ((48 <=? n) && (n <=? 57))%nat.

(** [[\-0-9\.]] *)
Definition is_freq_char (c : ascii) : bool :=
  is_digit c || bool_decide (c = "-"%char) || bool_decide (c = "."%char).

Fixpoint strip_prefix (p s : string) : option string :=
  match p, s with
  | EmptyString, _ => Some s
  | String a p', String b s' => if decide (a = b) then strip_prefix p' s' else None
  | String _ _, EmptyString => None
  end.

Fixpoint skip_spaces (s : string) : string :=
  match s with
  | String c s' => if is_space c then skip_spaces s' else s
  | EmptyString => s
  end.

Fixpoint take_freq_chars (s : string) : string :=
  match s with
  | String c s' => if is_freq_char c then String c (take_freq_chars s') else EmptyString
  | EmptyString => EmptyString
  end.

(** [\)=\s*([\-0-9\.]+)] at the start of [s]: the captured group. *)
Definition match_tail (s : string) : option string :=
  rest ← strip_prefix ")=" s;
  match take_freq_chars (skip_spaces rest) with
  | EmptyString => None
  | group => Some group
  end.

(** [.*?] followed by the tail. *)
Fixpoint match_lazy (s : string) : option string :=
  match match_tail s with
  | Some group => Some group
  | None =>
      match s with
      | String c s' => if decide (c = LF) then None else match_lazy s'
      | EmptyString => None
      end
  end.

Definition match_here (s : string) : option string :=
  strip_prefix "freq(" s ≫= match_lazy.

(** [FREQ_REGEX.search(line)], as [m.group(1)] when there is a match. *)
Fixpoint FREQ_REGEX_search (line : string) : option string :=
  match match_here line with
  | Some group => Some group
  | None =>
      match line with
      | String _ line' => FREQ_REGEX_search line'
      | EmptyString => None
      end
  end.

(** ** [float(text)] on a string of [-], digits and [.]

    Accepted: an optional leading [-], then digits with at most one
    point and at least one digit.  [decimal_of_string] is the exact
    value of such a text, and [float] returns the binary64 number
    nearest to it, ties to even ([round_binary64]).

    A binary64 number is kept as the rational number it is equal to.
    The two infinities, which [float] returns for a text beyond the
    binary64 range, are kept as 2^1024 and its opposite: they compare
    with every binary64 number the way the infinities do.  The sign of
    a zero is not kept: [-0.0 < 0] is as false as [0.0 < 0]. *)

Definition digit_value (c : ascii) : Z := Z.of_nat (nat_of_ascii c - 48).

(** [mantissa] collects the digits read, [point] counts the digits
    after the point once it was seen, [ndigits] counts all digits. *)
Fixpoint parse_decimal (s : string) (mantissa : Z) (point : option nat) (ndigits : nat)
  : option (Z * nat) :=
  match s with
  | EmptyString =>
      if decide (ndigits = 0%nat) then None else Some (mantissa, default 0%nat point)
  | String c s' =>
      if decide (c = "."%char) then
        match point with
        | None => parse_decimal s' mantissa (Some 0%nat) ndigits
        | Some _ => None
        end
      else if is_digit c then
        parse_decimal s' (10 * mantissa + digit_value c)%Z (S <$> point) (S ndigits)
      else None
  end.

Definition decimal_of_string (s : string) : option Q :=
  let '(negative, body) :=
    match s with
    | String "-"%char s' => (true, s')
    | _ => (false, s)
    end in
  '(mantissa, k) ← parse_decimal body 0%Z None 0%nat;
  Some (Qmake (if negative : bool then - mantissa else mantissa)%Z (Z.to_pos (10 ^ Z.of_nat k))%Z).

(** The integer part of the base-2 logarithm of [n / d], for positive
    [n] and [d]. *)
Definition floor_log2 (n d : Z) : Z :=
  let e0 := (Z.log2 n - Z.log2 d)%Z in
  if (d * 2 ^ Z.max 0 e0 <=? n * 2 ^ Z.max 0 (- e0))%Z then e0 else (e0 - 1)%Z.

(** The integer nearest to [N / D], the even one of two that are
    equally near. *)
Definition round_half_even (N D : Z) : Z :=
  let m := (N / D)%Z in
  let r := (N mod D)%Z in
  match (2 * r ?= D)%Z with
  | Lt => m
  | Gt => (m + 1)%Z
  | Eq => if Z.even m then m else (m + 1)%Z
  end.

(** The binary64 number nearest to [n / d], for positive [n] and [d]:
    a multiple of [2^p] where [p] leaves 53 bits to a normal number and
    is -1074 for a subnormal one; from 2^1024 on it is infinity. *)
Definition round_positive (n d : Z) : Q :=
  let e := floor_log2 n d in
  let p := Z.max (e - 52) (-1074) in
  let m := round_half_even (n * 2 ^ Z.max 0 (- p)) (d * 2 ^ Z.max 0 p) in
  let x := Qred (Qmake (m * 2 ^ Z.max 0 p) (Z.to_pos (2 ^ Z.max 0 (- p)))) in
  if Qle_bool (inject_Z (2 ^ 1024)) x then inject_Z (2 ^ 1024) else x.

Definition round_binary64 (q : Q) : Q :=
  match Qnum q with
  | Z0 => 0%Q
  | Zpos n => round_positive (Zpos n) (Zpos (Qden q))
  | Zneg n => (- round_positive (Zpos n) (Zpos (Qden q)))%Q
  end.

Definition float_of_string (s : string) : option Q :=
  round_binary64 <$> decimal_of_string s.

(** ** The files *)

Inductive file : Type :=
  | Missing                       (* [p.exists()] is false *)
  | Unreadable                    (* exists, but [open] raises *)
  | Lines (lines : list string).  (* the lines [for line in fh] yields *)

Definition exists_ (f : file) : bool :=
  match f with Missing => false | _ => true end.

(** The [for line in fh] loop; a [ValueError] of [float] is re-raised
    as [RuntimeError] by the enclosing [except]. *)
Fixpoint scan_lines (lines : list string) (freqs : list Q) : result (list Q) :=
  match lines with
  | [] => Ok freqs
  | line :: rest =>
      match FREQ_REGEX_search line with
      | Some group =>
          match float_of_string group with
          | Some w => scan_lines rest (freqs ++ [w])
          | None => Raise RuntimeError
          end
      | None => scan_lines rest freqs
      end
  end.

Section fs.
Variable fs : string → file.

Definition parse_frequencies (path : string) : result (list Q) :=
  match fs path with
  | Lines lines =>
      freqs ← scan_lines lines [];
      match freqs with
      | [] => Raise RuntimeError
      | _ => Ok freqs
      end
  | _ => Raise RuntimeError
  end.

Definition is_negative (w : Q) : bool := bool_decide (Qnum w < 0)%Z.

Definition Qminimum (x y : Q) : Q := if Qlt_le_dec y x then y else x.

(** [min(freqs)] for a non-empty list. *)
Definition min_list_Q (freqs : list Q) : Q :=
  match freqs with
  | [] => 0%Q
  | w :: ws => foldl Qminimum w ws
  end.

(** The loop of [analyse_files] from the state [(total, imag, min_freq)]. *)
Fixpoint analyse_loop (files : list string) (total imag : nat) (min_freq : Q)
  : result (nat * nat * Q) :=
  match files with
  | [] => Ok (total, imag, min_freq)
  | f :: rest =>
      freqs ← parse_frequencies f;
      analyse_loop rest
        (total + length freqs)%nat
        (imag + length (filter (λ w, is_negative w = true) freqs))%nat
        (Qminimum min_freq (min_list_Q freqs))
  end.

Definition analyse_files (files : list string) : result (nat * nat * Q) :=
  analyse_loop files 0%nat 0%nat (1000000000 # 1)%Q.

(** The exit code of [main] on [sys.argv[1:]].  Only [RuntimeError]
    is caught; any other exception would end the process with the
    interpreter's status 1. *)
Definition main (args : list string) : Z :=
  match args with
  | [] => 2%Z
  | _ :: _ =>
      if forallb (λ p, exists_ (fs p)) args then
        match analyse_files args with
        | Ok (total, imag, min_freq) =>
            if decide (imag = 0%nat) then 0%Z else 1%Z
        | Raise RuntimeError => 2%Z
        | Raise _ => 1%Z
        end
      else 2%Z
  end.
End fs.

(** ** Vocabulary for the properties of the checker *)

(** Every character of [s] satisfies [p]. *)
Fixpoint all_chars (p : ascii → bool) (s : string) : bool :=
  match s with
  | EmptyString => true
  | String c s' => p c && all_chars p s'
  end.

(** [s] does not begin with a character satisfying [p]. *)
Definition not_starting_with (p : ascii → bool) (s : string) : bool :=
  match s with
  | EmptyString => true
  | String c _ => negb (p c)
  end.


(** The frequencies of all the files, in order; an error as soon as one
    file cannot be parsed. *)
Fixpoint accumulate (fs : string → file) (files : list string) : result (list Q) :=
  match files with
  | [] => Ok []
  | f :: rest =>
      freqs ← parse_frequencies fs f;
      more ← accumulate fs rest;
      mret (freqs ++ more)
  end.

End PhononStability.

(** * process_strain_scan.py *)

Module StrainScan.

Definition mu_star_default : R := 0.1%R.

(** What the exponent of the formula is divided by. *)
Definition slope (lambda_val mu_star : R) : R :=
  (lambda_val - mu_star * (1 + 0.62 * lambda_val))%R.

(** [calculate_tc_mcmillan(lambda_val, omega_log, mu_star)].  [None]
    stands for the two ways the floating-point code leaves the finite
    numbers on exact input: the [ZeroDivisionError] of the Python
    division inside the exponent, and the division by a zero
    [numpy.float64] in the last line (which yields [inf] or [nan]). *)
Definition calculate_tc_mcmillan (lambda_val omega_log mu_star : R) : option R :=
  if decide (lambda_val <= mu_star)%R then Some 0%R
  else
    let numerator := (omega_log / 1.45)%R in
    if decide (slope lambda_val mu_star = 0%R) then None
    else
      let denominator :=
        ((1 + lambda_val)
         * exp (1.04 * (1 + lambda_val) / slope lambda_val mu_star))%R in
      if decide (denominator = 0%R) then None
      else Some (numerator / denominator)%R.

End StrainScan.

(** * monitor_progress.py *)

Module MonitorProgress.

(** A folder [strain_*pc] as the monitor sees it: which of the three
    output files exist. *)
Record StrainFolder : Type := mkStrainFolder {
  scf_exists : bool;
  ph_exists : bool;
  dyn_exists : bool
}.

(** The body of the loop of [count_files_in_strain_folders], on the
    pair [(total_files, completed)]. *)
Definition count_step (acc : nat * nat) (folder : StrainFolder) : nat * nat :=
  let '(total_files, completed) := acc in
  let total_files := if scf_exists folder then total_files + 1 else total_files in
  let total_files := if ph_exists folder then total_files + 1 else total_files in
  let total_files := if dyn_exists folder then total_files + 1 else total_files in
  let completed :=
    if scf_exists folder && ph_exists folder && dyn_exists folder
    then completed + 1 else completed in
  (total_files, completed).

(** [folders] is what [pathlib.Path(".").glob("strain_*pc")] yields, in
    the order it yields it. *)
Definition count_files_in_strain_folders (folders : list StrainFolder) : nat * nat :=
  foldl count_step (0, 0) folders.

(** Vocabulary: the output files of one folder, and a finished folder. *)
Definition files_in (folder : StrainFolder) : nat :=
  Nat.b2n (scf_exists folder) + Nat.b2n (ph_exists folder)
  + Nat.b2n (dyn_exists folder).

Definition finished (folder : StrainFolder) : bool :=
  scf_exists folder && ph_exists folder && dyn_exists folder.

End MonitorProgress.

(** * Concrete inputs

    Small structures and files on which the functions above are run:
    a cell Li-N-H, a cell of iron atoms only, a one-atom cell whose
    only neighbours are its own periodic images, and phonon outputs. *)

Module Examples.

Definition oracle_of (table : list (list Neighbor)) : NNOracle :=
  λ _ i, table !! i.

(** A decidable check that a table only names sites below [n]. *)
Definition table_in_range (table : list (list Neighbor)) (n : nat) : bool :=
  forallb (forallb (λ nb, bool_decide (site_index nb < n)%nat)) table.

(** A periodic table for the elements used here. *)
Definition masses (symbol : string) : option R :=
  if decide (symbol = "H") then Some 1.008%R
  else if decide (symbol = "Li") then Some 6.94%R
  else if decide (symbol = "N") then Some 14.007%R
  else if decide (symbol = "Fe") then Some 55.845%R
  else None.

(** Li bonded to N, N bonded to H; the oracle reports each bond from
    both of its ends. *)
Definition LiNH : Structure := {| species := ["Li"; "N"; "H"]; formula := "Li1 N1 H1" |}.

Definition LiNH_cnn : NNOracle :=
  oracle_of [ [mkNeighbor 1 2%R];
              [mkNeighbor 0 2%R; mkNeighbor 2 1%R];
              [mkNeighbor 1 1%R] ].

Definition LiNH_bond_LiN : BondQuantum.Bond :=
  BondQuantum.make_bond masses 0 1 "Li" "N" 2%R.

Definition LiNH_bond_NH : BondQuantum.Bond :=
  BondQuantum.make_bond masses 1 2 "N" "H" 1%R.

(** Two iron atoms bonded to each other: no light atom. *)
Definition Fe2 : Structure := {| species := ["Fe"; "Fe"]; formula := "Fe2" |}.

Definition Fe2_cnn : NNOracle :=
  oracle_of [ [mkNeighbor 1 2.5%R]; [mkNeighbor 0 2.5%R] ].

(** One atom per cell: its neighbours are periodic images of itself,
    which the oracle reports under the atom's own index. *)
Definition Fe1 : Structure := {| species := ["Fe"]; formula := "Fe1" |}.

Definition Fe1_cnn : NNOracle :=
  oracle_of [ [mkNeighbor 0 2.5%R; mkNeighbor 0 2.5%R] ].



(** A chain of three atoms, 0 - 1 - 2. *)
Definition chain3 : ParityCheck.Graph :=
  ParityCheck.add_edge 1 2 1%R
    (ParityCheck.add_edge 0 1 1%R
       (ParityCheck.add_node 2 (ParityCheck.add_node 1 (ParityCheck.add_node 0 [])))).

(** A ring of four atoms, every atom bonded to two neighbours. *)
Definition ring4 : ParityCheck.Graph :=
  ParityCheck.add_edge 3 0 1%R
    (ParityCheck.add_edge 2 3 1%R
       (ParityCheck.add_edge 1 2 1%R (ParityCheck.add_edge 0 1 1%R []))).

(** One node with an edge to itself. *)
Definition loop1 : ParityCheck.Graph := ParityCheck.add_edge 0 0 1%R [].

Definition disk (files : list (string * structure_file)) (path : string) : structure_file :=
  default NoSuchFile (list_to_map (M := gmap string structure_file) files !! path).

Definition structures : string → structure_file :=
  disk [("LiNH.cif", Parses LiNH); ("Fe2.cif", Parses Fe2); ("Fe1.cif", Parses Fe1)].

(** The [dyn0] file the mock generator of the repository writes: a
    header and one line per mode, with a blank on both sides of [=]. *)
Definition mock_dyn0 : list string :=
  [ "Dynamical matrix file";
    "";
    "q =    0.0000   0.0000   0.0000";
    "    freq(   1) =    -16.678000 [cm-1]";
    "    freq(   2) =    133.424000 [cm-1]" ].

(** The same modes with nothing between [)] and [=]. *)
Definition tight_dyn0 : list string :=
  [ "Dynamical matrix file";
    "    freq(   1)=    -16.678000 [cm-1]";
    "    freq(   2)=    133.424000 [cm-1]" ].

Definition stable_dyn0 : list string :=
  [ "    freq(   1)=    16.678000 [cm-1]";
    "    freq(   2)=    133.424000 [cm-1]" ].

(** [-0.], 330 zeros and a 1: a negative number that is too small for
    binary64; a 1 and 400 zeros, which is too large; and 1e-200
    written out. *)
Definition underflow_text : string :=
  "-0." +:+ String.concat "" (replicate 330 "0") +:+ "1".

Definition overflow_text : string :=
  "1" +:+ String.concat "" (replicate 400 "0").

Definition tiny_text : string :=
  "0." +:+ String.concat "" (replicate 199 "0") +:+ "1".

(** A file whose only mode has the frequency [underflow_text]. *)
Definition underflow_dyn0 : list string :=
  [ "    freq(   1)= " +:+ underflow_text +:+ " [cm-1]" ].

(** A readable file without any frequency line. *)
Definition header_only : list string :=
  [ "Dynamical matrix file"; "" ].

(** A file whose second mode line carries text that is no number. *)
Definition garbled_dyn0 : list string :=
  [ "    freq(   1)=    16.678000 [cm-1]";
    "    freq(   2)=    1.2.3 [cm-1]" ].

Definition phonon_files (path : string) : PhononStability.file :=
  default PhononStability.Missing
    (list_to_map (M := gmap string PhononStability.file)
       [ ("mock.dyn0", PhononStability.Lines mock_dyn0);
         ("tight.dyn0", PhononStability.Lines tight_dyn0);
         ("stable.dyn0", PhononStability.Lines stable_dyn0);
         ("header.dyn0", PhononStability.Lines header_only);
         ("locked.dyn0", PhononStability.Unreadable) ] !! path).

End Examples.

(** * The functions on the concrete inputs *)

Example parity_ring4 :
  (∃ stats, ParityCheck.calculate_parity Examples.ring4 = Ok (0%nat, [], stats))
  ∧ ParityCheck.edges Examples.ring4 = [(0, 1); (0, 3); (1, 2); (2, 3)]%nat.
Proof. split; [eexists |]; reflexivity. Qed.

Example parity_chain3 :
  (∃ stats,
     ParityCheck.calculate_parity Examples.chain3 = Ok (2%nat, [0; 2]%nat, stats))
  ∧ ParityCheck.edges Examples.chain3 = [(0, 1); (1, 2)]%nat.
Proof. split; [eexists |]; reflexivity. Qed.

(** networkx counts a self-loop twice: the node has degree 2. *)
Example parity_loop1 :
  ParityCheck.degree Examples.loop1 = [(0, 2)]%nat
  ∧ ParityCheck.edges Examples.loop1 = [(0, 0)]%nat
  ∧ ∃ stats, ParityCheck.calculate_parity Examples.loop1 = Ok (0%nat, [], stats).
Proof. split; [| split; [| eexists]]; reflexivity. Qed.

Example selector_LiNH :
  BondQuantum.all_light_bonds Examples.LiNH_cnn Examples.masses Examples.LiNH
  = [ Examples.LiNH_bond_LiN;
      BondQuantum.make_bond Examples.masses 1 0 "N" "Li" 2%R;
      Examples.LiNH_bond_NH;
      BondQuantum.make_bond Examples.masses 2 1 "H" "N" 1%R ]
  ∧ BondQuantum.find_light_atom_bonds Examples.LiNH_cnn Examples.masses Examples.LiNH
    = [ Examples.LiNH_bond_LiN; Examples.LiNH_bond_NH ].
Proof. split; reflexivity. Qed.

Example regex_search :
  PhononStability.FREQ_REGEX_search "freq(1)= -5.25 [cm-1]" = Some "-5.25"
  ∧ PhononStability.FREQ_REGEX_search "freq(1)=x freq(2)=3.5" = Some "3.5"
  ∧ PhononStability.FREQ_REGEX_search "freq(1)(2)=  7" = Some "7"
  ∧ PhononStability.FREQ_REGEX_search "freq (1)= 7" = None
  ∧ PhononStability.FREQ_REGEX_search "freq(1) = 7" = None.
Proof. repeat split; reflexivity. Qed.

Example float_parse :
  PhononStability.decimal_of_string "-16.678000" = Some (-16678000 # 1000000)%Q
  ∧ PhononStability.float_of_string "-16.678000"
    = Some (-4694439661580321 # 281474976710656)%Q
  ∧ PhononStability.float_of_string "0.1"
    = Some (3602879701896397 # 36028797018963968)%Q
  ∧ PhononStability.float_of_string "5." = Some (5 # 1)%Q
  ∧ PhononStability.float_of_string ".5" = Some (1 # 2)%Q
  ∧ PhononStability.float_of_string "-0" = Some (0 # 1)%Q
  ∧ PhononStability.float_of_string "1.2.3" = None
  ∧ PhononStability.float_of_string "-" = None
  ∧ PhononStability.float_of_string "." = None
  ∧ PhononStability.float_of_string "1-2" = None.
Proof. repeat split; vm_compute; reflexivity. Qed.

(** The rounding agrees with the kernel's reading of the same decimal
    literals as binary64 numbers. *)
Example float_parse_binary64 :
  PhononStability.float_of_string "-16.678000" = Binary64.to_Q Binary64.mock_frequency
  ∧ PhononStability.float_of_string "0.1" = Binary64.to_Q Binary64.one_tenth
  ∧ PhononStability.float_of_string Examples.tiny_text
    = Binary64.to_Q Binary64.tiny_distance.
Proof. repeat split; vm_compute; reflexivity. Qed.

(** Beyond the binary64 range: a negative number of magnitude 1e-331
    becomes a zero, which is not negative; half of the least positive
    number is a tie and goes to zero, anything above it does not; a
    number of 400 digits becomes infinity. *)
Example float_parse_range :
  PhononStability.float_of_string Examples.underflow_text = Some 0%Q
  ∧ PhononStability.round_binary64 (-1 # 2 ^ 1075) = 0%Q
  ∧ PhononStability.round_binary64 (-3 # 2 ^ 1076) = (-1 # 2 ^ 1074)%Q
  ∧ PhononStability.float_of_string Examples.overflow_text
    = Some (inject_Z (2 ^ 1024)).
Proof. repeat split; vm_compute; reflexivity. Qed.

(** * Properties of the light-bond selector *)

Section selector_facts.
Import BondQuantum.

Variable cnn : NNOracle.
Variable atomic_mass : string → option R.

(** ** Duplicate removal *)

Lemma remove_duplicates_elem b l seen :
  b ∈ remove_duplicates l seen → b ∈ l ∧ pair_of b ∉ seen.
Proof.
  revert seen. induction l as [|c l IH]; intros seen; simpl.
  - by intros ?%elem_of_nil.
  - case_decide as Hc.
    + intros Hb. destruct (IH _ Hb) as [? ?]. split; [by right | done].
    + intros [->|Hb]%elem_of_cons; [split; [by left | done] |].
      destruct (IH _ Hb) as [? Hn]. split; [by right |].
      by apply not_elem_of_union in Hn as [_ ?].
Qed.

Lemma remove_duplicates_NoDup l seen :
  NoDup (pair_of <$> remove_duplicates l seen).
Proof.
  revert seen. induction l as [|c l IH]; intros seen; simpl.
  - constructor.
  - case_decide as Hc; [apply IH |].
    rewrite fmap_cons. constructor; [| apply IH].
    intros (b & Heq & Hb)%list_elem_of_fmap.
    destruct (remove_duplicates_elem _ _ _ Hb) as [_ Hn].
    apply Hn. rewrite <- Heq. apply elem_of_union_l. by apply elem_of_singleton.
Qed.

(** A kept bond is the first one of its pair in the input. *)
Lemma remove_duplicates_first b l seen :
  b ∈ remove_duplicates l seen →
  ∃ before after, l = before ++ b :: after
                  ∧ ∀ b', b' ∈ before → pair_of b' ≠ pair_of b.
Proof.
  revert seen. induction l as [|c l IH]; intros seen; simpl.
  - by intros ?%elem_of_nil.
  - case_decide as Hc.
    + intros Hb. pose proof (remove_duplicates_elem _ _ _ Hb) as [_ Hn].
      destruct (IH _ Hb) as (l1 & l2 & -> & Hfirst).
      exists (c :: l1), l2. split; [done |].
      intros b' [->|Hb']%elem_of_cons; [congruence | by apply Hfirst].
    + intros [->|Hb]%elem_of_cons.
      * exists [], l. split; [done |]. by intros b' ?%elem_of_nil.
      * pose proof (remove_duplicates_elem _ _ _ Hb) as [_ Hn].
        destruct (IH _ Hb) as (l1 & l2 & -> & Hfirst).
        exists (c :: l1), l2. split; [done |].
        intros b' [->|Hb']%elem_of_cons; [| by apply Hfirst].
        apply not_elem_of_union in Hn as [Hn _].
        intros Heq. apply Hn. by apply elem_of_singleton.
Qed.

(** Every pair of the input that was not seen before survives. *)
Lemma remove_duplicates_covers b l seen :
  b ∈ l → pair_of b ∉ seen → pair_of b ∈ pair_of <$> remove_duplicates l seen.
Proof.
  revert seen. induction l as [|c l IH]; intros seen; simpl.
  - by intros ?%elem_of_nil.
  - intros [->|Hb]%elem_of_cons Hn.
    + rewrite decide_False by done. rewrite fmap_cons. by left.
    + case_decide as Hc; [by apply IH |].
      rewrite fmap_cons. destruct (decide (pair_of b = pair_of c)) as [->|Hne].
      * by left.
      * right. apply IH; [done |].
        apply not_elem_of_union. split; [| done].
        by intros ?%elem_of_singleton.
Qed.

(** On a list without repeated pairs the loop changes nothing. *)
Lemma remove_duplicates_id l seen :
  NoDup (pair_of <$> l) → (∀ b, b ∈ l → pair_of b ∉ seen) →
  remove_duplicates l seen = l.
Proof.
  revert seen. induction l as [|c l IH]; intros seen Hnd Hseen; simpl; [done |].
  rewrite fmap_cons in Hnd. apply NoDup_cons in Hnd as [Hc Hnd].
  rewrite decide_False by (apply Hseen; by left).
  f_equal. apply IH; [done |].
  intros b Hb. apply not_elem_of_union. split.
  - intros Heq%elem_of_singleton. apply Hc. rewrite <- Heq.
    by apply list_elem_of_fmap_2.
  - apply Hseen. by right.
Qed.

Lemma remove_duplicates_idempotent l seen :
  remove_duplicates (remove_duplicates l seen) seen = remove_duplicates l seen.
Proof.
  apply remove_duplicates_id; [apply remove_duplicates_NoDup |].
  intros b Hb. by destruct (remove_duplicates_elem _ _ _ Hb) as [_ ?].
Qed.

(** ** What the scan appends *)

Lemma make_bond_light_origin i j element neighbor_element d :
  element ∈ LIGHT_ATOMS →
  light_origin (make_bond atomic_mass i j element neighbor_element d).
Proof.
  intros Hel. split; [done |]. simpl.
  rewrite andb_true_iff, !bool_decide_eq_true. tauto.
Qed.

Lemma scan_neighbors_light_origin s i element neighbors acc :
  element ∈ LIGHT_ATOMS → Forall light_origin acc →
  Forall light_origin (scan_neighbors atomic_mass s i element neighbors acc).
Proof.
  intros Hel. revert acc.
  induction neighbors as [|nb rest IH]; intros acc Hacc; simpl; [done |].
  destruct (species s !! site_index nb) as [neighbor_element|]; [| done].
  apply IH, Forall_app. split; [done |].
  constructor; [by apply make_bond_light_origin | constructor].
Qed.

Lemma scan_sites_light_origin s i sites acc :
  Forall light_origin acc →
  Forall light_origin (scan_sites cnn atomic_mass s i sites acc).
Proof.
  revert i acc. induction sites as [|element rest IH]; intros i acc Hacc; simpl; [done |].
  apply IH. case_decide as Hel; [| done].
  destruct (cnn s i) as [neighbors|]; [| done].
  by apply scan_neighbors_light_origin.
Qed.

Lemma all_light_bonds_light_origin s :
  Forall light_origin (all_light_bonds cnn atomic_mass s).
Proof. apply scan_sites_light_origin. constructor. Qed.

End selector_facts.

(** C9: every bond record returned by [find_light_atom_bonds] starts at
    a light atom, that is [atom1_element] is one of H, He, Li, Be, B, C,
    N, O, F, Ne, and its [both_light] flag is true exactly when
    [atom2_element] is in that set as well. *)
Theorem find_light_atom_bonds_light_origin
    (cnn : NNOracle) (atomic_mass : string → option R) (s : Structure)
    (b : BondQuantum.Bond) :
  b ∈ BondQuantum.find_light_atom_bonds cnn atomic_mass s →
  BondQuantum.atom1_element b
    ∈ ["H"; "He"; "Li"; "Be"; "B"; "C"; "N"; "O"; "F"; "Ne"]
  ∧ (BondQuantum.both_light b = true
     ↔ BondQuantum.atom2_element b
         ∈ ["H"; "He"; "Li"; "Be"; "B"; "C"; "N"; "O"; "F"; "Ne"]).
Proof.
  intros Hb. unfold BondQuantum.find_light_atom_bonds in Hb.
  apply remove_duplicates_elem in Hb as [Hb _].
  pose proof (all_light_bonds_light_origin cnn atomic_mass s) as Hall.
  rewrite Forall_forall in Hall. destruct (Hall b Hb) as [H1 H2].
  unfold BondQuantum.LIGHT_ATOMS in H1, H2.
  rewrite elem_of_list_to_set in H1, H2. done.
Qed.

(** C9 on the Li-N bond of the cell Li-N-H: both ends are light. *)
Lemma find_light_atom_bonds_light_origin_LiNH :
  Examples.LiNH_bond_LiN
    ∈ BondQuantum.find_light_atom_bonds Examples.LiNH_cnn Examples.masses Examples.LiNH
  ∧ BondQuantum.atom1_element Examples.LiNH_bond_LiN
      ∈ ["H"; "He"; "Li"; "Be"; "B"; "C"; "N"; "O"; "F"; "Ne"]
  ∧ (BondQuantum.both_light Examples.LiNH_bond_LiN = true
     ↔ BondQuantum.atom2_element Examples.LiNH_bond_LiN
         ∈ ["H"; "He"; "Li"; "Be"; "B"; "C"; "N"; "O"; "F"; "Ne"]).
Proof.
  assert (Examples.LiNH_bond_LiN
            ∈ BondQuantum.find_light_atom_bonds
                Examples.LiNH_cnn Examples.masses Examples.LiNH) as Hin
    by (change (Examples.LiNH_bond_LiN
                  ∈ [Examples.LiNH_bond_LiN; Examples.LiNH_bond_NH]); left).
  split; [exact Hin |].
  exact (find_light_atom_bonds_light_origin
           Examples.LiNH_cnn Examples.masses Examples.LiNH Examples.LiNH_bond_LiN Hin).
Defined.

(** The key of the duplicate removal identifies the two atoms of a
    bond and nothing else: the pair is sorted, so the direction in
    which the bond was found is forgotten. *)
Lemma pair_of_same_atoms (b b' : BondQuantum.Bond) :
  BondQuantum.pair_of b = BondQuantum.pair_of b' ↔ BondQuantum.same_atoms b b'.
Proof.
  unfold BondQuantum.pair_of, BondQuantum.sorted_pair, BondQuantum.same_atoms.
  split.
  - intros [= Hmin Hmax]. lia.
  - intros [[-> ->]|[-> ->]]; f_equal; lia.
Qed.

(** C7: in the list returned by [find_light_atom_bonds] no two records
    join the same two atoms, in the same or in the opposite direction;
    every returned record is the first one for its two atoms among the
    records the neighbour search produced (so of a bond reported from
    both directions the first-seen record is kept), and for every
    record that was produced a record with the same two atoms is
    returned; the duplicate removal is idempotent: run again on its own
    result it changes nothing. *)
Theorem find_light_atom_bonds_unique
    (cnn : NNOracle) (atomic_mass : string → option R) (s : Structure) :
  let found := BondQuantum.all_light_bonds cnn atomic_mass s in
  let bonds := BondQuantum.find_light_atom_bonds cnn atomic_mass s in
  (∀ i j b b',
     bonds !! i = Some b → bonds !! j = Some b' →
     BondQuantum.same_atoms b b' → i = j)
  ∧ (∀ b, b ∈ bonds →
       ∃ before after, found = before ++ b :: after
         ∧ ∀ b', b' ∈ before → ¬ BondQuantum.same_atoms b' b)
  ∧ (∀ b, b ∈ found → ∃ b', b' ∈ bonds ∧ BondQuantum.same_atoms b' b)
  ∧ BondQuantum.remove_duplicates bonds ∅ = bonds.
Proof.
  intros found bonds. subst bonds. unfold BondQuantum.find_light_atom_bonds.
  fold found.
  split; [| split; [| split]].
  - intros i j b b' Hi Hj Hsame%pair_of_same_atoms.
    pose proof (remove_duplicates_NoDup found ∅) as Hnd.
    apply (NoDup_lookup _ i j (BondQuantum.pair_of b) Hnd).
    + by rewrite list_lookup_fmap, Hi.
    + by rewrite list_lookup_fmap, Hj, Hsame.
  - intros b Hb. apply remove_duplicates_first in Hb as (before & after & Heq & Hfirst).
    exists before, after. split; [done |].
    intros b' Hb' Hsame%pair_of_same_atoms. by apply (Hfirst b').
  - intros b Hb.
    pose proof (remove_duplicates_covers b found ∅ Hb (not_elem_of_empty _)) as Hin.
    apply list_elem_of_fmap in Hin as (b' & Heq & Hb').
    exists b'. split; [done |]. by apply pair_of_same_atoms.
  - apply remove_duplicates_idempotent.
Qed.

(** * Facts about insertion-ordered dictionaries *)

Section dict_facts.
Context {V : Type}.
Implicit Types (d : list (nat * V)) (k : nat) (v : V).

Lemma dict_mem_true k d : dict_mem k d = true ↔ k ∈ d.*1.
Proof. unfold dict_mem. apply bool_decide_eq_true. Qed.

Lemma dict_mem_false k d : dict_mem k d = false ↔ k ∉ d.*1.
Proof. unfold dict_mem. apply bool_decide_eq_false. Qed.

Lemma dict_get_Some_elem k v d : dict_get k d = Some v → (k, v) ∈ d.
Proof.
  induction d as [|[k' v'] d IH]; simpl; [done |].
  case_decide as Hk.
  - intros [= ->]. subst. by left.
  - intros Hget. right. by apply IH.
Qed.

Lemma dict_get_None k d : dict_get k d = None ↔ k ∉ d.*1.
Proof.
  induction d as [|[k' v'] d IH]; simpl.
  - split; [intros _; apply not_elem_of_nil | done].
  - rewrite not_elem_of_cons. case_decide as Hk; [| by rewrite IH; tauto].
    split; [done | tauto].
Qed.

Lemma dict_get_is_Some k d : is_Some (dict_get k d) ↔ k ∈ d.*1.
Proof.
  rewrite <- not_eq_None_Some, dict_get_None.
  split; [apply dec_stable | tauto].
Qed.

Lemma elem_dict_get k v d : NoDup d.*1 → (k, v) ∈ d → dict_get k d = Some v.
Proof.
  induction d as [|[k' v'] d IH]; simpl; [by intros _ ?%elem_of_nil |].
  intros [Hk' Hnd]%NoDup_cons [[= -> ->]|Hin]%elem_of_cons.
  - by rewrite decide_True.
  - rewrite decide_False; [by apply IH |].
    intros ->. apply Hk'. apply list_elem_of_fmap. by exists (k', v).
Qed.

Lemma dict_get_app k d d' :
  dict_get k (d ++ d') = match dict_get k d with
                         | Some v => Some v
                         | None => dict_get k d'
                         end.
Proof.
  induction d as [|[k' v'] d IH]; simpl; [done |].
  by case_decide.
Qed.

Lemma dict_set_keys k v d :
  (dict_set k v d).*1 = if decide (k ∈ d.*1) then d.*1 else d.*1 ++ [k].
Proof.
  induction d as [|[k' v'] d IH]; [done |].
  cbn [dict_set]. rewrite fmap_cons. cbn [fst].
  destruct (decide (k ∈ k' :: d.*1)) as [Hin|Hin].
  - destruct (decide (k = k')) as [->|Hk]; [done |].
    rewrite fmap_cons. cbn [fst]. f_equal. rewrite IH.
    apply elem_of_cons in Hin as [?|Hin]; [done |].
    by rewrite decide_True.
  - apply not_elem_of_cons in Hin as [Hk Hin].
    rewrite decide_False by done.
    rewrite fmap_cons. cbn [fst]. rewrite IH.
    by rewrite decide_False.
Qed.

Lemma elem_of_dict_set_keys k' k v d :
  k' ∈ (dict_set k v d).*1 ↔ k' = k ∨ k' ∈ d.*1.
Proof.
  rewrite dict_set_keys. case_decide as Hk.
  - split; [tauto | intros [->|?]; done].
  - rewrite elem_of_app, list_elem_of_singleton. tauto.
Qed.

Lemma dict_set_NoDup k v d : NoDup d.*1 → NoDup (dict_set k v d).*1.
Proof.
  intros Hnd. rewrite dict_set_keys. case_decide as Hk; [done |].
  apply NoDup_app. split; [done |]. split; [| apply NoDup_singleton].
  intros x Hx ->%list_elem_of_singleton. done.
Qed.

Lemma dict_alter_keys (f : V → V) k d : (dict_alter f k d).*1 = d.*1.
Proof.
  induction d as [|[k' v'] d IH]; simpl; [done |].
  case_decide; simpl; [done | f_equal; apply IH].
Qed.

Lemma dict_get_alter (f : V → V) k k' d :
  dict_get k' (dict_alter f k d)
  = if decide (k' = k) then f <$> dict_get k' d else dict_get k' d.
Proof.
  induction d as [|[k0 v0] d IH]; simpl; [by case_decide |].
  destruct (decide (k = k0)) as [->|Hk]; simpl.
  - destruct (decide (k' = k0)) as [->|Hk']; [done | done].
  - destruct (decide (k' = k0)) as [->|Hk'].
    + rewrite decide_False; [done | congruence].
    + apply IH.
Qed.

End dict_facts.

(** * Facts about graphs *)

Section graph_facts.
Import ParityCheck.
Implicit Types (G : Graph) (u v n : nat).

Lemma has_edge_adjacent u v G : has_edge u v G = true ↔ adjacent G u v.
Proof.
  unfold has_edge, adjacent. destruct (dict_get u G) as [nbrs|].
  - rewrite dict_mem_true. split; [by exists nbrs | by intros (? & [= <-] & ?)].
  - split; [done | by intros (? & [=] & ?)].
Qed.

Lemma adjacent_node u v G : adjacent G u v → u ∈ nodes G.
Proof.
  intros (nbrs & Hget & _). apply dict_get_is_Some. by exists nbrs.
Qed.

Lemma nodes_add_node n G :
  nodes (add_node n G) = if decide (n ∈ nodes G) then nodes G else nodes G ++ [n].
Proof.
  unfold add_node, nodes. destruct (dict_mem n G) eqn:Hmem.
  - apply dict_mem_true in Hmem. by rewrite decide_True.
  - apply dict_mem_false in Hmem. rewrite decide_False by done.
    by rewrite fmap_app.
Qed.

Lemma elem_of_nodes_add_node k n G :
  k ∈ nodes (add_node n G) ↔ k = n ∨ k ∈ nodes G.
Proof.
  rewrite nodes_add_node. case_decide as Hn.
  - split; [tauto | by intros [->|?]].
  - rewrite elem_of_app, list_elem_of_singleton. tauto.
Qed.

Lemma dict_get_add_node k n G :
  dict_get k (add_node n G)
  = match dict_get k G with
    | Some nbrs => Some nbrs
    | None => if decide (k = n) then if dict_mem n G then None else Some [] else None
    end.
Proof.
  unfold add_node. destruct (dict_mem n G) eqn:Hmem.
  - destruct (dict_get k G); [done | by case_decide].
  - rewrite dict_get_app. destruct (dict_get k G); [done |]. simpl.
    by case_decide.
Qed.

Lemma adjacent_add_node n G u v : adjacent (add_node n G) u v ↔ adjacent G u v.
Proof.
  unfold adjacent. rewrite dict_get_add_node.
  destruct (dict_get u G) as [nbrs|]; [done |].
  split; [| by intros (? & [=] & ?)].
  intros (nbrs & Hget & Hv). case_decide; [| done].
  destruct (dict_mem n G); [done |]. injection Hget as <-.
  by apply elem_of_nil in Hv.
Qed.

Lemma nbrs_NoDup_add_node n G :
  (∀ u nbrs, dict_get u G = Some nbrs → NoDup nbrs.*1) →
  ∀ u nbrs, dict_get u (add_node n G) = Some nbrs → NoDup nbrs.*1.
Proof.
  intros Hnd u nbrs. rewrite dict_get_add_node.
  destruct (dict_get u G) as [nbrs'|] eqn:Hget.
  - intros [= <-]. by eapply Hnd.
  - case_decide; [| done]. destruct (dict_mem n G); [done |].
    intros [= <-]. constructor.
Qed.

Lemma wf_add_node n G : wf_graph G → wf_graph (add_node n G).
Proof.
  intros (Hnodes & Hnbrs & Hsym). split; [| split].
  - rewrite nodes_add_node. case_decide as Hn; [done |].
    apply NoDup_app. split; [done |]. split; [| apply NoDup_singleton].
    by intros x Hx ->%list_elem_of_singleton.
  - by apply nbrs_NoDup_add_node.
  - intros u v. rewrite !adjacent_add_node. apply Hsym.
Qed.

(** Setting one neighbour in the adjacency dict of a node that exists. *)
Lemma adjacent_alter_set k x (d : R) G a b :
  k ∈ nodes G →
  adjacent (dict_alter (dict_set x d) k G) a b ↔ adjacent G a b ∨ (a = k ∧ b = x).
Proof.
  intros Hk. unfold adjacent. rewrite dict_get_alter.
  destruct (decide (a = k)) as [->|Ha].
  - apply dict_get_is_Some in Hk as [nbrs0 Hget]. rewrite Hget. simpl. split.
    + intros (nbrs & [= <-] & Hb). apply elem_of_dict_set_keys in Hb as [->|Hb].
      * by right.
      * left. by exists nbrs0.
    + intros [(nbrs & [= <-] & Hb)|[_ ->]];
        (eexists; split; [done |]); apply elem_of_dict_set_keys; tauto.
  - split; [tauto | intros [?|[? _]]; done].
Qed.

Lemma nbrs_NoDup_alter_set k x (d : R) G :
  (∀ u nbrs, dict_get u G = Some nbrs → NoDup nbrs.*1) →
  ∀ u nbrs, dict_get u (dict_alter (dict_set x d) k G) = Some nbrs → NoDup nbrs.*1.
Proof.
  intros Hnd u nbrs. rewrite dict_get_alter. case_decide; [| apply Hnd].
  destruct (dict_get u G) as [nbrs0|] eqn:Hget; [| done].
  intros [= <-]. apply dict_set_NoDup. by eapply Hnd.
Qed.

Lemma nodes_add_edge u v (d : R) G :
  nodes (add_edge u v d G) = nodes (add_node v (add_node u G)).
Proof. unfold add_edge, nodes. by rewrite !dict_alter_keys. Qed.

Lemma adjacent_add_edge u v (d : R) G a b :
  adjacent (add_edge u v d G) a b
  ↔ adjacent G a b ∨ (a = u ∧ b = v) ∨ (a = v ∧ b = u).
Proof.
  unfold add_edge.
  rewrite adjacent_alter_set.
  2:{ unfold nodes. rewrite dict_alter_keys.
      apply elem_of_nodes_add_node. by left. }
  rewrite adjacent_alter_set.
  2:{ apply elem_of_nodes_add_node. right. apply elem_of_nodes_add_node. by left. }
  rewrite !adjacent_add_node. tauto.
Qed.

Lemma wf_add_edge u v (d : R) G : wf_graph G → wf_graph (add_edge u v d G).
Proof.
  intros HG.
  assert (wf_graph (add_node v (add_node u G))) as (Hnodes & Hnbrs & _)
    by by do 2 apply wf_add_node.
  split; [| split].
  - by rewrite nodes_add_edge.
  - unfold add_edge. by do 2 apply nbrs_NoDup_alter_set.
  - intros a b. rewrite !adjacent_add_edge.
    destruct HG as (_ & _ & Hsym). intros [?|[[-> ->]|[-> ->]]]; auto.
Qed.

End graph_facts.

(** * Loops as folds *)

Section fold_facts.
Context {A B : Type}.

Lemma foldl_invariant (P : A → Prop) (f : A → B → A) (l : list B) (a : A) :
  P a → (∀ a x, x ∈ l → P a → P (f a x)) → P (foldl f a l).
Proof.
  revert a. induction l as [|y l IH]; intros a Ha Hstep; simpl; [done |].
  apply IH.
  - apply Hstep; [by left | done].
  - intros a' x Hx. apply Hstep. by right.
Qed.

(** What one iteration establishes and no iteration destroys holds at
    the end of the loop. *)
Lemma foldl_reaches (Q : A → Prop) (f : A → B → A) (l : list B) (a : A) (x : B) :
  x ∈ l → (∀ a, Q (f a x)) → (∀ a y, Q a → Q (f a y)) → Q (foldl f a l).
Proof.
  intros Hx Hhere Hkeep. revert a.
  induction l as [|y l IH]; intros a; simpl; [by apply elem_of_nil in Hx |].
  apply elem_of_cons in Hx as [->|Hx].
  - apply foldl_invariant; [apply Hhere | intros; by apply Hkeep].
  - by apply IH.
Qed.

End fold_facts.

(** * The connectivity graph *)

Section build_facts.
Import ParityCheck.

Variable cnn : NNOracle.
Variable cutoff_distance : R.
Variable s : Structure.

Local Abbreviation N := (length (species s)).

Local Abbreviation build_invariant := (ParityCheck.build_invariant cnn cutoff_distance s).

Lemma nodes_add_node_present n G : n ∈ nodes G → nodes (add_node n G) = nodes G.
Proof. intros Hn. rewrite nodes_add_node. by rewrite decide_True. Qed.

Lemma add_nodes_fresh (l : list nat) G :
  NoDup (nodes G ++ l) → wf_graph G → (∀ a b, ¬ adjacent G a b) →
  let G' := foldl (λ G i, add_node i G) G l in
  wf_graph G' ∧ nodes G' = nodes G ++ l ∧ ∀ a b, ¬ adjacent G' a b.
Proof.
  revert G. induction l as [|i l IH]; intros G Hnd Hwf Hadj; simpl.
  - by rewrite app_nil_r.
  - assert (i ∉ nodes G) as Hi.
    { apply NoDup_app in Hnd as (_ & Hdisj & _). intros Hin.
      apply (Hdisj i Hin). by left. }
    destruct (IH (add_node i G)) as (Hwf' & Hnodes' & Hadj').
    + rewrite nodes_add_node, decide_False by done. by rewrite <- app_assoc.
    + by apply wf_add_node.
    + intros a b. rewrite adjacent_add_node. apply Hadj.
    + split; [done |]. split; [| done].
      rewrite Hnodes', nodes_add_node, decide_False by done.
      by rewrite <- app_assoc.
Qed.

Lemma wf_empty_graph : wf_graph empty_graph.
Proof.
  split; [constructor |]. split; [done |]. by intros u v (? & [=] & _).
Qed.

Lemma build_invariant_init :
  build_invariant (foldl (λ G i, add_node i G) empty_graph (seq 0 N)).
Proof.
  destruct (add_nodes_fresh (seq 0 N) empty_graph) as (Hwf & Hnodes & Hadj).
  - apply NoDup_seq.
  - apply wf_empty_graph.
  - by intros a b (? & [=] & _).
  - split; [done |]. split; [done |]. intros a b Hab. by destruct (Hadj a b).
Qed.

Lemma visit_neighbor_invariant i neighbors neighbor G :
  (i < N)%nat → (site_index neighbor < N)%nat →
  cnn s i = Some neighbors → neighbor ∈ neighbors →
  build_invariant G → build_invariant (visit_neighbor cutoff_distance i G neighbor).
Proof.
  intros Hi Hj Hcnn Hnb (Hwf & Hnodes & Hadj). unfold visit_neighbor.
  case_decide as Hle; [| done].
  destruct (has_edge i (site_index neighbor) G); [done |].
  split; [by apply wf_add_edge |]. split.
  - rewrite nodes_add_edge, !nodes_add_node_present; [done | |].
    + rewrite Hnodes. apply elem_of_seq. lia.
    + rewrite nodes_add_node_present; rewrite Hnodes; apply elem_of_seq; lia.
  - assert (reported cnn cutoff_distance s i (site_index neighbor)) as Hrep
      by by exists neighbors, neighbor.
    intros a b [Hab|[[-> ->]|[-> ->]]]%adjacent_add_edge; auto.
Qed.

Lemma visit_neighbor_keeps i neighbor G a b :
  adjacent G a b → adjacent (visit_neighbor cutoff_distance i G neighbor) a b.
Proof.
  intros Hab. unfold visit_neighbor. case_decide; [| done].
  destruct (has_edge i (site_index neighbor) G); [done |].
  apply adjacent_add_edge. by left.
Qed.

Lemma visit_neighbor_adds i neighbor G :
  (weight neighbor <= cutoff_distance)%R →
  adjacent (visit_neighbor cutoff_distance i G neighbor) i (site_index neighbor).
Proof.
  intros Hle. unfold visit_neighbor. rewrite decide_True by done.
  destruct (has_edge i (site_index neighbor) G) eqn:Hedge.
  - by apply has_edge_adjacent.
  - apply adjacent_add_edge. right. by left.
Qed.

Hypothesis in_range : oracle_in_range cnn s.

Lemma visit_site_invariant i G :
  (i < N)%nat → build_invariant G →
  build_invariant (visit_site cnn cutoff_distance s G i).
Proof.
  intros Hi HG. unfold visit_site.
  destruct (cnn s i) as [neighbors|] eqn:Hcnn; [| done].
  apply foldl_invariant; [done |].
  intros G' neighbor Hnb. eapply visit_neighbor_invariant; eauto.
Qed.

Lemma visit_site_keeps i G a b :
  adjacent G a b → adjacent (visit_site cnn cutoff_distance s G i) a b.
Proof.
  intros Hab. unfold visit_site. destruct (cnn s i) as [neighbors|]; [| done].
  apply (foldl_invariant (λ G, adjacent G a b)); [done |].
  intros G' neighbor _. apply visit_neighbor_keeps.
Qed.

Lemma visit_site_adds i j G :
  reported cnn cutoff_distance s i j →
  adjacent (visit_site cnn cutoff_distance s G i) i j.
Proof.
  intros (neighbors & neighbor & Hcnn & Hnb & <- & Hle).
  unfold visit_site. rewrite Hcnn.
  apply (foldl_reaches (λ G, adjacent G i (site_index neighbor)) _ _ _ neighbor).
  - done.
  - intros G'. by apply visit_neighbor_adds.
  - intros G' y. apply visit_neighbor_keeps.
Qed.

Lemma build_connectivity_graph_invariant :
  build_invariant (build_connectivity_graph cnn cutoff_distance s).
Proof.
  unfold build_connectivity_graph. apply foldl_invariant.
  - apply build_invariant_init.
  - intros G i Hi%elem_of_seq. apply visit_site_invariant. lia.
Qed.

Lemma build_connectivity_graph_adjacent i j :
  (i < N)%nat → reported cnn cutoff_distance s i j →
  adjacent (build_connectivity_graph cnn cutoff_distance s) i j.
Proof.
  intros Hi Hrep. unfold build_connectivity_graph.
  apply (foldl_reaches (λ G, adjacent G i j) _ _ _ i).
  - apply elem_of_seq. lia.
  - intros G. by apply visit_site_adds.
  - intros G y. apply visit_site_keeps.
Qed.

End build_facts.

(** * The edge list of a graph *)

Section edges_facts.
Import ParityCheck.

Lemma unordered_eq a b c d :
  unordered (a, b) = unordered (c, d) ↔ (a = c ∧ b = d) ∨ (a = d ∧ b = c).
Proof.
  unfold unordered. simpl. split.
  - intros [= Hmin Hmax]. lia.
  - intros [[-> ->]|[-> ->]]; f_equal; lia.
Qed.

Lemma elem_of_edges_from (G : Graph) seen a b :
  (a, b) ∈ edges_from G seen →
  ∃ nbrs, (a, nbrs) ∈ G ∧ b ∈ nbrs.*1 ∧ b ∉ seen.
Proof.
  revert seen. induction G as [|[n nbrs] G IH]; intros seen; simpl.
  - by intros ?%elem_of_nil.
  - intros [Hhere|Hlater]%elem_of_app.
    + apply list_elem_of_fmap in Hhere as (x & [= -> ->] & Hx).
      apply list_elem_of_filter in Hx as [Hseen Hx].
      exists nbrs. split; [by left | done].
    + apply IH in Hlater as (nbrs' & Hin & Hb & Hseen).
      exists nbrs'. split; [by right |]. split; [done |].
      intros ?. apply Hseen. by apply elem_of_union_r.
Qed.

Lemma edges_from_NoDup (G : Graph) seen :
  NoDup G.*1 → (∀ n nbrs, (n, nbrs) ∈ G → NoDup nbrs.*1) →
  NoDup (unordered <$> edges_from G seen).
Proof.
  revert seen. induction G as [|[n nbrs] G IH]; intros seen Hkeys Hnbrs; simpl.
  - constructor.
  - rewrite fmap_cons in Hkeys. apply NoDup_cons in Hkeys as [Hn Hkeys].
    rewrite fmap_app. apply NoDup_app. split; [| split].
    + rewrite <- list_fmap_compose. apply NoDup_fmap_2_strong.
      * intros x y _ _ Heq. simpl in Heq.
        apply unordered_eq in Heq as [[_ ?]|[-> <-]]; done.
      * apply NoDup_filter. apply (Hnbrs n). by left.
    + intros e (e1 & -> & He1)%list_elem_of_fmap (e2 & Heq & He2)%list_elem_of_fmap.
      apply list_elem_of_fmap in He1 as (x & -> & _).
      destruct e2 as [m y]. apply elem_of_edges_from in He2 as (nbrs' & Hm & _ & Hy).
      assert (m ≠ n) as Hmn.
      { intros ->. apply Hn. apply list_elem_of_fmap. by exists (n, nbrs'). }
      assert (y ≠ n) as Hyn.
      { intros ->. apply Hy. apply elem_of_union_l. by apply elem_of_singleton. }
      apply unordered_eq in Heq as [[? _]|[? _]]; congruence.
    + apply IH; [done |]. intros m nbrs' Hm. apply (Hnbrs m). by right.
Qed.

Lemma edges_from_self (G : Graph) seen a nbrs :
  NoDup G.*1 → (a, nbrs) ∈ G → a ∈ nbrs.*1 → a ∉ seen →
  (a, a) ∈ edges_from G seen.
Proof.
  revert seen. induction G as [|[n nbrs'] G IH]; intros seen Hkeys Hin Ha Hseen; simpl.
  - by apply elem_of_nil in Hin.
  - rewrite fmap_cons in Hkeys. apply NoDup_cons in Hkeys as [Hn Hkeys].
    apply elem_of_app. apply elem_of_cons in Hin as [[= -> ->]|Hin].
    + left. apply list_elem_of_fmap. exists n. split; [done |].
      by apply list_elem_of_filter.
    + right. apply IH; [done | done | done |].
      apply not_elem_of_union. split; [| done].
      intros ->%elem_of_singleton. apply Hn.
      apply list_elem_of_fmap. by exists (n, nbrs).
Qed.

Lemma edges_adjacent (G : Graph) a b :
  wf_graph G → (a, b) ∈ edges G → adjacent G a b.
Proof.
  intros (Hkeys & _ & _) (nbrs & Hin & Hb & _)%elem_of_edges_from.
  exists nbrs. split; [by apply elem_dict_get | done].
Qed.

Lemma edges_NoDup (G : Graph) : wf_graph G → NoDup (unordered <$> edges G).
Proof.
  intros (Hkeys & Hnbrs & _). apply edges_from_NoDup; [done |].
  intros n nbrs Hin. apply (Hnbrs n). by apply elem_dict_get.
Qed.

Lemma edges_self_loop (G : Graph) a :
  wf_graph G → (a, a) ∈ edges G ↔ adjacent G a a.
Proof.
  intros HG. split; [by apply edges_adjacent |].
  destruct HG as (Hkeys & _ & _). intros (nbrs & Hget & Ha).
  eapply edges_from_self; [done | by apply dict_get_Some_elem | done |].
  apply not_elem_of_empty.
Qed.

(** Self-loops of the connectivity graph are exactly the atoms the
    oracle reports as their own neighbour within the cutoff. *)
Lemma build_connectivity_graph_self_loops cnn cutoff_distance s u :
  oracle_in_range cnn s →
  (u, u) ∈ edges (build_connectivity_graph cnn cutoff_distance s)
  ↔ (u < length (species s))%nat ∧ reported cnn cutoff_distance s u u.
Proof.
  intros Hrange.
  destruct (build_connectivity_graph_invariant cnn cutoff_distance s Hrange)
    as (Hwf & Hnodes & Hadj).
  rewrite edges_self_loop by done. split.
  - intros Huu. split.
    + apply adjacent_node in Huu. rewrite Hnodes in Huu.
      apply elem_of_seq in Huu. lia.
    + by destruct (Hadj u u Huu).
  - intros [Hu Hrep]. by apply build_connectivity_graph_adjacent.
Qed.

End edges_facts.

(** C2, as the code has it: for every structure and cutoff, with an
    oracle that reports sites of the structure, the graph built by
    [build_connectivity_graph] has one node per atom (the sites, in
    order, isolated atoms included), no two of its edges connect the
    same unordered pair of nodes, and every edge comes from a report of
    the oracle within the cutoff.  An edge connects a node to itself
    exactly when the oracle reports the atom as its own neighbour
    within the cutoff; the construction has no guard against it. *)
Theorem build_connectivity_graph_no_duplicate_edges
    (cnn : NNOracle) (cutoff_distance : R) (s : Structure) :
  oracle_in_range cnn s →
  let G := ParityCheck.build_connectivity_graph cnn cutoff_distance s in
  ParityCheck.number_of_nodes G = length (species s)
  ∧ ParityCheck.nodes G = seq 0 (length (species s))
  ∧ NoDup (ParityCheck.unordered <$> ParityCheck.edges G)
  ∧ (∀ u v, (u, v) ∈ ParityCheck.edges G →
       ParityCheck.reported cnn cutoff_distance s u v
       ∨ ParityCheck.reported cnn cutoff_distance s v u)
  ∧ (∀ u, (u, u) ∈ ParityCheck.edges G
       ↔ (u < length (species s))%nat
         ∧ ParityCheck.reported cnn cutoff_distance s u u).
Proof.
  intros Hrange G.
  destruct (build_connectivity_graph_invariant cnn cutoff_distance s Hrange)
    as (Hwf & Hnodes & Hadj).
  split; [| split; [done | split; [by apply edges_NoDup | split]]].
  - unfold ParityCheck.number_of_nodes. fold G in Hnodes.
    unfold ParityCheck.nodes in Hnodes.
    rewrite <- (length_fmap fst G), Hnodes. apply length_seq.
  - intros u v Huv. apply Hadj. by apply edges_adjacent.
  - intros u. by apply build_connectivity_graph_self_loops.
Qed.

Lemma oracle_of_in_range (table : list (list Neighbor)) (s : Structure) :
  Examples.table_in_range table (length (species s)) = true →
  oracle_in_range (Examples.oracle_of table) s.
Proof.
  unfold Examples.table_in_range, Examples.oracle_of, oracle_in_range.
  intros Hall i nbrs nb Hi Hnb.
  rewrite forallb_forall in Hall.
  apply list_elem_of_lookup_2, list_elem_of_In, Hall in Hi.
  rewrite forallb_forall in Hi.
  apply list_elem_of_In, Hi in Hnb. by apply bool_decide_eq_true in Hnb.
Qed.

(** C2 on the three-atom cell Li-N-H with the default cutoff. *)
Lemma build_connectivity_graph_no_duplicate_edges_LiNH :
  oracle_in_range Examples.LiNH_cnn Examples.LiNH
  ∧ ParityCheck.number_of_nodes
      (ParityCheck.build_connectivity_graph Examples.LiNH_cnn 3.5 Examples.LiNH) = 3%nat
  ∧ NoDup (ParityCheck.unordered
             <$> ParityCheck.edges
                   (ParityCheck.build_connectivity_graph Examples.LiNH_cnn 3.5 Examples.LiNH)).
Proof.
  assert (oracle_in_range Examples.LiNH_cnn Examples.LiNH) as Hrange
    by (apply oracle_of_in_range; reflexivity).
  split; [exact Hrange |].
  destruct (build_connectivity_graph_no_duplicate_edges
              Examples.LiNH_cnn 3.5 Examples.LiNH Hrange) as (Hn & _ & Hnd & _).
  split; [exact Hn | exact Hnd].
Defined.

(** C2 as stated fails on a one-atom cell: the oracle reports the
    periodic images of the atom under the atom's own index, and the
    graph gets an edge from node 0 to node 0. *)
Lemma build_connectivity_graph_self_loop_Fe1 :
  ¬ (∀ e, e ∈ ParityCheck.edges
                (ParityCheck.build_connectivity_graph Examples.Fe1_cnn 3.5 Examples.Fe1) →
          e.1 ≠ e.2).
Proof.
  intros Hsimple. apply (Hsimple (0, 0)%nat); [| done].
  apply build_connectivity_graph_self_loops.
  - apply oracle_of_in_range. reflexivity.
  - split; [simpl; lia |].
    exists [mkNeighbor 0 2.5; mkNeighbor 0 2.5], (mkNeighbor 0 2.5).
    split; [reflexivity |]. split; [by left |]. split; [reflexivity |].
    simpl. lra.
Qed.

(** * Degrees and edge ends *)

Section degree_facts.
Import ParityCheck.

Lemma incident_ends_app es1 es2 n :
  incident_ends (es1 ++ es2) n = (incident_ends es1 n + incident_ends es2 n)%nat.
Proof. unfold incident_ends. by rewrite fmap_app, sum_list_with_app. Qed.

(** In a list without repetition an element is found at most once. *)
Lemma length_filter_eq (xs : list nat) n :
  NoDup xs →
  length (filter (λ x, x = n) xs) = if decide (n ∈ xs) then 1%nat else 0%nat.
Proof.
  induction xs as [|x xs IH]; intros Hnd.
  - by rewrite decide_False by apply not_elem_of_nil.
  - apply NoDup_cons in Hnd as [Hx Hnd]. rewrite filter_cons.
    destruct (decide (x = n)) as [->|Hxn]; simpl.
    + rewrite IH by done. rewrite decide_False by done.
      rewrite decide_True; [done | by left].
    + rewrite IH by done. destruct (decide (n ∈ xs)) as [Hin|Hin].
      * rewrite decide_True; [done | by right].
      * rewrite decide_False; [done |]. rewrite not_elem_of_cons. split; [congruence | done].
Qed.

(** The edges that start at [m]. *)
Lemma incident_ends_from m (xs : list nat) n :
  NoDup xs →
  incident_ends ((λ x, (m, x)) <$> xs) n
  = ((if decide (m = n) then length xs else 0)
     + (if decide (n ∈ xs) then 1 else 0))%nat.
Proof.
  intros Hnd. rewrite <- (length_filter_eq xs n Hnd). clear Hnd.
  unfold incident_ends. induction xs as [|x xs IH].
  - simpl. by case_decide.
  - rewrite !fmap_cons, filter_cons. cbn [sum_list_with]. rewrite IH.
    unfold ends_at, id. simpl. repeat case_decide; simpl; lia.
Qed.

(** Adding a visited node that was not visited yet removes at most the
    node itself from the neighbours still to be listed. *)
Lemma length_filter_unseen (xs : list nat) m (seen : gset nat) :
  NoDup xs → m ∉ seen →
  length (filter (λ x, x ∉ seen) xs)
  = (length (filter (λ x, x ∉ ({[m]} ∪ seen : gset nat)) xs)
     + (if decide (m ∈ xs) then 1 else 0))%nat.
Proof.
  intros Hnd Hm. induction xs as [|x xs IH].
  - by rewrite decide_False by apply not_elem_of_nil.
  - apply NoDup_cons in Hnd as [Hx Hnd]. rewrite !filter_cons.
    specialize (IH Hnd).
    destruct (decide (x = m)) as [->|Hxm].
    + rewrite decide_True by done.
      rewrite (decide_False (P := m ∉ {[m]} ∪ seen)).
      2:{ intros Hn. apply Hn, elem_of_union_l. by apply elem_of_singleton. }
      rewrite (decide_True (P := m ∈ m :: xs)) by by left.
      rewrite decide_False in IH by done. simpl. lia.
    + assert (m ∈ x :: xs ↔ m ∈ xs) as Hiff.
      { rewrite elem_of_cons. split; [intros [?|?]; congruence | tauto]. }
      assert (x ∉ {[m]} ∪ seen ↔ x ∉ seen) as Hiff'.
      { rewrite not_elem_of_union, not_elem_of_singleton. tauto. }
      destruct (decide (x ∉ seen)) as [Hs|Hs].
      * rewrite (decide_True (P := x ∉ {[m]} ∪ seen)) by by apply Hiff'.
        simpl. rewrite IH.
        destruct (decide (m ∈ xs)) as [Hin|Hin].
        -- rewrite decide_True by by apply Hiff. lia.
        -- rewrite decide_False by by rewrite Hiff. lia.
      * rewrite (decide_False (P := x ∉ {[m]} ∪ seen)) by by rewrite Hiff'.
        rewrite IH.
        destruct (decide (m ∈ xs)) as [Hin|Hin].
        -- rewrite decide_True by by apply Hiff. lia.
        -- rewrite decide_False by by rewrite Hiff. lia.
Qed.

Lemma filter_unseen_all (xs : list nat) (seen : gset nat) :
  (∀ x, x ∈ xs → x ∉ seen) → filter (λ x, x ∉ seen) xs = xs.
Proof.
  induction xs as [|x xs IH]; intros Hall; [done |].
  rewrite filter_cons, decide_True by (apply Hall; by left).
  rewrite IH; [done |]. intros y Hy. apply Hall. by right.
Qed.

Lemma dict_unique {V} k (v1 v2 : V) (d : list (nat * V)) :
  NoDup d.*1 → (k, v1) ∈ d → (k, v2) ∈ d → v1 = v2.
Proof.
  intros Hnd H1 H2. apply (elem_dict_get _ _ _ Hnd) in H1, H2. congruence.
Qed.

Lemma traversal_ok_tail m nbrs (G : Graph) seen :
  traversal_ok ((m, nbrs) :: G) seen → traversal_ok G ({[m]} ∪ seen).
Proof.
  intros [Hkeys Hall]. rewrite fmap_cons in Hkeys.
  apply NoDup_cons in Hkeys as [Hm Hkeys]. split; [done |].
  intros k nb Hk. destruct (Hall k nb) as (Hnd & Hseen & Hsym); [by right |].
  split; [done |]. split.
  - apply not_elem_of_union. split; [| done].
    intros ->%elem_of_singleton. apply Hm. apply list_elem_of_fmap. by exists (m, nb).
  - intros x Hx. destruct (Hsym x Hx) as [?|(nbrs_x & Hin & Hkx)].
    + left. by apply elem_of_union_r.
    + apply elem_of_cons in Hin as [[= -> ->]|Hin].
      * left. apply elem_of_union_l. by apply elem_of_singleton.
      * right. by exists nbrs_x.
Qed.

Lemma incident_ends_edges_from (G : Graph) seen n :
  traversal_ok G seen →
  incident_ends (edges_from G seen) n
  = match dict_get n G with
    | Some nbrs =>
        (length (filter (λ x, x ∉ seen) nbrs.*1)
         + (if dict_mem n nbrs then 1 else 0))%nat
    | None => 0%nat
    end.
Proof.
  revert seen. induction G as [|[m nbrs_m] G IH]; intros seen Hok; [done |].
  pose proof (traversal_ok_tail _ _ _ _ Hok) as Hok'.
  destruct Hok as [Hkeys Hall]. rewrite fmap_cons in Hkeys.
  apply NoDup_cons in Hkeys as [Hm Hkeys].
  destruct (Hall m nbrs_m) as (Hnd_m & Hseen_m & Hsym_m); [by left |].
  cbn [edges_from dict_get]. rewrite incident_ends_app, (IH _ Hok').
  rewrite incident_ends_from by by apply NoDup_filter.
  destruct (decide (n = m)) as [->|Hnm].
  - rewrite decide_True by done.
    assert (dict_get m G = None) as -> by by apply dict_get_None.
    unfold dict_mem.
    destruct (decide (m ∈ nbrs_m.*1)) as [Hin|Hin].
    + rewrite bool_decide_eq_true_2 by done.
      rewrite decide_True; [lia |]. by apply list_elem_of_filter.
    + rewrite bool_decide_eq_false_2 by done.
      rewrite decide_False; [lia |]. by intros [_ ?]%list_elem_of_filter.
  - rewrite (decide_False (P := m = n)) by congruence.
    destruct (dict_get n G) as [nbrs_n|] eqn:Hget.
    + apply dict_get_Some_elem in Hget.
      destruct (Hall n nbrs_n) as (Hnd_n & Hseen_n & Hsym_n); [by right |].
      rewrite (length_filter_unseen nbrs_n.*1 m seen) by done.
      assert (n ∈ filter (λ x, x ∉ seen) nbrs_m.*1 ↔ m ∈ nbrs_n.*1) as Hiff.
      { rewrite list_elem_of_filter. split.
        - intros [_ Hin]. destruct (Hsym_m n Hin) as [?|(nbrs_x & Hx & ?)]; [done |].
          assert (nbrs_x = nbrs_n) as ->; [| done].
          eapply (dict_unique n); [| exact Hx | by right].
          rewrite fmap_cons. by constructor.
        - intros Hin. split; [done |].
          destruct (Hsym_n m Hin) as [?|(nbrs_x & Hx & ?)]; [done |].
          assert (nbrs_x = nbrs_m) as ->; [| done].
          eapply (dict_unique m); [| exact Hx | by left].
          rewrite fmap_cons. by constructor. }
      destruct (decide (m ∈ nbrs_n.*1)) as [Hin|Hin].
      * rewrite decide_True by by apply Hiff. lia.
      * rewrite decide_False by by rewrite Hiff. lia.
    + apply dict_get_None in Hget.
      rewrite decide_False; [done |].
      intros [Hseen Hin]%list_elem_of_filter.
      destruct (Hsym_m n Hin) as [?|(nbrs_x & Hx & _)]; [done |].
      apply elem_of_cons in Hx as [[= ? ?]|Hx]; [done |].
      apply Hget. apply list_elem_of_fmap. by exists (n, nbrs_x).
Qed.

Lemma wf_traversal_ok (G : Graph) : wf_graph G → traversal_ok G ∅.
Proof.
  intros (Hkeys & Hnbrs & Hsym). split; [done |].
  intros m nbrs Hin. apply (elem_dict_get _ _ _ Hkeys) in Hin.
  split; [by apply (Hnbrs m) |]. split; [apply not_elem_of_empty |].
  intros x Hx. right.
  destruct (Hsym m x) as (nbrs_x & Hget & Hm); [by exists nbrs |].
  exists nbrs_x. split; [by apply dict_get_Some_elem | done].
Qed.

(** The degree networkx reports is the number of edge ends at the node. *)
Lemma degree_of_incident_ends (G : Graph) n nbrs :
  wf_graph G → (n, nbrs) ∈ G →
  degree_of n nbrs = incident_ends (edges G) n.
Proof.
  intros HG Hin. unfold edges.
  rewrite (incident_ends_edges_from _ _ _ (wf_traversal_ok _ HG)).
  destruct HG as (Hkeys & _ & _).
  rewrite (elem_dict_get _ _ _ Hkeys Hin).
  rewrite filter_unseen_all by (intros; apply not_elem_of_empty).
  unfold degree_of. by rewrite length_fmap.
Qed.

(** Without self-loops, edge ends at a node and edges at a node are the
    same count. *)
Lemma incident_ends_no_loops es n :
  (∀ e, e ∈ es → e.1 ≠ e.2) → incident_ends es n = incident_edges es n.
Proof.
  unfold incident_ends, incident_edges. induction es as [|e es IH]; intros Hloops; [done |].
  rewrite fmap_cons, filter_cons. simpl. rewrite IH.
  2:{ intros e' He'. apply Hloops. by right. }
  assert (e.1 ≠ e.2) as He by (apply Hloops; by left).
  unfold ends_at. repeat case_decide; simpl; try lia; try tauto; congruence.
Qed.

End degree_facts.

(** * The parity evaluator *)

Section parity_facts.
Import ParityCheck.

Lemma build_connectivity_graph_wf cnn cutoff_distance s :
  wf_graph (build_connectivity_graph cnn cutoff_distance s).
Proof.
  unfold build_connectivity_graph. apply foldl_invariant.
  - apply (foldl_invariant wf_graph); [apply wf_empty_graph |].
    intros G i _. apply wf_add_node.
  - intros G i _ HG. unfold visit_site.
    destruct (cnn s i) as [neighbors|]; [| done].
    apply foldl_invariant; [done |].
    intros G' neighbor _ HG'. unfold visit_neighbor.
    case_decide; [| done].
    destruct (has_edge i (site_index neighbor) G'); [done | by apply wf_add_edge].
Qed.

(** The comprehension over [degrees.items()], entry by entry. *)
Lemma odd_vertices_filter (G l : Graph) :
  wf_graph G → (∀ x, x ∈ l → x ∈ G) →
  (filter (λ nd : nat * nat, (nd.2 mod 2 = 1)%nat) (degree l)).*1
  = filter (λ n, (incident_ends (edges G) n mod 2 = 1)%nat) (nodes l).
Proof.
  intros HG. unfold degree, nodes.
  induction l as [|[n nbrs] l IH]; intros Hsub; [done |].
  rewrite !fmap_cons. cbn [fst]. rewrite !filter_cons. cbn [snd].
  rewrite (degree_of_incident_ends G n nbrs HG) by (apply Hsub; by left).
  assert ((filter (λ nd : nat * nat, (nd.2 mod 2 = 1)%nat)
             ((λ '(n, nbrs), (n, degree_of n nbrs)) <$> l)).*1
          = filter (λ n, (incident_ends (edges G) n mod 2 = 1)%nat) l.*1) as IH'.
  { apply IH. intros x Hx. apply Hsub. by right. }
  case_decide; [rewrite fmap_cons; cbn [fst]; by f_equal | done].
Qed.

(** [calculate_parity] always returns: the guards keep [min] and
    [max] away from an empty list. *)
Lemma calculate_parity_Ok (G : Graph) :
  let odd := (filter (λ nd : nat * nat, (nd.2 mod 2 = 1)%nat) (degree G)).*1 in
  ∃ stats,
    calculate_parity G = Ok (length odd, odd, stats)
    ∧ total_vertices stats = number_of_nodes G
    ∧ total_edges stats = number_of_edges G
    ∧ odd_degree_count stats = length odd
    ∧ even_degree_count stats = (length (degree G).*2 - length odd)%nat
    ∧ match (degree G).*2 with
      | [] => min_degree stats = 0%nat ∧ max_degree stats = 0%nat
      | d :: ds =>
          min_degree stats = foldl Nat.min d ds ∧ max_degree stats = foldl Nat.max d ds
      end.
Proof.
  intros odd. unfold calculate_parity. fold odd.
  destruct ((degree G).*2) as [|d ds]; cbn; eexists; (split; [reflexivity |]); done.
Qed.

Lemma calculate_parity_odd_by_ends (G : Graph) :
  wf_graph G →
  ∃ stats, calculate_parity G = Ok (length (odd_by_ends G), odd_by_ends G, stats).
Proof.
  intros HG. destruct (calculate_parity_Ok G) as (stats & Hcalc & _).
  exists stats. rewrite Hcalc. unfold odd_by_ends.
  by rewrite (odd_vertices_filter G G HG).
Qed.

Lemma odd_by_ends_no_loops (G : Graph) :
  (∀ e, e ∈ edges G → e.1 ≠ e.2) → odd_by_ends G = odd_by_edges G.
Proof.
  intros Hloops. unfold odd_by_ends, odd_by_edges.
  apply list_filter_iff. intros n. by rewrite incident_ends_no_loops.
Qed.

Lemma analyze_structure_Ok fs cnn cutoff_distance filepath s :
  fs filepath = Parses s →
  ∃ results,
    analyze_structure fs cnn cutoff_distance filepath = Ok results
    ∧ r_structure results = s
    ∧ odd_vertices results
      = odd_by_ends (build_connectivity_graph cnn cutoff_distance s)
    ∧ K_parity results = length (odd_vertices results)
    ∧ passes_parity_test results = bool_decide (K_parity results = 0%nat).
Proof.
  intros Hfs. unfold analyze_structure, load_structure. rewrite Hfs.
  destruct (calculate_parity_odd_by_ends
              (build_connectivity_graph cnn cutoff_distance s)
              (build_connectivity_graph_wf cnn cutoff_distance s)) as [stats Hcalc].
  cbn. rewrite Hcalc. cbn. eexists. split; [reflexivity |]. done.
Qed.

End parity_facts.

(** C3: for every graph as networkx keeps it, [calculate_parity]
    returns the list of the nodes of odd degree, in node order, and K
    is the length of that list, where the degree of a node is the
    number of edge ends at it, a self-loop counting twice.  On a graph
    without self-loops this is the number of edges at the node.  For a
    file that parses, [analyze_structure] returns a result that reports
    this list and this K for the connectivity graph and that passes the
    parity test exactly when K is 0. *)
Theorem calculate_parity_counts_odd_degree
    (G : ParityCheck.Graph)
    (fs : string → structure_file) (cnn : NNOracle) (cutoff_distance : R)
    (filepath : string) :
  ParityCheck.wf_graph G →
  (∃ stats,
     ParityCheck.calculate_parity G
     = Ok (length (ParityCheck.odd_by_ends G), ParityCheck.odd_by_ends G, stats))
  ∧ ((∀ e, e ∈ ParityCheck.edges G → e.1 ≠ e.2) →
     ∃ stats,
       ParityCheck.calculate_parity G
       = Ok (length (ParityCheck.odd_by_edges G), ParityCheck.odd_by_edges G, stats))
  ∧ (∀ s, fs filepath = Parses s →
       ∃ results,
         ParityCheck.analyze_structure fs cnn cutoff_distance filepath = Ok results
         ∧ ParityCheck.odd_vertices results
           = ParityCheck.odd_by_ends
               (ParityCheck.build_connectivity_graph cnn cutoff_distance s)
         ∧ ParityCheck.K_parity results = length (ParityCheck.odd_vertices results)
         ∧ (ParityCheck.passes_parity_test results = true
            ↔ ParityCheck.K_parity results = 0%nat)).
Proof.
  intros HG. split; [| split].
  - by apply calculate_parity_odd_by_ends.
  - intros Hloops. rewrite <- (odd_by_ends_no_loops G Hloops).
    by apply calculate_parity_odd_by_ends.
  - intros s Hfs.
    destruct (analyze_structure_Ok fs cnn cutoff_distance filepath s Hfs)
      as (results & Hrun & _ & Hodd & HK & Hpass).
    exists results. split; [done |]. split; [done |]. split; [done |].
    rewrite Hpass. apply bool_decide_eq_true.
Qed.

(** C3 on the chain 0 - 1 - 2, whose two end atoms have degree 1, and
    on the file of the cell Li-N-H, which gives the same chain. *)
Lemma calculate_parity_counts_odd_degree_chain3 :
  ParityCheck.wf_graph Examples.chain3
  ∧ (∃ stats,
       ParityCheck.calculate_parity Examples.chain3 = Ok (2%nat, [0; 2]%nat, stats))
  ∧ ∃ results,
      ParityCheck.analyze_structure Examples.structures Examples.LiNH_cnn 3.5 "LiNH.cif"
      = Ok results.
Proof.
  assert (ParityCheck.wf_graph Examples.chain3) as Hwf.
  { do 2 apply wf_add_edge. do 3 apply wf_add_node. apply wf_empty_graph. }
  split; [exact Hwf |].
  destruct (calculate_parity_counts_odd_degree Examples.chain3
              Examples.structures Examples.LiNH_cnn 3.5 "LiNH.cif" Hwf)
    as ([stats Hcalc] & _ & Hrun).
  split.
  - exists stats. rewrite Hcalc. reflexivity.
  - destruct (Hrun Examples.LiNH eq_refl) as (results & Hresults & _).
    by exists results.
Defined.

(** The graph of the cell Li-N-H: the chain Li - N - H. *)
Lemma build_connectivity_graph_LiNH :
  ParityCheck.build_connectivity_graph Examples.LiNH_cnn 3.5 Examples.LiNH
  = [ (0, [(1, 2%R)]); (1, [(0, 2%R); (2, 1%R)]); (2, [(1, 1%R)]) ]%nat.
Proof.
  unfold ParityCheck.build_connectivity_graph, ParityCheck.visit_site,
    ParityCheck.visit_neighbor.
  cbn.
  repeat (match goal with
          | |- context [decide (?a <= ?b)%R] =>
              destruct (decide (a <= b)%R); [| exfalso; lra]
          end; cbn).
  reflexivity.
Qed.

(** The graph of the one-atom cell: one node with a self-loop. *)
Lemma build_connectivity_graph_Fe1 :
  ParityCheck.build_connectivity_graph Examples.Fe1_cnn 3.5 Examples.Fe1
  = [(0%nat, [(0%nat, 2.5%R)])].
Proof.
  unfold ParityCheck.build_connectivity_graph, ParityCheck.visit_site,
    ParityCheck.visit_neighbor.
  cbn.
  repeat (match goal with
          | |- context [decide (?a <= ?b)%R] =>
              destruct (decide (a <= b)%R); [| exfalso; lra]
          end; cbn).
  reflexivity.
Qed.

(** C3 as stated, with the degree read as the number of incident edges,
    fails on the graph of a one-atom cell: its node has one incident
    edge, the self-loop, which is an odd number, but networkx gives the
    node degree 2 and [calculate_parity] returns K = 0 and no odd node. *)
Lemma calculate_parity_self_loop_Fe1 :
  let G := ParityCheck.build_connectivity_graph Examples.Fe1_cnn 3.5 Examples.Fe1 in
  ParityCheck.odd_by_edges G = [0%nat]
  ∧ (∃ stats, ParityCheck.calculate_parity G = Ok (0%nat, [], stats))
  ∧ ¬ (∃ stats,
         ParityCheck.calculate_parity G
         = Ok (length (ParityCheck.odd_by_edges G), ParityCheck.odd_by_edges G, stats)).
Proof.
  cbn zeta. rewrite build_connectivity_graph_Fe1.
  split; [reflexivity |]. split; [eexists; reflexivity |].
  intros [stats Hcalc]. discriminate Hcalc.
Qed.

(** C6: on the empty graph [calculate_parity] returns, with K = 0, no
    odd node, and statistics whose minimum, maximum and mean degree are
    0.  The list of degrees is empty there, and [min] and [max] of an
    empty list raise [ValueError] ([np.mean] gives [nan]): it is the
    guard [if degree_values else 0] that makes the call return.  With
    the guards, [calculate_parity] raises on no graph at all. *)
Theorem calculate_parity_empty_graph :
  ParityCheck.calculate_parity ParityCheck.empty_graph
  = Ok (0%nat, [],
        {| ParityCheck.total_vertices := 0;
           ParityCheck.total_edges := 0;
           ParityCheck.min_degree := 0;
           ParityCheck.max_degree := 0;
           ParityCheck.avg_degree := Some 0%Q;
           ParityCheck.odd_degree_count := 0;
           ParityCheck.even_degree_count := 0 |})
  ∧ (py_min (ParityCheck.degree ParityCheck.empty_graph).*2 = Raise ValueError
     ∧ py_max (ParityCheck.degree ParityCheck.empty_graph).*2 = Raise ValueError
     ∧ np_mean (ParityCheck.degree ParityCheck.empty_graph).*2 = None)
  ∧ ∀ G, ∃ K odd stats, ParityCheck.calculate_parity G = Ok (K, odd, stats).
Proof.
  split; [reflexivity |]. split; [by repeat split |].
  intros G. destruct (calculate_parity_Ok G) as (stats & Hcalc & _).
  by eexists _, _, stats.
Qed.

(** * The phonon-energy estimator *)

Section estimator_facts.
Import BondQuantum.
Open Scope R_scope.

Lemma HBAR_pos : 0 < HBAR.
Proof. unfold HBAR. lra. Qed.

(** The estimate as one formula, where the estimator returns a number:
    the distance is not zero and the reduced mass is positive. *)
Lemma estimate_phonon_energy_eq d m :
  d ≠ 0 → 0 < m →
  estimate_phonon_energy d m
  = Ok (Finite (HBAR * sqrt (100 / d ^ 2 / (m * 1.036427e-4)) / PI * 1000 / 1000)).
Proof.
  intros Hd Hm. unfold estimate_phonon_energy, py_div.
  assert (d ^ 2 ≠ 0) as Hsq by by apply pow_nonzero.
  assert (0 < d ^ 2) as Hpos by (rewrite <- Rsqr_pow2; by apply Rsqr_pos_lt).
  rewrite decide_False by done. cbn [mbind result_bind].
  rewrite decide_False by lra. cbn [mbind result_bind mret result_ret].
  unfold np_sqrt. rewrite decide_False; [done |].
  apply Rle_not_lt. unfold Rdiv.
  assert (0 < / d ^ 2) by by apply Rinv_0_lt_compat.
  assert (0 < / (m * 1.036427e-4)) by (apply Rinv_0_lt_compat; lra).
  apply Rmult_le_pos; [| lra]. apply Rmult_le_pos; lra.
Qed.

(** The two divisions raise on a zero divisor. *)
Lemma estimate_phonon_energy_zero d m :
  d = 0 ∨ m = 0 → estimate_phonon_energy d m = Raise ZeroDivisionError.
Proof.
  intros Hzero. unfold estimate_phonon_energy, py_div.
  destruct (decide (d ^ 2 = 0)) as [Hsq|Hsq]; [done |].
  cbn [mbind result_bind].
  destruct Hzero as [->| ->]; [exfalso; apply Hsq; lra |].
  by rewrite decide_True by lra.
Qed.

(** With both divisors different from zero the estimator returns. *)
Lemma estimate_phonon_energy_returns d m :
  d ≠ 0 → m ≠ 0 → ∃ e, estimate_phonon_energy d m = Ok e.
Proof.
  intros Hd Hm. unfold estimate_phonon_energy, py_div.
  rewrite decide_False by by apply pow_nonzero. cbn [mbind result_bind].
  rewrite decide_False by lra. cbn [mbind result_bind mret result_ret].
  by eexists.
Qed.

(** It raises nothing else, and only then. *)
Lemma estimate_phonon_energy_Raise d m e :
  estimate_phonon_energy d m = Raise e → e = ZeroDivisionError ∧ (d = 0 ∨ m = 0).
Proof.
  intros Hraise.
  destruct (decide (d = 0)) as [Hd|Hd].
  { rewrite estimate_phonon_energy_zero in Hraise by by left.
    injection Hraise as <-. split; [done | by left]. }
  destruct (decide (m = 0)) as [Hm|Hm].
  { rewrite estimate_phonon_energy_zero in Hraise by by right.
    injection Hraise as <-. split; [done | by right]. }
  destruct (estimate_phonon_energy_returns d m Hd Hm) as [e' He'].
  by rewrite He' in Hraise.
Qed.


(** ** The loop that adds the energies *)

Lemma with_energy_Ok b b' :
  with_energy b = Ok b' →
  bond b' = b
  ∧ estimate_phonon_energy (distance b) (reduced_mass b) = Ok (phonon_energy_eV b')
  ∧ phonon_energy_meV b' = float_map (λ e, e * 1000) (phonon_energy_eV b').
Proof.
  unfold with_energy.
  destruct (estimate_phonon_energy (distance b) (reduced_mass b)) as [e|]; [| done].
  by intros [= <-].
Qed.

Lemma with_energy_Raise b e :
  with_energy b = Raise e →
  e = ZeroDivisionError ∧ (distance b = 0 ∨ reduced_mass b = 0).
Proof.
  unfold with_energy.
  destruct (estimate_phonon_energy (distance b) (reduced_mass b)) as [e'|e'] eqn:Hest;
    [done |].
  intros [= <-]. by apply estimate_phonon_energy_Raise in Hest.
Qed.

Lemma add_energies_Ok light_bonds analysed :
  add_energies light_bonds = Ok analysed →
  Forall2 (λ b b', with_energy b = Ok b') light_bonds analysed.
Proof.
  revert analysed. induction light_bonds as [|b rest IH]; intros analysed; simpl.
  - intros [= <-]. constructor.
  - destruct (with_energy b) as [b'|] eqn:Hb; [| done]. cbn [mbind result_bind].
    destruct (add_energies rest) as [rest'|]; [| done].
    intros [= <-]. constructor; [done | by apply IH].
Qed.

Lemma add_energies_Raise light_bonds e :
  add_energies light_bonds = Raise e →
  e = ZeroDivisionError
  ∧ ∃ b, b ∈ light_bonds ∧ (distance b = 0 ∨ reduced_mass b = 0).
Proof.
  induction light_bonds as [|b rest IH]; simpl; [done |].
  destruct (with_energy b) as [b'|e'] eqn:Hb; cbn [mbind result_bind].
  - destruct (add_energies rest) as [rest'|e'']; [done |].
    intros [= <-]. destruct (IH eq_refl) as (-> & b0 & Hin & Hzero).
    split; [done |]. exists b0. split; [by right | done].
  - intros [= <-]. apply with_energy_Raise in Hb as [-> Hzero].
    split; [done |]. exists b. split; [by left | done].
Qed.


Lemma add_energies_raises light_bonds b :
  b ∈ light_bonds → distance b = 0 ∨ reduced_mass b = 0 →
  add_energies light_bonds = Raise ZeroDivisionError.
Proof.
  intros Hin Hzero.
  destruct (add_energies light_bonds) as [analysed|e] eqn:Hadd.
  - apply add_energies_Ok in Hadd.
    apply list_elem_of_lookup in Hin as [i Hi].
    destruct (Forall2_lookup_l _ _ _ _ _ Hadd Hi) as (b' & _ & Hb').
    unfold with_energy in Hb'.
    by rewrite estimate_phonon_energy_zero in Hb'.
  - by apply add_energies_Raise in Hadd as [-> _].
Qed.

(** The analysed bonds are the bonds, in the same order. *)
Lemma add_energies_bonds light_bonds analysed :
  add_energies light_bonds = Ok analysed → bond <$> analysed = light_bonds.
Proof.
  intros Hadd%add_energies_Ok.
  induction Hadd as [|b b' l l' Hb _ IH]; [done |].
  rewrite fmap_cons, IH. by apply with_energy_Ok in Hb as [-> _].
Qed.

Lemma add_energies_elem light_bonds analysed b' :
  add_energies light_bonds = Ok analysed → b' ∈ analysed →
  ∃ b, b ∈ light_bonds ∧ with_energy b = Ok b'.
Proof.
  intros Hadd%add_energies_Ok Hin.
  apply list_elem_of_lookup in Hin as [i Hi].
  destruct (Forall2_lookup_r _ _ _ _ _ Hadd Hi) as (b & Hb & Hwith).
  exists b. split; [by eapply list_elem_of_lookup_2 | done].
Qed.



End estimator_facts.




(** * The bond-quantum analysis *)

Section analysis_facts.
Import BondQuantum.
Open Scope R_scope.

Lemma insert_by_distance_Permutation b l : insert_by_distance b l ≡ₚ b :: l.
Proof.
  induction l as [|c l IH]; simpl; [done |].
  case_decide; [done |]. rewrite IH. apply Permutation_swap.
Qed.

Lemma sort_by_distance_Permutation l : sort_by_distance l ≡ₚ l.
Proof.
  induction l as [|b l IH]; simpl; [done |].
  rewrite insert_by_distance_Permutation. by f_equiv.
Qed.



(** [max] returns one of the items. *)
Lemma py_max_float_elem x l : py_max_float x l ∈ x :: l.
Proof.
  unfold py_max_float. revert x. induction l as [|z l IH]; intros x; simpl; [by left |].
  specialize (IH (if float_lt x z then z else x)).
  apply elem_of_cons in IH as [->|Hin]; [| right; by right].
  destruct (float_lt x z); [right; by left | by left].
Qed.

(** Over numbers it returns the greatest of them. *)
Lemma py_max_float_spec x l :
  py_max_float (Finite x) (Finite <$> l) = Finite (foldl Rmax x l).
Proof.
  unfold py_max_float. revert x. induction l as [|z l IH]; intros x; [done |].
  rewrite fmap_cons. cbn [foldl float_lt]. case_bool_decide as Hxz.
  - rewrite IH. do 2 f_equal. unfold Rmax. destruct (Rle_dec x z); lra.
  - rewrite IH. do 2 f_equal. unfold Rmax. destruct (Rle_dec x z); lra.
Qed.

Lemma foldl_Rmax_spec x l :
  foldl Rmax x l ∈ x :: l ∧ ∀ y, y ∈ x :: l → y <= foldl Rmax x l.
Proof.
  revert x. induction l as [|z l IH]; intros x; simpl.
  - split; [by left |]. intros y ->%list_elem_of_singleton. lra.
  - destruct (IH (Rmax x z)) as [Hin Hmax].
    split.
    + apply elem_of_cons in Hin as [->|Hin]; [| right; by right].
      unfold Rmax. destruct (Rle_dec x z); [right; by left | by left].
    + intros y [->|[->|Hy]%elem_of_cons]%elem_of_cons.
      * etransitivity; [| apply Hmax; by left]. apply Rmax_l.
      * etransitivity; [| apply Hmax; by left]. apply Rmax_r.
      * apply Hmax. by right.
Qed.

(** A list of floats none of which is [nan] is a list of numbers. *)
Lemma finite_list (l : list pyfloat) :
  (∀ a, a ∈ l → ∃ x, a = Finite x) → ∃ xs, l = Finite <$> xs.
Proof.
  induction l as [|a l IH]; intros Hfin; [by exists [] |].
  destruct (Hfin a) as [x ->]; [by left |].
  destruct IH as [xs ->]; [intros a Ha; apply Hfin; by right |].
  by exists (x :: xs).
Qed.

Lemma py_max_float_finite x l :
  (∀ a, a ∈ x :: l → ∃ y, a = Finite y) →
  ∃ m, py_max_float x l = Finite m
       ∧ Finite m ∈ x :: l
       ∧ ∀ y, Finite y ∈ x :: l → y <= m.
Proof.
  intros Hfin. destruct (finite_list (x :: l) Hfin) as [[|x' xs] Heq]; [done |].
  rewrite fmap_cons in Heq. injection Heq as -> ->.
  rewrite py_max_float_spec. destruct (foldl_Rmax_spec x' xs) as [Hin Hmax].
  eexists. split; [done |]. split.
  - rewrite <- fmap_cons. by apply list_elem_of_fmap_2.
  - intros y Hy. apply Hmax. rewrite <- fmap_cons in Hy.
    apply list_elem_of_fmap in Hy as (y' & [= ->] & Hy'). done.
Qed.

(** [a >= t] stays true when [t] gets smaller. *)
Lemma float_ge_mono a t t' : t' <= t → float_ge a t = true → float_ge a t' = true.
Proof.
  intros Ht. destruct a as [x|]; [| done]. cbn.
  rewrite !bool_decide_eq_true. lra.
Qed.

Lemma analyze_structure_with_bonds
    fs cnn atomic_mass threshold_energy filepath s analysed :
  fs filepath = Parses s →
  find_light_atom_bonds cnn atomic_mass s ≠ [] →
  add_energies (find_light_atom_bonds cnn atomic_mass s) = Ok analysed →
  ∃ shortest_bond others,
    sort_by_distance analysed = shortest_bond :: others
    ∧ analyze_structure fs cnn atomic_mass threshold_energy filepath
      = Ok (report filepath s threshold_energy shortest_bond others).
Proof.
  intros Hfs Hbonds Hadd. unfold analyze_structure, load_structure. rewrite Hfs.
  cbn [mbind result_bind].
  destruct (find_light_atom_bonds cnn atomic_mass s) as [|b bs] eqn:Hfound; [done |].
  rewrite Hadd. cbn [mbind result_bind].
  destruct (sort_by_distance analysed) as [|shortest others] eqn:Hsort.
  - pose proof (sort_by_distance_Permutation analysed) as Hperm.
    rewrite Hsort in Hperm. apply Permutation_nil_l in Hperm. subst analysed.
    apply add_energies_bonds in Hadd. done.
  - by exists shortest, others.
Qed.

(** An exception of the estimator leaves [analyze_structure]. *)
Lemma analyze_structure_raises fs cnn atomic_mass threshold_energy filepath s e :
  fs filepath = Parses s →
  add_energies (find_light_atom_bonds cnn atomic_mass s) = Raise e →
  analyze_structure fs cnn atomic_mass threshold_energy filepath = Raise e.
Proof.
  intros Hfs Hadd. unfold analyze_structure, load_structure. rewrite Hfs.
  cbn [mbind result_bind].
  destruct (find_light_atom_bonds cnn atomic_mass s) as [|b bs] eqn:Hfound; [done |].
  by rewrite Hadd.
Qed.

Lemma main_with_report fs cnn atomic_mass threshold_energy filepath s shortest others quiet :
  analyze_structure fs cnn atomic_mass threshold_energy filepath
    = Ok (report filepath s threshold_energy shortest others) →
  main fs cnn atomic_mass filepath (Some threshold_energy) quiet
  = if float_ge (py_max_float (phonon_energy_eV shortest) (phonon_energy_eV <$> others))
                threshold_energy
    then 0%Z else 1%Z.
Proof.
  intros Hrun. unfold main.
  change (default default_threshold (Some threshold_energy)) with threshold_energy.
  rewrite Hrun. destruct quiet; reflexivity.
Qed.

Lemma main_raises fs cnn atomic_mass threshold filepath quiet e :
  analyze_structure fs cnn atomic_mass (default default_threshold threshold) filepath
    = Raise e →
  main fs cnn atomic_mass filepath threshold quiet = 2%Z.
Proof. intros Hrun. unfold main. by rewrite Hrun. Qed.

(** The bonds of the cell Li-N-H have distances 2 and 1 and positive
    reduced masses. *)
Lemma LiNH_bonds_regular b :
  b ∈ find_light_atom_bonds Examples.LiNH_cnn Examples.masses Examples.LiNH →
  distance b ≠ 0 ∧ 0 < reduced_mass b.
Proof.
  intros Hb. change (b ∈ [Examples.LiNH_bond_LiN; Examples.LiNH_bond_NH]) in Hb.
  apply elem_of_cons in Hb as [->|[->|Hb%elem_of_nil]%elem_of_cons]; [| | done].
  - split; [simpl; lra |]. simpl.
    unfold _calculate_reduced_mass, Examples.masses. simpl.
    case_decide; [lra |]. apply Rdiv_lt_0_compat; lra.
  - split; [simpl; lra |]. simpl.
    unfold _calculate_reduced_mass, Examples.masses. simpl.
    case_decide; [lra |]. apply Rdiv_lt_0_compat; lra.
Qed.

Lemma LiNH_bonds_nonzero b :
  b ∈ find_light_atom_bonds Examples.LiNH_cnn Examples.masses Examples.LiNH →
  distance b ≠ 0 ∧ reduced_mass b ≠ 0.
Proof. intros [Hd Hm]%LiNH_bonds_regular. split; [done | lra]. Qed.

End analysis_facts.




(** * The bond-quantum analysis without bonds *)

Section no_bond_facts.
Import BondQuantum.

Lemma analyze_structure_without_bonds fs cnn atomic_mass threshold_energy filepath s :
  fs filepath = Parses s →
  find_light_atom_bonds cnn atomic_mass s = [] →
  analyze_structure fs cnn atomic_mass threshold_energy filepath
  = Ok (empty_report filepath s).
Proof.
  intros Hfs Hbonds. unfold analyze_structure, load_structure. rewrite Hfs.
  unfold mbind, result_bind. by rewrite Hbonds.
Qed.

(** The short-circuit dictionary is a fail verdict with energy 0, and it
    has no [threshold_meV] entry. *)
Lemma empty_report_entries filepath s :
  empty_report filepath s !! "passes_energy_test" = Some (VBool false)
  ∧ empty_report filepath s !! "phonon_energy_eV" = Some (VInt 0)
  ∧ empty_report filepath s !! "phonon_energy_meV" = Some (VInt 0)
  ∧ empty_report filepath s !! "light_bonds" = Some (VBonds [])
  ∧ empty_report filepath s !! "threshold_meV" = None.
Proof. repeat split; reflexivity. Qed.

(** Both reports read [threshold_meV], which the short-circuit
    dictionary lacks. *)
Lemma print_empty_report filepath s :
  print_results (empty_report filepath s) = Raise (KeyError "threshold_meV")
  ∧ print_quiet (empty_report filepath s) = Raise (KeyError "threshold_meV").
Proof. split; reflexivity. Qed.

Lemma main_without_bonds fs cnn atomic_mass filepath s threshold quiet :
  fs filepath = Parses s →
  find_light_atom_bonds cnn atomic_mass s = [] →
  main fs cnn atomic_mass filepath threshold quiet = 2%Z.
Proof.
  intros Hfs Hbonds. unfold main.
  rewrite (analyze_structure_without_bonds _ _ _ _ _ _ Hfs Hbonds).
  destruct quiet; reflexivity.
Qed.

End no_bond_facts.

(** C1 on a cell of two iron atoms, which has no light atom: the
    selector finds no bond and the analysis short-circuits to a fail
    verdict with phonon energy 0, as the claim says.  The dictionary it
    returns has no [threshold_meV] entry, both reports of [main] read
    that entry, and the [KeyError] is caught by [except Exception]: the
    exit code is 2, with or without [--quiet], where the claim says 1. *)
Theorem bond_quantum_no_light_atoms_exit_code :
  BondQuantum.find_light_atom_bonds Examples.Fe2_cnn Examples.masses Examples.Fe2 = []
  ∧ (∃ results,
       BondQuantum.analyze_structure Examples.structures Examples.Fe2_cnn
         Examples.masses BondQuantum.default_threshold "Fe2.cif" = Ok results
       ∧ results !! "passes_energy_test" = Some (BondQuantum.VBool false)
       ∧ results !! "phonon_energy_eV" = Some (BondQuantum.VInt 0)
       ∧ results !! "phonon_energy_meV" = Some (BondQuantum.VInt 0)
       ∧ results !! "threshold_meV" = None
       ∧ BondQuantum.print_results results = Raise (KeyError "threshold_meV")
       ∧ BondQuantum.print_quiet results = Raise (KeyError "threshold_meV"))
  ∧ (∀ quiet,
       BondQuantum.main Examples.structures Examples.Fe2_cnn Examples.masses
         "Fe2.cif" None quiet = 2%Z).
Proof.
  assert (BondQuantum.find_light_atom_bonds
            Examples.Fe2_cnn Examples.masses Examples.Fe2 = []) as Hbonds
    by reflexivity.
  split; [exact Hbonds |]. split.
  - exists (BondQuantum.empty_report "Fe2.cif" Examples.Fe2).
    split; [by apply analyze_structure_without_bonds |].
    destruct (empty_report_entries "Fe2.cif" Examples.Fe2) as (? & ? & ? & _ & ?).
    destruct (print_empty_report "Fe2.cif" Examples.Fe2) as [? ?].
    repeat split; assumption.
  - intros quiet. by apply main_without_bonds with (s := Examples.Fe2).
Qed.

(** * The phonon-stability checker *)

Section stability_facts.
Import PhononStability.

Variable fs : string → file.

Lemma scan_lines_no_match lines freqs :
  (∀ line, line ∈ lines → FREQ_REGEX_search line = None) →
  scan_lines lines freqs = Ok freqs.
Proof.
  revert freqs. induction lines as [|line rest IH]; intros freqs Hnone; simpl; [done |].
  rewrite (Hnone line) by by left. apply IH. intros l Hl. apply Hnone. by right.
Qed.

Lemma scan_lines_raises lines freqs e :
  scan_lines lines freqs = Raise e → e = RuntimeError.
Proof.
  revert freqs. induction lines as [|line rest IH]; intros freqs; simpl; [done |].
  destruct (FREQ_REGEX_search line) as [group|]; [| apply IH].
  destruct (float_of_string group); [apply IH | by intros [= <-]].
Qed.

(** [parse_frequencies] raises nothing but [RuntimeError]. *)
Lemma parse_frequencies_raises path e :
  parse_frequencies fs path = Raise e → e = RuntimeError.
Proof.
  unfold parse_frequencies. destruct (fs path) as [| |lines]; try by intros [= <-].
  destruct (scan_lines lines []) as [freqs|e'] eqn:Hscan; simpl.
  - destruct freqs; [by intros [= <-] | done].
  - intros [= <-]. by eapply scan_lines_raises.
Qed.

Lemma accumulate_raises files e :
  accumulate fs files = Raise e → e = RuntimeError.
Proof.
  induction files as [|f rest IH]; simpl; [done |].
  destruct (parse_frequencies fs f) as [freqs|e'] eqn:Hparse; simpl.
  - destruct (accumulate fs rest); simpl; [done |]. intros [= <-]. by apply IH.
  - intros [= <-]. by eapply parse_frequencies_raises.
Qed.

(** The loop of [analyse_files] adds the lengths and the counts of
    negative frequencies of all the files to its counters. *)
Lemma analyse_loop_accumulate files total imag min_freq :
  match accumulate fs files with
  | Ok all =>
      ∃ min_freq',
        analyse_loop fs files total imag min_freq
        = Ok ((total + length all)%nat,
              (imag + length (filter (λ w, is_negative w = true) all))%nat,
              min_freq')
  | Raise e => analyse_loop fs files total imag min_freq = Raise e
  end.
Proof.
  revert total imag min_freq.
  induction files as [|f rest IH]; intros total imag min_freq; simpl.
  - exists min_freq. by rewrite !Nat.add_0_r.
  - destruct (parse_frequencies fs f) as [freqs|e]; simpl; [| done].
    specialize (IH (total + length freqs)%nat
                   (imag + length (filter (λ w, is_negative w = true) freqs))%nat
                   (Qminimum min_freq (min_list_Q freqs))).
    destruct (accumulate fs rest) as [more|e]; simpl; [| done].
    destruct IH as [min_freq' ->]. exists min_freq'.
    by rewrite filter_app, !length_app, !Nat.add_assoc.
Qed.

Lemma no_negative_count (all : list Q) :
  length (filter (λ w, is_negative w = true) all) = 0%nat
  ↔ forallb (λ w, negb (is_negative w)) all = true.
Proof.
  induction all as [|w all IH]; [done |].
  rewrite filter_cons. cbn [forallb]. destruct (is_negative w) eqn:Hw.
  - rewrite decide_True by done. simpl. split; [lia | done].
  - rewrite decide_False by done. simpl. apply IH.
Qed.

(** The exit code of [main] in terms of the accumulated frequencies. *)
Lemma main_exit_code args :
  main fs args
  = match args with
    | [] => 2%Z
    | _ :: _ =>
        if forallb (λ p, exists_ (fs p)) args then
          match accumulate fs args with
          | Ok all => if forallb (λ w, negb (is_negative w)) all then 0%Z else 1%Z
          | Raise _ => 2%Z
          end
        else 2%Z
    end.
Proof.
  unfold main. destruct args as [|p args]; [done |].
  destruct (forallb _ (p :: args)); [| done].
  unfold analyse_files.
  pose proof (analyse_loop_accumulate (p :: args) 0 0 (1000000000 # 1)%Q) as Hloop.
  destruct (accumulate fs (p :: args)) as [all|e] eqn:Hacc.
  - destruct Hloop as [min_freq' ->]. rewrite Nat.add_0_l.
    pose proof (no_negative_count all) as Hcount.
    destruct (forallb (λ w, negb (is_negative w)) all).
    + rewrite decide_True; [done | by apply Hcount].
    + rewrite decide_False; [done |]. intros Hz. by apply Hcount in Hz.
  - rewrite Hloop. by rewrite (accumulate_raises _ _ Hacc).
Qed.

Lemma accumulate_raises_at files path :
  path ∈ files → parse_frequencies fs path = Raise RuntimeError →
  accumulate fs files = Raise RuntimeError.
Proof.
  intros Hin Hraise. induction files as [|f rest IH]; [by apply elem_of_nil in Hin |].
  simpl. destruct (parse_frequencies fs f) as [freqs|e] eqn:Hparse; simpl.
  - apply elem_of_cons in Hin as [->|Hin]; [congruence |].
    by rewrite (IH Hin).
  - by rewrite (parse_frequencies_raises _ _ Hparse).
Qed.

End stability_facts.

(** C10: when a file given to the checker exists and can be read but
    none of its lines matches the frequency pattern, [parse_frequencies]
    raises ([RuntimeError], "No frequencies found") and the process
    exits with code 2, whatever the other files hold. *)
Theorem parse_frequencies_no_match_exit_2
    (fs : string → PhononStability.file) (args : list string)
    (path : string) (lines : list string) :
  path ∈ args →
  fs path = PhononStability.Lines lines →
  (∀ line, line ∈ lines → PhononStability.FREQ_REGEX_search line = None) →
  PhononStability.parse_frequencies fs path = Raise RuntimeError
  ∧ PhononStability.main fs args = 2%Z.
Proof.
  intros Hin Hfs Hnone.
  assert (PhononStability.parse_frequencies fs path = Raise RuntimeError) as Hraise.
  { unfold PhononStability.parse_frequencies. rewrite Hfs.
    by rewrite (scan_lines_no_match lines [] Hnone). }
  split; [exact Hraise |].
  rewrite main_exit_code. destruct args as [|p args]; [done |].
  destruct (forallb _ (p :: args)); [| done].
  by rewrite (accumulate_raises_at fs (p :: args) path Hin Hraise).
Qed.

(** C10 on a file that holds a header and nothing else, given after a
    file with stable modes. *)
Lemma parse_frequencies_no_match_exit_2_header :
  PhononStability.parse_frequencies Examples.phonon_files "header.dyn0"
    = Raise RuntimeError
  ∧ PhononStability.main Examples.phonon_files ["stable.dyn0"; "header.dyn0"] = 2%Z.
Proof.
  apply (parse_frequencies_no_match_exit_2 Examples.phonon_files
           ["stable.dyn0"; "header.dyn0"] "header.dyn0" Examples.header_only).
  - right. left.
  - reflexivity.
  - intros line Hline.
    apply list_elem_of_In in Hline. simpl in Hline.
    destruct Hline as [<-|[<-|[]]]; reflexivity.
Defined.

(** C8 on the [dyn0] file the mock generator of the repository writes,
    with a blank between [)] and [=]: its first mode is negative, so the
    claim gives exit code 1.  The pattern of the checker wants [=] right
    after [)]; no line matches, the file counts as a parse failure and
    the exit code is 2.  With the blank removed the same modes are
    found, and the exit codes are the claimed ones: 1 with the negative
    mode, 0 without, 2 for a missing file. *)
Theorem check_phonon_stability_mock_output :
  PhononStability.FREQ_REGEX_search "    freq(   1) =    -16.678000 [cm-1]" = None
  ∧ PhononStability.main Examples.phonon_files ["mock.dyn0"] = 2%Z
  ∧ PhononStability.FREQ_REGEX_search "    freq(   1)=    -16.678000 [cm-1]"
    = Some "-16.678000"
  ∧ PhononStability.main Examples.phonon_files ["tight.dyn0"] = 1%Z
  ∧ PhononStability.main Examples.phonon_files ["stable.dyn0"] = 0%Z
  ∧ PhononStability.main Examples.phonon_files ["stable.dyn0"; "tight.dyn0"] = 1%Z
  ∧ PhononStability.main Examples.phonon_files ["stable.dyn0"; "absent.dyn0"] = 2%Z.
Proof. repeat split; reflexivity. Qed.

(** * Further properties of the parity checker *)

Section handshake_facts.
Import ParityCheck.

Lemma sum_list_with_add {A} (f g : A → nat) (l : list A) :
  sum_list_with (λ x, f x + g x)%nat l = (sum_list_with f l + sum_list_with g l)%nat.
Proof. induction l as [|x l IH]; simpl; [done | rewrite IH; lia]. Qed.

Lemma sum_list_with_ext {A} (f g : A → nat) (l : list A) :
  (∀ x, x ∈ l → f x = g x) → sum_list_with f l = sum_list_with g l.
Proof.
  induction l as [|x l IH]; intros Heq; simpl; [done |].
  rewrite (Heq x) by by left. rewrite IH; [done |].
  intros y Hy. apply Heq. by right.
Qed.

(** A node of a list without repetition is counted once. *)
Lemma sum_list_with_indicator (ns : list nat) u :
  NoDup ns → u ∈ ns →
  sum_list_with (λ n, if decide (u = n) then 1 else 0)%nat ns = 1%nat.
Proof.
  induction ns as [|n ns IH]; intros Hnd Hu; [by apply elem_of_nil in Hu |].
  apply NoDup_cons in Hnd as [Hn Hnd]. simpl.
  destruct (decide (u = n)) as [->|Hne].
  - rewrite (sum_list_with_ext _ (λ _, 0%nat)).
    + clear. induction ns; simpl; [done | lia].
    + intros x Hx. rewrite decide_False; [done | by intros ->].
  - apply elem_of_cons in Hu as [?|Hu]; [done |]. by rewrite IH.
Qed.

(** Summed over the nodes, every edge whose end points are nodes
    contributes its two ends. *)
Lemma sum_incident_ends (ns : list nat) (es : list (nat * nat)) :
  NoDup ns → (∀ e, e ∈ es → e.1 ∈ ns ∧ e.2 ∈ ns) →
  sum_list_with (incident_ends es) ns = (2 * length es)%nat.
Proof.
  intros Hnd. induction es as [|[u v] es IH]; intros Hends.
  - unfold incident_ends. simpl. clear. induction ns; simpl; [done | lia].
  - destruct (Hends (u, v)) as [Hu Hv]; [by left |]. simpl in Hu, Hv.
    rewrite (sum_list_with_ext _
               (λ n, ends_at n (u, v) + incident_ends es n)%nat) by done.
    rewrite sum_list_with_add, IH.
    2:{ intros e He. apply Hends. by right. }
    unfold ends_at. simpl. rewrite sum_list_with_add.
    rewrite !sum_list_with_indicator by done. simpl. lia.
Qed.

Lemma edges_ends_are_nodes (G : Graph) e :
  wf_graph G → e ∈ edges G → e.1 ∈ nodes G ∧ e.2 ∈ nodes G.
Proof.
  intros HG He. destruct e as [u v].
  pose proof (edges_adjacent G u v HG He) as Huv.
  destruct HG as (_ & _ & Hsym). split; simpl.
  - by eapply adjacent_node.
  - eapply adjacent_node. by apply Hsym.
Qed.

Lemma sum_degrees_incident_ends (G l : Graph) :
  wf_graph G → (∀ x, x ∈ l → x ∈ G) →
  sum_list (degree l).*2 = sum_list_with (incident_ends (edges G)) (nodes l).
Proof.
  intros HG. unfold degree, nodes.
  induction l as [|[n nbrs] l IH]; intros Hsub; [done |].
  rewrite !fmap_cons. cbn [fst snd sum_list_with].
  rewrite (degree_of_incident_ends G n nbrs HG) by (apply Hsub; by left).
  unfold Datatypes.id. f_equal. apply IH. intros x Hx. apply Hsub. by right.
Qed.

(** The handshake lemma for networkx graphs. *)
Lemma sum_degrees (G : Graph) :
  wf_graph G → sum_list (degree G).*2 = (2 * length (edges G))%nat.
Proof.
  intros HG. rewrite (sum_degrees_incident_ends G G HG) by done.
  apply sum_incident_ends; [by destruct HG |].
  intros e He. by apply edges_ends_are_nodes.
Qed.

(** The parity of a sum is the parity of the number of odd summands. *)
Lemma sum_list_parity (l : list nat) :
  (sum_list l mod 2 = length (filter (λ d, d mod 2 = 1) l) mod 2)%nat.
Proof.
  induction l as [|d l IH]; [done |].
  rewrite filter_cons. cbn [sum_list_with]. unfold Datatypes.id at 1.
  rewrite Nat.Div0.add_mod, IH. clear IH.
  pose proof (Nat.mod_upper_bound d 2) as Hd.
  case_decide as Hodd.
  - rewrite Hodd. cbn [length].
    set (k := length (filter (λ d, (d mod 2 = 1)%nat) l)).
    replace (S k) with (1 + k)%nat by done.
    rewrite (Nat.Div0.add_mod 1 k). done.
  - assert (d mod 2 = 0)%nat as -> by lia.
    by rewrite Nat.add_0_l, Nat.Div0.mod_mod.
Qed.

Lemma length_odd_entries (degrees : list (nat * nat)) :
  length (filter (λ nd : nat * nat, (nd.2 mod 2 = 1)%nat) degrees).*1
  = length (filter (λ d, (d mod 2 = 1)%nat) degrees.*2).
Proof.
  induction degrees as [|[n d] degrees IH]; [done |].
  rewrite fmap_cons, !filter_cons. cbn [snd].
  case_decide; [| done]. rewrite fmap_cons. cbn [length]. by f_equal.
Qed.

Lemma calculate_parity_even (G : Graph) :
  wf_graph G →
  ∃ K odd stats, calculate_parity G = Ok (K, odd, stats) ∧ (K mod 2 = 0)%nat.
Proof.
  intros HG. destruct (calculate_parity_Ok G) as (stats & Hcalc & _).
  eexists _, _, stats. split; [exact Hcalc |].
  rewrite length_odd_entries, <- sum_list_parity, (sum_degrees G HG).
  by rewrite Nat.mul_comm, Nat.Div0.mod_mul.
Qed.

End handshake_facts.

(** X1: in a networkx graph the degrees add up to twice the number of
    edges, so [number_of_edges], computed as half the sum of the
    degrees, is the length of the edge list, and this is the
    [total_edges] statistic [calculate_parity] reports. *)
Theorem number_of_edges_counts_edges (G : ParityCheck.Graph) :
  ParityCheck.wf_graph G →
  sum_list (ParityCheck.degree G).*2 = (2 * length (ParityCheck.edges G))%nat
  ∧ ParityCheck.number_of_edges G = length (ParityCheck.edges G)
  ∧ ∃ K odd stats,
      ParityCheck.calculate_parity G = Ok (K, odd, stats)
      ∧ ParityCheck.total_edges stats = length (ParityCheck.edges G).
Proof.
  intros HG. pose proof (sum_degrees G HG) as Hsum.
  assert (ParityCheck.number_of_edges G = length (ParityCheck.edges G)) as Hn.
  { unfold ParityCheck.number_of_edges. rewrite Hsum.
    by rewrite Nat.mul_comm, Nat.div_mul. }
  split; [done |]. split; [done |].
  destruct (calculate_parity_Ok G) as (stats & Hcalc & _ & Hedges & _).
  eexists _, _, stats. split; [exact Hcalc |]. by rewrite Hedges.
Qed.

(** X1 on the ring of four atoms, which has four edges. *)
Lemma number_of_edges_counts_edges_ring4 :
  ParityCheck.wf_graph Examples.ring4
  ∧ ParityCheck.number_of_edges Examples.ring4 = 4%nat.
Proof.
  assert (ParityCheck.wf_graph Examples.ring4) as Hwf.
  { do 4 apply wf_add_edge. apply wf_empty_graph. }
  split; [exact Hwf |].
  destruct (number_of_edges_counts_edges Examples.ring4 Hwf) as (_ & Hn & _).
  rewrite Hn. reflexivity.
Defined.

(** X2: the parity parameter K of a connectivity graph is always even
    (an odd number of odd-degree atoms is impossible), whatever the
    structure, the oracle and the cutoff; so is the K that
    [analyze_structure] reports. *)
Theorem parity_parameter_is_even
    (fs : string → structure_file) (cnn : NNOracle) (cutoff_distance : R)
    (s : Structure) (filepath : string) :
  (∃ K odd stats,
     ParityCheck.calculate_parity
       (ParityCheck.build_connectivity_graph cnn cutoff_distance s)
     = Ok (K, odd, stats)
     ∧ (K mod 2 = 0)%nat)
  ∧ ∀ results,
      ParityCheck.analyze_structure fs cnn cutoff_distance filepath = Ok results →
      (ParityCheck.K_parity results mod 2 = 0)%nat.
Proof.
  split.
  - apply calculate_parity_even, build_connectivity_graph_wf.
  - intros results. unfold ParityCheck.analyze_structure, load_structure.
    destruct (fs filepath) as [| |s']; [done | done |].
    destruct (calculate_parity_even _
                (build_connectivity_graph_wf cnn cutoff_distance s'))
      as (K & odd & stats & Hcalc & Heven).
    cbn. rewrite Hcalc. cbn. intros [= <-]. exact Heven.
Qed.

Section stats_facts.
Import ParityCheck.

Lemma foldl_min_le x (l : list nat) y :
  y ∈ x :: l → (foldl Nat.min x l ≤ y)%nat.
Proof.
  revert x y. induction l as [|z l IH]; intros x y; simpl.
  - intros ->%list_elem_of_singleton. done.
  - intros [->|[->|Hy]%elem_of_cons]%elem_of_cons.
    + etransitivity; [apply (IH _ (x `min` z)%nat); by left | lia].
    + etransitivity; [apply (IH _ (x `min` z)%nat); by left | lia].
    + apply IH. by right.
Qed.

Lemma foldl_min_elem x (l : list nat) : foldl Nat.min x l ∈ x :: l.
Proof.
  revert x. induction l as [|z l IH]; intros x; simpl; [by left |].
  specialize (IH (x `min` z)%nat).
  apply elem_of_cons in IH as [->|Hin]; [| right; by right].
  destruct (Nat.min_spec x z) as [[_ ->]|[_ ->]]; [by left | right; by left].
Qed.

Lemma foldl_max_ge x (l : list nat) y :
  y ∈ x :: l → (y ≤ foldl Nat.max x l)%nat.
Proof.
  revert x y. induction l as [|z l IH]; intros x y; simpl.
  - intros ->%list_elem_of_singleton. done.
  - intros [->|[->|Hy]%elem_of_cons]%elem_of_cons.
    + etransitivity; [| apply (IH _ (x `max` z)%nat); by left]. lia.
    + etransitivity; [| apply (IH _ (x `max` z)%nat); by left]. lia.
    + apply IH. by right.
Qed.

Lemma foldl_max_elem x (l : list nat) : foldl Nat.max x l ∈ x :: l.
Proof.
  revert x. induction l as [|z l IH]; intros x; simpl; [by left |].
  specialize (IH (x `max` z)%nat).
  apply elem_of_cons in IH as [->|Hin]; [| right; by right].
  destruct (Nat.max_spec x z) as [[_ ->]|[_ ->]]; [right; by left | by left].
Qed.

Lemma degree_keys (G : Graph) : (degree G).*1 = nodes G.
Proof.
  unfold degree, nodes. induction G as [|[n nbrs] G IH]; [done |].
  rewrite !fmap_cons. cbn [fst]. by f_equal.
Qed.

Lemma odd_vertices_are_nodes (G : Graph) K odd stats v :
  calculate_parity G = Ok (K, odd, stats) → v ∈ odd → v ∈ nodes G.
Proof.
  destruct (calculate_parity_Ok G) as (stats' & -> & _). intros [= _ <- _].
  rewrite <- degree_keys.
  intros (nd & -> & Hnd)%list_elem_of_fmap.
  apply list_elem_of_filter in Hnd as [_ Hnd]. by apply list_elem_of_fmap_2.
Qed.

End stats_facts.

(** X3: the degree statistics of [calculate_parity] are consistent for
    every graph: the odd and even counts add up to the number of nodes,
    the odd count is K, every degree lies between [min_degree] and
    [max_degree], and on a graph with at least one node both bounds are
    the degree of some node. *)
Theorem degree_statistics_consistent (G : ParityCheck.Graph) :
  ∃ K odd stats,
    ParityCheck.calculate_parity G = Ok (K, odd, stats)
    ∧ (ParityCheck.odd_degree_count stats + ParityCheck.even_degree_count stats
       = ParityCheck.total_vertices stats)%nat
    ∧ ParityCheck.total_vertices stats = length (ParityCheck.nodes G)
    ∧ ParityCheck.odd_degree_count stats = K
    ∧ (∀ n d, (n, d) ∈ ParityCheck.degree G →
         (ParityCheck.min_degree stats ≤ d ≤ ParityCheck.max_degree stats)%nat)
    ∧ (G ≠ [] →
         (∃ n, (n, ParityCheck.min_degree stats) ∈ ParityCheck.degree G)
         ∧ (∃ n, (n, ParityCheck.max_degree stats) ∈ ParityCheck.degree G)).
Proof.
  destruct (calculate_parity_Ok G)
    as (stats & Hcalc & Htotal & _ & Hodd & Heven & Hminmax).
  eexists _, _, stats. split; [exact Hcalc |].
  rewrite Hodd, Heven, Htotal. clear Hcalc Hodd Heven Htotal.
  set (degrees := ParityCheck.degree G) in *.
  assert (length degrees.*2 = length G) as Hlen.
  { subst degrees. unfold ParityCheck.degree. by rewrite length_fmap, length_map. }
  split; [| split; [| split; [done | split]]].
  - rewrite length_fmap.
    pose proof (length_filter (λ nd : nat * nat, (nd.2 mod 2 = 1)%nat) degrees) as Hle.
    rewrite length_fmap in Hlen. unfold ParityCheck.number_of_nodes.
    rewrite length_fmap. lia.
  - unfold ParityCheck.number_of_nodes, ParityCheck.nodes. by rewrite length_fmap.
  - intros n d Hnd.
    assert (d ∈ degrees.*2) as Hd by (by apply (list_elem_of_fmap_2 snd) in Hnd).
    destruct degrees.*2 as [|d0 ds]; [by apply elem_of_nil in Hd |].
    destruct Hminmax as [-> ->].
    split; [by apply foldl_min_le | by apply foldl_max_ge].
  - intros HG.
    assert (degrees.*2 ≠ []) as Hne.
    { intros Hnil. rewrite Hnil in Hlen. by destruct G. }
    destruct degrees.*2 as [|d0 ds] eqn:Hvals; [done |].
    destruct Hminmax as [-> ->]. split.
    + pose proof (foldl_min_elem d0 ds) as Hin. rewrite <- Hvals in Hin.
      apply list_elem_of_fmap in Hin as ([n d] & Heq & Hin).
      exists n. simpl in Heq. by rewrite Heq.
    + pose proof (foldl_max_elem d0 ds) as Hin. rewrite <- Hvals in Hin.
      apply list_elem_of_fmap in Hin as ([n d] & Heq & Hin).
      exists n. simpl in Heq. by rewrite Heq.
Qed.

(** X4: with an oracle that reports sites of the structure, the
    connectivity graph has an edge between two atoms exactly when one
    of them is reported as a neighbour of the other within the cutoff,
    and [has_edge] does not depend on the order of its arguments. *)
Theorem connectivity_graph_edges_from_reports
    (cnn : NNOracle) (cutoff_distance : R) (s : Structure) :
  oracle_in_range cnn s →
  let G := ParityCheck.build_connectivity_graph cnn cutoff_distance s in
  (∀ i j,
     ParityCheck.has_edge i j G = true
     ↔ (i < length (species s))%nat ∧ (j < length (species s))%nat
       ∧ (ParityCheck.reported cnn cutoff_distance s i j
          ∨ ParityCheck.reported cnn cutoff_distance s j i))
  ∧ (∀ i j, ParityCheck.has_edge i j G = ParityCheck.has_edge j i G).
Proof.
  intros Hrange G.
  destruct (build_connectivity_graph_invariant cnn cutoff_distance s Hrange)
    as (Hwf & Hnodes & Hadj).
  fold G in Hwf, Hnodes, Hadj.
  assert (∀ i j, ParityCheck.adjacent G i j → (i < length (species s))%nat) as Hlt.
  { intros i j Hij%adjacent_node. rewrite Hnodes in Hij.
    apply elem_of_seq in Hij. lia. }
  assert (∀ i j,
     ParityCheck.has_edge i j G = true
     ↔ (i < length (species s))%nat ∧ (j < length (species s))%nat
       ∧ (ParityCheck.reported cnn cutoff_distance s i j
          ∨ ParityCheck.reported cnn cutoff_distance s j i)) as Hiff.
  { intros i j. rewrite has_edge_adjacent. destruct Hwf as (_ & _ & Hsym). split.
    - intros Hij. split; [by eapply Hlt |]. split; [eapply Hlt; by apply Hsym |].
      by apply Hadj.
    - intros (Hi & Hj & [Hrep|Hrep]).
      + by apply build_connectivity_graph_adjacent.
      + apply Hsym. by apply build_connectivity_graph_adjacent. }
  split; [exact Hiff |].
  intros i j. apply eq_true_iff_eq. rewrite !Hiff. tauto.
Qed.

(** X4 on the cell Li-N-H: N and H are bonded, Li and H are not. *)
Lemma connectivity_graph_edges_from_reports_LiNH :
  oracle_in_range Examples.LiNH_cnn Examples.LiNH
  ∧ ParityCheck.has_edge 2 1
      (ParityCheck.build_connectivity_graph Examples.LiNH_cnn 3.5 Examples.LiNH)
    = ParityCheck.has_edge 1 2
        (ParityCheck.build_connectivity_graph Examples.LiNH_cnn 3.5 Examples.LiNH).
Proof.
  assert (oracle_in_range Examples.LiNH_cnn Examples.LiNH) as Hrange
    by (apply oracle_of_in_range; reflexivity).
  split; [exact Hrange |].
  destruct (connectivity_graph_edges_from_reports
              Examples.LiNH_cnn 3.5 Examples.LiNH Hrange) as [_ Hsym].
  apply Hsym.
Defined.

Lemma reported_mono cnn c1 c2 s i j :
  (c1 <= c2)%R →
  ParityCheck.reported cnn c1 s i j → ParityCheck.reported cnn c2 s i j.
Proof.
  intros Hle (neighbors & neighbor & Hcnn & Hin & Hj & Hw).
  exists neighbors, neighbor. repeat split; try done. lra.
Qed.

(** X5: raising the cutoff never removes an edge of the connectivity
    graph, and never changes its nodes. *)
Theorem connectivity_graph_grows_with_cutoff
    (cnn : NNOracle) (c1 c2 : R) (s : Structure) :
  oracle_in_range cnn s → (c1 <= c2)%R →
  ParityCheck.nodes (ParityCheck.build_connectivity_graph cnn c1 s)
  = ParityCheck.nodes (ParityCheck.build_connectivity_graph cnn c2 s)
  ∧ ∀ i j,
      ParityCheck.has_edge i j (ParityCheck.build_connectivity_graph cnn c1 s) = true →
      ParityCheck.has_edge i j (ParityCheck.build_connectivity_graph cnn c2 s) = true.
Proof.
  intros Hrange Hle. split.
  - destruct (build_connectivity_graph_invariant cnn c1 s Hrange) as (_ & -> & _).
    by destruct (build_connectivity_graph_invariant cnn c2 s Hrange) as (_ & -> & _).
  - intros i j.
    destruct (build_connectivity_graph_invariant cnn c1 s Hrange) as (Hwf1 & Hn1 & Hadj1).
    destruct (build_connectivity_graph_invariant cnn c2 s Hrange) as ((_ & _ & Hsym2) & _ & _).
    rewrite !has_edge_adjacent. intros Hij.
    assert (∀ a b, ParityCheck.adjacent
                     (ParityCheck.build_connectivity_graph cnn c1 s) a b →
                   (a < length (species s))%nat) as Hlt.
    { intros a b Hab%adjacent_node. rewrite Hn1 in Hab.
      apply elem_of_seq in Hab. lia. }
    destruct Hwf1 as (_ & _ & Hsym1).
    destruct (Hadj1 i j Hij) as [Hrep|Hrep].
    + apply build_connectivity_graph_adjacent; [by eapply Hlt |].
      by eapply reported_mono.
    + apply Hsym2. apply build_connectivity_graph_adjacent.
      * eapply Hlt. by apply Hsym1.
      * by eapply reported_mono.
Qed.

(** X5 on the cell Li-N-H, from cutoff 1.5 to the default 3.5. *)
Lemma connectivity_graph_grows_with_cutoff_LiNH :
  oracle_in_range Examples.LiNH_cnn Examples.LiNH
  ∧ ParityCheck.nodes (ParityCheck.build_connectivity_graph Examples.LiNH_cnn 1.5 Examples.LiNH)
    = ParityCheck.nodes (ParityCheck.build_connectivity_graph Examples.LiNH_cnn 3.5 Examples.LiNH).
Proof.
  assert (oracle_in_range Examples.LiNH_cnn Examples.LiNH) as Hrange
    by (apply oracle_of_in_range; reflexivity).
  split; [exact Hrange |].
  assert (1.5 <= 3.5)%R as Hle by lra.
  exact (proj1 (connectivity_graph_grows_with_cutoff
                  Examples.LiNH_cnn 1.5 3.5 Examples.LiNH Hrange Hle)).
Defined.

(** X6: the exit code of the parity checker, when the oracle reports
    sites of the structure it is asked about: 2 exactly when the file
    is missing or cannot be parsed, otherwise 0 when K is 0 and 1 when
    it is not; [--quiet] never changes the exit code. *)
Theorem parity_main_exit_code
    (fs : string → structure_file) (cnn : NNOracle)
    (structure_file : string) (cutoff : option R) (quiet : bool) :
  (∀ s, fs structure_file = Parses s → oracle_in_range cnn s) →
  match fs structure_file with
  | Parses s =>
      ∃ K odd stats,
        ParityCheck.calculate_parity
          (ParityCheck.build_connectivity_graph cnn (default 3.5%R cutoff) s)
        = Ok (K, odd, stats)
        ∧ ParityCheck.main fs cnn structure_file cutoff quiet
          = if decide (K = 0%nat) then 0%Z else 1%Z
  | _ => ParityCheck.main fs cnn structure_file cutoff quiet = 2%Z
  end.
Proof.
  intros Hrange. unfold ParityCheck.main, ParityCheck.analyze_structure, load_structure.
  destruct (fs structure_file) as [| |s] eqn:Hfs; [done | done |].
  specialize (Hrange s eq_refl).
  change ParityCheck.default_cutoff with 3.5%R.
  set (G := ParityCheck.build_connectivity_graph cnn (default 3.5%R cutoff) s).
  destruct (calculate_parity_Ok G) as (stats & Hcalc & _).
  pose proof (λ v, odd_vertices_are_nodes G _ _ _ v Hcalc) as Hodd.
  eexists _, _, stats. split; [exact Hcalc |].
  unfold mbind, result_bind, mret, result_ret. cbv beta iota. fold G.
  rewrite Hcalc. cbv beta iota.
  set (odd := (filter (λ nd : nat * nat, (nd.2 mod 2 = 1)%nat) (ParityCheck.degree G)).*1)
    in *.
  set (K := length odd) in *.
  destruct (build_connectivity_graph_invariant cnn (default 3.5%R cutoff) s Hrange)
    as (_ & Hnodes & _).
  fold G in Hnodes.
  assert (ParityCheck.print_results
            {| ParityCheck.r_filepath := structure_file;
               ParityCheck.r_formula := formula s;
               ParityCheck.K_parity := K;
               ParityCheck.passes_parity_test := bool_decide (K = 0%nat);
               ParityCheck.odd_vertices := odd;
               ParityCheck.graph_stats := stats;
               ParityCheck.r_structure := s |} = Ok ()) as Hprint.
  { unfold ParityCheck.print_results. cbn.
    rewrite (proj2 (forallb_forall _ _)); [done |].
    intros v Hv%list_elem_of_In. apply bool_decide_eq_true.
    assert (v ∈ odd) as Hv'.
    { apply elem_of_take in Hv as (k & Hk & _). by eapply list_elem_of_lookup_2. }
    apply Hodd in Hv'. rewrite Hnodes in Hv'. apply elem_of_seq in Hv'. lia. }
  assert ((if quiet then Ok () else
             ParityCheck.print_results
               {| ParityCheck.r_filepath := structure_file;
                  ParityCheck.r_formula := formula s;
                  ParityCheck.K_parity := K;
                  ParityCheck.passes_parity_test := bool_decide (K = 0%nat);
                  ParityCheck.odd_vertices := odd;
                  ParityCheck.graph_stats := stats;
                  ParityCheck.r_structure := s |}) = Ok ()) as ->
    by (destruct quiet; [done | exact Hprint]).
  cbn. by destruct (decide (K = 0%nat)) as [->|Hne];
    [rewrite bool_decide_eq_true_2 | rewrite bool_decide_eq_false_2].
Qed.

(** X6 on the files of the examples: Li-N-H has two atoms of odd
    degree, so the exit code is 1, with or without [--quiet]. *)
Lemma parity_main_exit_code_LiNH :
  (∀ s, Examples.structures "LiNH.cif" = Parses s →
        oracle_in_range Examples.LiNH_cnn s)
  ∧ ∀ quiet,
      ParityCheck.main Examples.structures Examples.LiNH_cnn "LiNH.cif" None quiet
      = 1%Z.
Proof.
  assert (∀ s, Examples.structures "LiNH.cif" = Parses s →
               oracle_in_range Examples.LiNH_cnn s) as Hrange.
  { intros s [= <-]. apply oracle_of_in_range. reflexivity. }
  split; [exact Hrange |].
  intros quiet.
  pose proof (parity_main_exit_code Examples.structures Examples.LiNH_cnn
                "LiNH.cif" None quiet Hrange) as Hmain.
  change (Examples.structures "LiNH.cif") with (Parses Examples.LiNH) in Hmain.
  cbv beta iota in Hmain.
  destruct Hmain as (K & odd & stats & Hcalc & ->).
  change (default 3.5%R None) with 3.5%R in Hcalc.
  rewrite build_connectivity_graph_LiNH in Hcalc.
  injection Hcalc as <- _ _. reflexivity.
Defined.

Section distance_facts.
Import ParityCheck.

Variable cnn : NNOracle.
Variable cutoff_distance : R.
Variable s : Structure.

Local Abbreviation distances_reported :=
  (ParityCheck.distances_reported cnn cutoff_distance s).

Lemma elem_of_dict_set {V} k (v : V) (d : list (nat * V)) x :
  x ∈ dict_set k v d → x = (k, v) ∨ x ∈ d.
Proof.
  induction d as [|[k' v'] d IH]; simpl.
  - intros ->%list_elem_of_singleton. by left.
  - case_decide.
    + intros [->|Hx]%elem_of_cons; [by left | right; by right].
    + intros [->|Hx]%elem_of_cons; [right; by left |].
      destruct (IH Hx) as [?|?]; [by left | right; by right].
Qed.

Lemma elem_of_dict_alter {V} (f : V → V) k (d : list (nat * V)) x :
  x ∈ dict_alter f k d → x ∈ d ∨ ∃ v, (k, v) ∈ d ∧ x = (k, f v).
Proof.
  induction d as [|[k' v'] d IH]; simpl; [by left |].
  case_decide as Hk.
  - intros [->|Hx]%elem_of_cons.
    + right. exists v'. subst. split; [by left | done].
    + left. by right.
  - intros [->|Hx]%elem_of_cons; [left; by left |].
    destruct (IH Hx) as [?|(v & Hv & ->)].
    + left. by right.
    + right. exists v. split; [by right | done].
Qed.

Lemma distances_reported_add_node n G :
  distances_reported G → distances_reported (add_node n G).
Proof.
  intros HG u nbrs v d. unfold add_node. destruct (dict_mem n G); [apply HG |].
  intros [Hin|[= -> ->]%list_elem_of_singleton]%elem_of_app Hv.
  - by eapply HG.
  - by apply elem_of_nil in Hv.
Qed.

Lemma distances_reported_alter_set k x d G :
  (reported_at cnn cutoff_distance s k x d ∨ reported_at cnn cutoff_distance s x k d) →
  distances_reported G →
  distances_reported (dict_alter (dict_set x d) k G).
Proof.
  intros Hrep HG u nbrs v d' [Hin|(nbrs0 & Hin & [= -> ->])]%elem_of_dict_alter Hv.
  - by eapply HG.
  - apply elem_of_dict_set in Hv as [[= -> ->]|Hv]; [done | by eapply HG].
Qed.

Lemma distances_reported_build :
  distances_reported (build_connectivity_graph cnn cutoff_distance s).
Proof.
  unfold build_connectivity_graph. apply foldl_invariant.
  - apply (foldl_invariant distances_reported).
    + intros u nbrs v d Hin. by apply elem_of_nil in Hin.
    + intros G i _. apply distances_reported_add_node.
  - intros G i _ HG. unfold visit_site.
    destruct (cnn s i) as [neighbors|] eqn:Hcnn; [| done].
    apply foldl_invariant; [done |].
    intros G' neighbor Hnb HG'. unfold visit_neighbor.
    case_decide as Hle; [| done].
    destruct (has_edge i (site_index neighbor) G'); [done |].
    assert (reported_at cnn cutoff_distance s i (site_index neighbor) (weight neighbor))
      as Hrep by by exists neighbors, neighbor.
    unfold add_edge. apply distances_reported_alter_set; [tauto |].
    apply distances_reported_alter_set; [tauto |].
    by do 2 apply distances_reported_add_node.
Qed.

End distance_facts.

(** X7: the distance stored on an edge of the connectivity graph is a
    distance the oracle reported between the two atoms, from one side
    or the other, and it is at most the cutoff. *)
Theorem edge_distance_is_reported
    (cnn : NNOracle) (cutoff_distance : R) (s : Structure) (u v : nat) (d : R) :
  ParityCheck.edge_distance
    (ParityCheck.build_connectivity_graph cnn cutoff_distance s) u v = Some d →
  (d <= cutoff_distance)%R
  ∧ (ParityCheck.reported_at cnn cutoff_distance s u v d
     ∨ ParityCheck.reported_at cnn cutoff_distance s v u d).
Proof.
  unfold ParityCheck.edge_distance. intros Hd.
  destruct (dict_get u (ParityCheck.build_connectivity_graph cnn cutoff_distance s))
    as [nbrs|] eqn:Hu; [| done].
  simpl in Hd. apply dict_get_Some_elem in Hu, Hd.
  pose proof (distances_reported_build cnn cutoff_distance s u nbrs v d Hu Hd) as Hrep.
  split; [| exact Hrep].
  by destruct Hrep as [(? & ? & _ & _ & _ & _ & ?)|(? & ? & _ & _ & _ & _ & ?)].
Qed.

(** X7 on the Li-N bond of the cell Li-N-H. *)
Lemma edge_distance_is_reported_LiNH :
  ParityCheck.edge_distance
    (ParityCheck.build_connectivity_graph Examples.LiNH_cnn 3.5 Examples.LiNH) 0 1
    = Some 2%R
  ∧ (2 <= 3.5)%R.
Proof.
  assert (ParityCheck.edge_distance
            (ParityCheck.build_connectivity_graph Examples.LiNH_cnn 3.5 Examples.LiNH)
            0 1 = Some 2%R) as Hd
    by (rewrite build_connectivity_graph_LiNH; reflexivity).
  split; [exact Hd |].
  exact (proj1 (edge_distance_is_reported
                  Examples.LiNH_cnn 3.5 Examples.LiNH 0 1 2%R Hd)).
Defined.

(** * Further properties of the bond-quantum analyzer *)

(** X8: [_calculate_reduced_mass] does not depend on the order of the
    two elements; it is the fallback 1.0 as soon as the mass of one
    element is unknown; for two known positive masses it is
    m1*m2/(m1+m2), which is positive and smaller than either mass. *)
Theorem reduced_mass_properties
    (atomic_mass : string → option R) (element1 element2 : string) :
  BondQuantum._calculate_reduced_mass atomic_mass element1 element2
  = BondQuantum._calculate_reduced_mass atomic_mass element2 element1
  ∧ (atomic_mass element1 = None ∨ atomic_mass element2 = None →
     BondQuantum._calculate_reduced_mass atomic_mass element1 element2 = 1%R)
  ∧ (∀ m1 m2,
       atomic_mass element1 = Some m1 → atomic_mass element2 = Some m2 →
       (0 < m1)%R → (0 < m2)%R →
       BondQuantum._calculate_reduced_mass atomic_mass element1 element2
       = (m1 * m2 / (m1 + m2))%R
       ∧ (0 < m1 * m2 / (m1 + m2) < m1)%R
       ∧ (m1 * m2 / (m1 + m2) < m2)%R).
Proof.
  unfold BondQuantum._calculate_reduced_mass. split; [| split].
  - destruct (atomic_mass element1) as [m1|], (atomic_mass element2) as [m2|]; try done.
    destruct (decide (m1 + m2 = 0)%R), (decide (m2 + m1 = 0)%R); try done; try lra.
    by rewrite (Rmult_comm m1 m2), (Rplus_comm m1 m2).
  - intros [-> | Hnone]; [done |]. rewrite Hnone. by destruct (atomic_mass element1).
  - intros m1 m2 -> -> Hm1 Hm2.
    rewrite decide_False by lra.
    assert (0 < m1 + m2)%R as Hsum by lra.
    assert (0 < / (m1 + m2))%R as Hinv by by apply Rinv_0_lt_compat.
    assert (m1 * m2 / (m1 + m2) = m1 - m1 * m1 / (m1 + m2))%R as Heq1 by (field; lra).
    assert (m1 * m2 / (m1 + m2) = m2 - m2 * m2 / (m1 + m2))%R as Heq2 by (field; lra).
    assert (0 < m1 * m2 / (m1 + m2))%R as Hpos.
    { unfold Rdiv. apply Rmult_lt_0_compat; [by apply Rmult_lt_0_compat | done]. }
    assert (0 < m1 * m1 / (m1 + m2))%R.
    { unfold Rdiv. apply Rmult_lt_0_compat; [by apply Rmult_lt_0_compat | done]. }
    assert (0 < m2 * m2 / (m1 + m2))%R.
    { unfold Rdiv. apply Rmult_lt_0_compat; [by apply Rmult_lt_0_compat | done]. }
    split; [done |]. split; [split; [done | lra] | lra].
Qed.

Section scaling_facts.
Import BondQuantum.
Open Scope R_scope.

(** The estimate in closed form: a constant over distance times the
    square root of the reduced mass. *)
Lemma estimate_phonon_energy_closed d m :
  0 < d → 0 < m →
  estimate_phonon_energy d m
  = Ok (Finite (HBAR * sqrt (100 / 1.036427e-4) / PI / (d * sqrt m))).
Proof.
  intros Hd Hm. rewrite estimate_phonon_energy_eq by lra. do 2 f_equal.
  assert (0 < 1.036427e-4) as Hc by lra.
  set (c := 1.036427e-4) in *.
  assert (0 < sqrt m) as Hsm by by apply sqrt_lt_R0.
  assert (100 / d ^ 2 / (m * c) = 100 / c / (d * d * m)) as ->
    by (field; repeat split; lra).
  assert (0 < d * d) by by apply Rmult_lt_0_compat.
  assert (0 < d * d * m) by by apply Rmult_lt_0_compat.
  assert (0 <= 100 / c).
  { unfold Rdiv. apply Rmult_le_pos; [lra |]. left. by apply Rinv_0_lt_compat. }
  rewrite sqrt_div_alt by done.
  rewrite sqrt_mult by lra. rewrite sqrt_square by lra.
  pose proof PI_RGT_0. field. repeat split; lra.
Qed.

Lemma closed_form_pos d m :
  0 < d → 0 < m → 0 < HBAR * sqrt (100 / 1.036427e-4) / PI / (d * sqrt m).
Proof.
  intros Hd Hm.
  assert (0 < sqrt m) as Hsm by by apply sqrt_lt_R0.
  pose proof PI_RGT_0 as Hpi. pose proof HBAR_pos as Hh.
  assert (0 < sqrt (100 / 1.036427e-4)) as Hc by (apply sqrt_lt_R0; lra).
  apply Rdiv_lt_0_compat; [| by apply Rmult_lt_0_compat].
  apply Rdiv_lt_0_compat; [| done]. by apply Rmult_lt_0_compat.
Qed.

Lemma estimate_phonon_energy_pos d m :
  0 < d → 0 < m →
  ∃ e, estimate_phonon_energy d m = Ok (Finite e) ∧ 0 < e.
Proof.
  intros Hd Hm. eexists. split; [by apply estimate_phonon_energy_closed |].
  by apply closed_form_pos.
Qed.

End scaling_facts.

(** X9: for a positive distance and a positive reduced mass the
    estimator returns a positive energy, inversely proportional to the
    distance and to the square root of the reduced mass: a bond k
    times as long has 1/k of the energy, a reduced mass k times as
    large has 1/sqrt(k) of it.  Floats are read as real numbers. *)
Theorem estimate_phonon_energy_scaling (d m k : R) :
  (0 < d)%R → (0 < m)%R → (0 < k)%R →
  ∃ e,
    BondQuantum.estimate_phonon_energy d m = Ok (BondQuantum.Finite e)
    ∧ (0 < e)%R
    ∧ BondQuantum.estimate_phonon_energy (k * d) m
      = Ok (BondQuantum.Finite (e / k))
    ∧ BondQuantum.estimate_phonon_energy d (k * m)
      = Ok (BondQuantum.Finite (e / sqrt k)).
Proof.
  intros Hd Hm Hk.
  assert (0 < k * d)%R as Hkd by by apply Rmult_lt_0_compat.
  assert (0 < k * m)%R as Hkm by by apply Rmult_lt_0_compat.
  eexists. split; [by apply estimate_phonon_energy_closed |].
  split; [by apply closed_form_pos |].
  rewrite !estimate_phonon_energy_closed by done.
  assert (0 < sqrt m)%R as Hsm by by apply sqrt_lt_R0.
  assert (0 < sqrt k)%R as Hsk by by apply sqrt_lt_R0.
  pose proof PI_RGT_0 as Hpi. pose proof HBAR_pos as Hh.
  assert (0 < sqrt (100 / 1.036427e-4))%R as Hc by (apply sqrt_lt_R0; lra).
  split; do 2 f_equal.
  - field. repeat split; lra.
  - rewrite sqrt_mult by lra. field. repeat split; lra.
Qed.

(** X9 at distance 1, reduced mass 1 and factor 2. *)
Lemma estimate_phonon_energy_scaling_2 :
  ∃ e,
    BondQuantum.estimate_phonon_energy 1 1 = Ok (BondQuantum.Finite e)
    ∧ BondQuantum.estimate_phonon_energy (2 * 1) 1 = Ok (BondQuantum.Finite (e / 2)).
Proof.
  assert (0 < 1)%R as H1 by lra. assert (0 < 2)%R as H2 by lra.
  destruct (estimate_phonon_energy_scaling 1 1 2 H1 H1 H2) as (e & He & _ & Hk & _).
  by exists e.
Defined.





Section bond_main_facts.
Import BondQuantum.

Lemma main_load_failure fs cnn atomic_mass filepath threshold quiet :
  (∀ s, fs filepath ≠ Parses s) →
  main fs cnn atomic_mass filepath threshold quiet = 2%Z.
Proof.
  intros Hfs. unfold main, analyze_structure, load_structure.
  destruct (fs filepath) as [| |s]; [done | done | by destruct (Hfs s)].
Qed.

Lemma main_threshold_default fs cnn atomic_mass filepath threshold quiet :
  main fs cnn atomic_mass filepath threshold quiet
  = main fs cnn atomic_mass filepath
      (Some (default default_threshold threshold)) quiet.
Proof. by destruct threshold. Qed.

(** The four cases of [main]: the file does not load; there is no
    bond; the estimator raises on some bond; there is a verdict. *)
Lemma main_cases fs cnn atomic_mass filepath threshold quiet :
  ((∀ s, fs filepath ≠ Parses s)
   ∧ main fs cnn atomic_mass filepath threshold quiet = 2%Z)
  ∨ (∃ s, fs filepath = Parses s
        ∧ find_light_atom_bonds cnn atomic_mass s = []
        ∧ main fs cnn atomic_mass filepath threshold quiet = 2%Z)
  ∨ (∃ s b, fs filepath = Parses s
        ∧ b ∈ find_light_atom_bonds cnn atomic_mass s
        ∧ (distance b = 0%R ∨ reduced_mass b = 0%R)
        ∧ main fs cnn atomic_mass filepath threshold quiet = 2%Z)
  ∨ (∃ s analysed shortest others,
        fs filepath = Parses s
        ∧ find_light_atom_bonds cnn atomic_mass s ≠ []
        ∧ (∀ b, b ∈ find_light_atom_bonds cnn atomic_mass s →
                distance b ≠ 0%R ∧ reduced_mass b ≠ 0%R)
        ∧ add_energies (find_light_atom_bonds cnn atomic_mass s) = Ok analysed
        ∧ sort_by_distance analysed = shortest :: others
        ∧ main fs cnn atomic_mass filepath threshold quiet
          = if float_ge (py_max_float (phonon_energy_eV shortest)
                                      (phonon_energy_eV <$> others))
                        (default default_threshold threshold)
            then 0%Z else 1%Z).
Proof.
  destruct (fs filepath) as [| |s] eqn:Hfs.
  - left. split; [done |]. apply main_load_failure. by rewrite Hfs.
  - left. split; [done |]. apply main_load_failure. by rewrite Hfs.
  - right. destruct (find_light_atom_bonds cnn atomic_mass s) as [|b0 bs] eqn:Hbonds.
    + left. exists s. split; [done |]. split; [done |].
      by apply main_without_bonds with (s := s).
    + right.
      destruct (add_energies (find_light_atom_bonds cnn atomic_mass s))
        as [analysed|e] eqn:Hadd.
      * right.
        destruct (analyze_structure_with_bonds fs cnn atomic_mass
                    (default default_threshold threshold) filepath s analysed Hfs)
          as (shortest & others & Hsort & Hrun); [by rewrite Hbonds | done |].
        exists s, analysed, shortest, others.
        split; [done |]. split; [by rewrite Hbonds |]. split.
        { intros b Hb. split; intros Hzero.
          - by rewrite (add_energies_raises _ b Hb (or_introl Hzero)) in Hadd.
          - by rewrite (add_energies_raises _ b Hb (or_intror Hzero)) in Hadd. }
        split; [done |]. split; [done |].
        rewrite main_threshold_default. by eapply main_with_report.
      * left. destruct (add_energies_Raise _ _ Hadd) as (-> & b & Hb & Hzero).
        exists s, b. split; [done |]. split; [done |]. split; [done |].
        eapply main_raises. by apply analyze_structure_raises with (s := s).
Qed.

End bond_main_facts.

(** X12: lowering the threshold never turns a pass into a fail: if the
    bond-quantum checker exits with 0 for a threshold, it exits with 0
    for every smaller threshold, with or without [--quiet]. *)
Theorem lower_threshold_keeps_pass
    (fs : string → structure_file) (cnn : NNOracle) (atomic_mass : string → option R)
    (filepath : string) (t t' : R) (quiet quiet' : bool) :
  (t' <= t)%R →
  BondQuantum.main fs cnn atomic_mass filepath (Some t) quiet = 0%Z →
  BondQuantum.main fs cnn atomic_mass filepath (Some t') quiet' = 0%Z.
Proof.
  intros Hle Hpass.
  destruct (main_cases fs cnn atomic_mass filepath (Some t) quiet)
    as [[_ H2]|[(s & _ & _ & H2)|[(s & b & _ & _ & _ & H2)
        |(s & analysed & shortest & others & Hfs & Hne & Hnz & Hadd & Hsort & Hmain)]]];
    [congruence | congruence | congruence |].
  destruct (main_cases fs cnn atomic_mass filepath (Some t') quiet')
    as [[Hno _]|[(s' & Hfs' & Hnil & _)|[(s' & b & Hfs' & Hb & Hzero & _)
        |(s' & analysed' & shortest' & others' & Hfs' & _ & _ & Hadd' & Hsort' & ->)]]].
  - by destruct (Hno s).
  - rewrite Hfs in Hfs'. injection Hfs' as <-. done.
  - rewrite Hfs in Hfs'. injection Hfs' as <-.
    destruct (Hnz b Hb) as [Hd Hm]. by destruct Hzero.
  - rewrite Hfs in Hfs'. injection Hfs' as <-.
    rewrite Hadd in Hadd'. injection Hadd' as <-.
    rewrite Hsort in Hsort'. injection Hsort' as <- <-.
    rewrite Hmain in Hpass. cbn [default from_option Datatypes.id] in *.
    destruct (BondQuantum.float_ge
                (BondQuantum.py_max_float (BondQuantum.phonon_energy_eV shortest)
                   (BondQuantum.phonon_energy_eV <$> others)) t) eqn:Hdec; [| done].
    by rewrite (float_ge_mono _ t t' Hle Hdec).
Qed.

(** The energies of the two bonds of the cell Li-N-H are positive, so
    the cell passes at threshold 0. *)
Lemma main_LiNH_passes_at_0 :
  BondQuantum.main Examples.structures Examples.LiNH_cnn Examples.masses
    "LiNH.cif" (Some 0%R) true = 0%Z.
Proof.
  destruct (main_cases Examples.structures Examples.LiNH_cnn Examples.masses
              "LiNH.cif" (Some 0%R) true)
    as [[Hno _]|[(s & Hfs & Hnil & _)|[(s & b & Hfs & Hb & Hzero & _)
        |(s & analysed & shortest & others & Hfs & _ & _ & Hadd & Hsort & ->)]]].
  - by destruct (Hno Examples.LiNH).
  - assert (s = Examples.LiNH) as ->
      by (change (Parses Examples.LiNH = Parses s) in Hfs; congruence).
    discriminate Hnil.
  - assert (s = Examples.LiNH) as ->
      by (change (Parses Examples.LiNH = Parses s) in Hfs; congruence).
    destruct (LiNH_bonds_nonzero b Hb) as [Hd Hm]. by destruct Hzero.
  - assert (s = Examples.LiNH) as ->
      by (change (Parses Examples.LiNH = Parses s) in Hfs; congruence).
    cbn [default from_option Datatypes.id].
    pose proof (sort_by_distance_Permutation analysed) as Hperm.
    rewrite Hsort in Hperm.
    assert (∀ b' : BondQuantum.AnalyzedBond, b' ∈ shortest :: others →
              ∃ e, BondQuantum.phonon_energy_eV b' = BondQuantum.Finite e
                   ∧ (0 < e)%R) as Hpos.
    { intros b' Hb'. rewrite Hperm in Hb'.
      destruct (add_energies_elem _ _ _ Hadd Hb') as (b & Hb & Hwith).
      destruct (LiNH_bonds_regular b Hb) as [Hd Hm].
      apply with_energy_Ok in Hwith as (_ & Hest & _).
      assert (0 < BondQuantum.distance b)%R as Hd'.
      { change (b ∈ [Examples.LiNH_bond_LiN; Examples.LiNH_bond_NH]) in Hb.
        apply elem_of_cons in Hb as [->|[->|Hb%elem_of_nil]%elem_of_cons];
          [simpl; lra | simpl; lra | done]. }
      destruct (estimate_phonon_energy_pos _ _ Hd' Hm) as (e & He & Hpos).
      rewrite He in Hest. injection Hest as <-. by exists e. }
    destruct (py_max_float_finite (BondQuantum.phonon_energy_eV shortest)
                (BondQuantum.phonon_energy_eV <$> others))
      as (max_energy & -> & Hin & Hle).
    { rewrite <- fmap_cons. intros a (b' & -> & Hb')%list_elem_of_fmap.
      destruct (Hpos b' Hb') as (e & He & _). by exists e. }
    destruct (Hpos shortest) as (e & He & Hpos_e); [by left |].
    cbn [BondQuantum.float_ge]. rewrite bool_decide_eq_true_2; [done |].
    etransitivity; [| apply Hle; rewrite <- He; by left]. lra.
Qed.

(** X12 on the cell Li-N-H: it passes at threshold 0, hence at -1. *)
Lemma lower_threshold_keeps_pass_LiNH :
  BondQuantum.main Examples.structures Examples.LiNH_cnn Examples.masses
    "LiNH.cif" (Some 0%R) true = 0%Z
  ∧ BondQuantum.main Examples.structures Examples.LiNH_cnn Examples.masses
      "LiNH.cif" (Some (-1)%R) false = 0%Z.
Proof.
  split; [exact main_LiNH_passes_at_0 |].
  assert (-1 <= 0)%R as Hle by lra.
  exact (lower_threshold_keeps_pass Examples.structures Examples.LiNH_cnn
           Examples.masses "LiNH.cif" 0 (-1) true false Hle main_LiNH_passes_at_0).
Defined.


Section scan_facts.
Import BondQuantum.

Variable cnn : NNOracle.
Variable atomic_mass : string → option R.
Variable s : Structure.

Lemma scan_neighbors_elem i element neighbors acc b :
  b ∈ scan_neighbors atomic_mass s i element neighbors acc →
  b ∈ acc
  ∨ ∃ neighbor neighbor_element,
      neighbor ∈ neighbors
      ∧ species s !! site_index neighbor = Some neighbor_element
      ∧ b = make_bond atomic_mass i (site_index neighbor) element neighbor_element
              (weight neighbor).
Proof.
  revert acc. induction neighbors as [|nb rest IH]; intros acc; simpl; [by left |].
  destruct (species s !! site_index nb) as [elj|] eqn:Hj; [| by left].
  intros [Hb|(nb' & elj' & Hin & Hj' & ->)]%IH.
  - apply elem_of_app in Hb as [Hb|Hb]; [by left |].
    apply list_elem_of_singleton in Hb as ->.
    right. exists nb, elj. split; [by left | done].
  - right. exists nb', elj'. split; [by right | done].
Qed.

Lemma scan_neighbors_keeps i element neighbors acc b :
  b ∈ acc → b ∈ scan_neighbors atomic_mass s i element neighbors acc.
Proof.
  revert acc. induction neighbors as [|nb rest IH]; intros acc Hb; simpl; [done |].
  destruct (species s !! site_index nb); [| done].
  apply IH, elem_of_app. by left.
Qed.

Lemma scan_neighbors_complete i element neighbors acc neighbor :
  (∀ nb, nb ∈ neighbors → (site_index nb < length (species s))%nat) →
  neighbor ∈ neighbors →
  ∃ neighbor_element,
    species s !! site_index neighbor = Some neighbor_element
    ∧ make_bond atomic_mass i (site_index neighbor) element neighbor_element
        (weight neighbor)
      ∈ scan_neighbors atomic_mass s i element neighbors acc.
Proof.
  revert acc. induction neighbors as [|nb rest IH]; intros acc Hrange Hin;
    [by apply elem_of_nil in Hin |].
  simpl.
  destruct (lookup_lt_is_Some_2 (species s) (site_index nb)) as [elj Hj];
    [apply Hrange; by left |].
  rewrite Hj. apply elem_of_cons in Hin as [->|Hin].
  - exists elj. split; [done |].
    apply scan_neighbors_keeps, elem_of_app. right. by left.
  - apply IH; [| done]. intros nb' Hnb'. apply Hrange. by right.
Qed.

Lemma scan_sites_elem i sites acc b :
  b ∈ scan_sites cnn atomic_mass s i sites acc →
  b ∈ acc
  ∨ ∃ k element neighbors neighbor neighbor_element,
      sites !! k = Some element ∧ element ∈ LIGHT_ATOMS
      ∧ cnn s (i + k)%nat = Some neighbors ∧ neighbor ∈ neighbors
      ∧ species s !! site_index neighbor = Some neighbor_element
      ∧ b = make_bond atomic_mass (i + k) (site_index neighbor) element
              neighbor_element (weight neighbor).
Proof.
  revert i acc. induction sites as [|element rest IH]; intros i acc; simpl; [by left |].
  intros [Hb|(k & el & nbrs & nb & elj & Hk & Hel & Hcnn & Hnb & Hj & ->)]%IH.
  - case_decide as Hel; [| by left].
    destruct (cnn s i) as [neighbors|] eqn:Hcnn; [| by left].
    apply scan_neighbors_elem in Hb as [Hb|(nb & elj & Hnb & Hj & ->)]; [by left |].
    right. exists 0%nat, element, neighbors, nb, elj.
    rewrite Nat.add_0_r. done.
  - right. exists (S k), el, nbrs, nb, elj.
    replace (i + S k)%nat with (S i + k)%nat by lia. done.
Qed.

Lemma scan_sites_keeps i sites acc b :
  b ∈ acc → b ∈ scan_sites cnn atomic_mass s i sites acc.
Proof.
  revert i acc. induction sites as [|element rest IH]; intros i acc Hb; simpl; [done |].
  apply IH. case_decide; [| done].
  destruct (cnn s i); [| done]. by apply scan_neighbors_keeps.
Qed.

Lemma scan_sites_complete i sites acc k element neighbors neighbor :
  oracle_in_range cnn s →
  sites !! k = Some element → element ∈ LIGHT_ATOMS →
  cnn s (i + k)%nat = Some neighbors → neighbor ∈ neighbors →
  ∃ neighbor_element,
    species s !! site_index neighbor = Some neighbor_element
    ∧ make_bond atomic_mass (i + k) (site_index neighbor) element neighbor_element
        (weight neighbor)
      ∈ scan_sites cnn atomic_mass s i sites acc.
Proof.
  intros Hrange. revert i acc k.
  induction sites as [|el rest IH]; intros i acc k Hk Hel Hcnn Hnb; [done |].
  destruct k as [|k]; simpl in Hk.
  - injection Hk as ->. simpl. rewrite Nat.add_0_r in *.
    rewrite decide_True by done. rewrite Hcnn.
    destruct (scan_neighbors_complete i element neighbors acc neighbor)
      as (elj & Hj & Hin); [intros nb' Hnb'; by eapply (Hrange i) | done |].
    exists elj. split; [done |]. by apply scan_sites_keeps.
  - simpl. replace (i + S k)%nat with (S i + k)%nat in * by lia.
    by apply IH.
Qed.

Lemma all_light_bonds_from_reports b :
  b ∈ all_light_bonds cnn atomic_mass s → bond_from_report cnn atomic_mass s b.
Proof.
  unfold all_light_bonds.
  intros [Hb|(k & el & nbrs & nb & elj & Hk & Hel & Hcnn & Hnb & Hj & ->)]%scan_sites_elem.
  - by apply elem_of_nil in Hb.
  - by exists k, el, nbrs, nb, elj.
Qed.

Lemma all_light_bonds_complete i element neighbors neighbor :
  oracle_in_range cnn s →
  species s !! i = Some element → element ∈ LIGHT_ATOMS →
  cnn s i = Some neighbors → neighbor ∈ neighbors →
  ∃ b, b ∈ all_light_bonds cnn atomic_mass s
       ∧ atom1_idx b = i ∧ atom2_idx b = site_index neighbor
       ∧ distance b = weight neighbor.
Proof.
  intros Hrange Hi Hel Hcnn Hnb.
  destruct (scan_sites_complete 0 (species s) [] i element neighbors neighbor)
    as (elj & Hj & Hin); try done.
  eexists. split; [exact Hin | done].
Qed.

End scan_facts.

(** X14: every bond record returned by [find_light_atom_bonds] comes
    from a report of the oracle: its two elements are the species at
    its two site indices, its bond type is "El1-El2", its reduced mass
    is that of the two elements, and its distance is the weight the
    oracle gave for the second atom among the neighbours of the first. *)
Theorem find_light_atom_bonds_from_reports
    (cnn : NNOracle) (atomic_mass : string → option R) (s : Structure)
    (b : BondQuantum.Bond) :
  b ∈ BondQuantum.find_light_atom_bonds cnn atomic_mass s →
  species s !! BondQuantum.atom1_idx b = Some (BondQuantum.atom1_element b)
  ∧ species s !! BondQuantum.atom2_idx b = Some (BondQuantum.atom2_element b)
  ∧ BondQuantum.bond_type b
    = BondQuantum.atom1_element b +:+ "-" +:+ BondQuantum.atom2_element b
  ∧ BondQuantum.reduced_mass b
    = BondQuantum._calculate_reduced_mass atomic_mass
        (BondQuantum.atom1_element b) (BondQuantum.atom2_element b)
  ∧ ∃ neighbors neighbor,
      cnn s (BondQuantum.atom1_idx b) = Some neighbors ∧ neighbor ∈ neighbors
      ∧ site_index neighbor = BondQuantum.atom2_idx b
      ∧ weight neighbor = BondQuantum.distance b.
Proof.
  intros Hb. unfold BondQuantum.find_light_atom_bonds in Hb.
  apply remove_duplicates_elem in Hb as [Hb _].
  apply all_light_bonds_from_reports in Hb
    as (i & el & nbrs & nb & elj & Hi & _ & Hcnn & Hnb & Hj & ->).
  simpl. repeat split; try done. by exists nbrs, nb.
Qed.

(** X14 on the Li-N bond of the cell Li-N-H. *)
Lemma find_light_atom_bonds_from_reports_LiNH :
  Examples.LiNH_bond_LiN
    ∈ BondQuantum.find_light_atom_bonds Examples.LiNH_cnn Examples.masses Examples.LiNH
  ∧ BondQuantum.bond_type Examples.LiNH_bond_LiN = "Li-N".
Proof.
  assert (Examples.LiNH_bond_LiN
            ∈ BondQuantum.find_light_atom_bonds
                Examples.LiNH_cnn Examples.masses Examples.LiNH) as Hin
    by (change (Examples.LiNH_bond_LiN
                  ∈ [Examples.LiNH_bond_LiN; Examples.LiNH_bond_NH]); left).
  split; [exact Hin |].
  destruct (find_light_atom_bonds_from_reports
              Examples.LiNH_cnn Examples.masses Examples.LiNH
              Examples.LiNH_bond_LiN Hin) as (_ & _ & Htype & _).
  rewrite Htype. reflexivity.
Defined.

(** X15: with an oracle that reports sites of the structure, every
    neighbour reported for a light atom is covered by the result of
    [find_light_atom_bonds]: the unordered pair of the two site indices
    is the pair of one of the returned bonds. *)
Theorem find_light_atom_bonds_covers_reports
    (cnn : NNOracle) (atomic_mass : string → option R) (s : Structure)
    (i : nat) (element : string) (neighbors : list Neighbor) (neighbor : Neighbor) :
  oracle_in_range cnn s →
  species s !! i = Some element →
  element ∈ ["H"; "He"; "Li"; "Be"; "B"; "C"; "N"; "O"; "F"; "Ne"] →
  cnn s i = Some neighbors → neighbor ∈ neighbors →
  BondQuantum.sorted_pair i (site_index neighbor)
    ∈ BondQuantum.pair_of <$> BondQuantum.find_light_atom_bonds cnn atomic_mass s.
Proof.
  intros Hrange Hi Hel Hcnn Hnb.
  assert (element ∈ BondQuantum.LIGHT_ATOMS) as Hlight
    by (unfold BondQuantum.LIGHT_ATOMS; by rewrite elem_of_list_to_set).
  destruct (all_light_bonds_complete cnn atomic_mass s i element neighbors neighbor
              Hrange Hi Hlight Hcnn Hnb) as (b & Hb & H1 & H2 & _).
  replace (BondQuantum.sorted_pair i (site_index neighbor)) with (BondQuantum.pair_of b)
    by (unfold BondQuantum.pair_of; by rewrite H1, H2).
  apply remove_duplicates_covers; [done | apply not_elem_of_empty].
Qed.

(** X15 on the cell Li-N-H: the report of N among the neighbours of H
    is covered, by the bond found from N. *)
Lemma find_light_atom_bonds_covers_reports_LiNH :
  oracle_in_range Examples.LiNH_cnn Examples.LiNH
  ∧ (1, 2)%nat
      ∈ BondQuantum.pair_of
          <$> BondQuantum.find_light_atom_bonds
                Examples.LiNH_cnn Examples.masses Examples.LiNH.
Proof.
  assert (oracle_in_range Examples.LiNH_cnn Examples.LiNH) as Hrange
    by (apply oracle_of_in_range; reflexivity).
  split; [exact Hrange |].
  apply (find_light_atom_bonds_covers_reports Examples.LiNH_cnn Examples.masses
           Examples.LiNH 2 "H" [mkNeighbor 1 1%R] (mkNeighbor 1 1%R) Hrange).
  - reflexivity.
  - left.
  - reflexivity.
  - left.
Defined.

(** X16: with an oracle that reports sites of the structure, the
    selector returns no bond exactly when no light atom has a
    neighbour: for every site holding a light element the oracle call
    raises or returns an empty list.  This is the case in which the
    checker exits with code 2. *)
Theorem find_light_atom_bonds_empty_iff
    (cnn : NNOracle) (atomic_mass : string → option R) (s : Structure) :
  oracle_in_range cnn s →
  BondQuantum.find_light_atom_bonds cnn atomic_mass s = []
  ↔ ∀ i element,
      species s !! i = Some element →
      element ∈ ["H"; "He"; "Li"; "Be"; "B"; "C"; "N"; "O"; "F"; "Ne"] →
      cnn s i = None ∨ cnn s i = Some [].
Proof.
  intros Hrange. split.
  - intros Hnil i element Hi Hel.
    destruct (cnn s i) as [[|nb nbrs]|] eqn:Hcnn; [by right | | by left].
    exfalso.
    assert (element ∈ BondQuantum.LIGHT_ATOMS) as Hlight
      by (unfold BondQuantum.LIGHT_ATOMS; by rewrite elem_of_list_to_set).
    destruct (all_light_bonds_complete cnn atomic_mass s i element (nb :: nbrs) nb
                Hrange Hi Hlight Hcnn) as (b & Hb & _); [by left |].
    assert (BondQuantum.pair_of b
              ∈ BondQuantum.pair_of
                  <$> BondQuantum.find_light_atom_bonds cnn atomic_mass s) as Hin
      by (apply remove_duplicates_covers; [done | apply not_elem_of_empty]).
    rewrite Hnil in Hin. by apply elem_of_nil in Hin.
  - intros Hnone.
    destruct (BondQuantum.find_light_atom_bonds cnn atomic_mass s) as [|b bs] eqn:Hbonds;
      [done |].
    exfalso.
    assert (b ∈ BondQuantum.find_light_atom_bonds cnn atomic_mass s) as Hb
      by (rewrite Hbonds; by left).
    unfold BondQuantum.find_light_atom_bonds in Hb.
    apply remove_duplicates_elem in Hb as [Hb _].
    apply all_light_bonds_from_reports in Hb
      as (i & el & nbrs & nb & elj & Hi & Hel & Hcnn & Hnb & _).
    unfold BondQuantum.LIGHT_ATOMS in Hel. rewrite elem_of_list_to_set in Hel.
    destruct (Hnone i el Hi Hel) as [Hc|Hc]; rewrite Hc in Hcnn; [done |].
    injection Hcnn as <-. by apply elem_of_nil in Hnb.
Qed.

(** X16 on the cell of two iron atoms, which has no light atom. *)
Lemma find_light_atom_bonds_empty_iff_Fe2 :
  oracle_in_range Examples.Fe2_cnn Examples.Fe2
  ∧ (BondQuantum.find_light_atom_bonds Examples.Fe2_cnn Examples.masses Examples.Fe2 = []
     ↔ ∀ i element,
         species Examples.Fe2 !! i = Some element →
         element ∈ ["H"; "He"; "Li"; "Be"; "B"; "C"; "N"; "O"; "F"; "Ne"] →
         Examples.Fe2_cnn Examples.Fe2 i = None
         ∨ Examples.Fe2_cnn Examples.Fe2 i = Some []).
Proof.
  assert (oracle_in_range Examples.Fe2_cnn Examples.Fe2) as Hrange
    by (apply oracle_of_in_range; reflexivity).
  split; [exact Hrange |].
  exact (find_light_atom_bonds_empty_iff Examples.Fe2_cnn Examples.masses
           Examples.Fe2 Hrange).
Defined.

(** * Further properties of the phonon-stability checker *)

Section exit_code_facts.
Import PhononStability.

Variable fs : string → file.

Lemma parse_frequencies_Ok_exists path freqs :
  parse_frequencies fs path = Ok freqs → exists_ (fs path) = true.
Proof. unfold parse_frequencies. by destruct (fs path). Qed.

Lemma accumulate_Ok_exists files all :
  accumulate fs files = Ok all → forallb (λ p, exists_ (fs p)) files = true.
Proof.
  revert all. induction files as [|f rest IH]; intros all; simpl; [done |].
  destruct (parse_frequencies fs f) as [freqs|] eqn:Hparse; simpl; [| done].
  destruct (accumulate fs rest) as [more|]; simpl; [| done].
  intros _. rewrite (parse_frequencies_Ok_exists _ _ Hparse). by eapply IH.
Qed.

Lemma forallb_not_negative (all : list Q) :
  forallb (λ w, negb (is_negative w)) all = true
  ↔ ∀ w, w ∈ all → is_negative w = false.
Proof.
  rewrite forallb_forall. split.
  - intros H w Hw%list_elem_of_In. apply H in Hw. by destruct (is_negative w).
  - intros H w Hw%list_elem_of_In. by rewrite (H w Hw).
Qed.

End exit_code_facts.

(** X17: the exit code of the phonon-stability checker, the
    frequencies being the binary64 numbers [float] read, is 0 exactly
    when at least one file is given, every file yields frequencies and
    none of the accumulated frequencies is negative; it is 1 exactly
    when every file yields frequencies and some accumulated frequency
    is negative; in every other case (no argument, a missing or
    unreadable file, a file without frequency line, a malformed
    number) it is 2. *)
Theorem phonon_stability_exit_code
    (fs : string → PhononStability.file) (args : list string) :
  (PhononStability.main fs args = 0%Z
   ↔ args ≠ []
     ∧ ∃ all, PhononStability.accumulate fs args = Ok all
            ∧ ∀ w, w ∈ all → PhononStability.is_negative w = false)
  ∧ (PhononStability.main fs args = 1%Z
     ↔ args ≠ []
       ∧ ∃ all, PhononStability.accumulate fs args = Ok all
              ∧ ∃ w, w ∈ all ∧ PhononStability.is_negative w = true)
  ∧ (PhononStability.main fs args = 2%Z
     ↔ args = [] ∨ ∃ e, PhononStability.accumulate fs args = Raise e).
Proof.
  rewrite main_exit_code. destruct args as [|p args].
  { split; [| split].
    - split; [done | by intros [? _]].
    - split; [done | by intros [? _]].
    - split; [by left | done]. }
  destruct (PhononStability.accumulate fs (p :: args)) as [all|e] eqn:Hacc.
  - rewrite (accumulate_Ok_exists fs _ _ Hacc).
    pose proof (forallb_not_negative all) as Hall.
    destruct (forallb (λ w, negb (PhononStability.is_negative w)) all) eqn:Hnn.
    + split; [| split].
      * split; [| done]. intros _. split; [done |]. exists all. split; [done |].
        by apply Hall.
      * split; [done |]. intros (_ & all' & [= <-] & w & Hw & Hneg).
        rewrite (proj1 Hall eq_refl w Hw) in Hneg. done.
      * split; [done |]. by intros [?|[e [=]]].
    + split; [| split].
      * split; [done |]. intros (_ & all' & [= <-] & Hnone).
        apply Hall in Hnone. done.
      * split; [| done]. intros _. split; [done |]. exists all. split; [done |].
        apply not_true_iff_false in Hnn. rewrite forallb_forall in Hnn.
        destruct (decide (Exists (λ w, PhononStability.is_negative w = true) all))
          as [Hex|Hex].
        -- apply Exists_exists in Hex as (w & Hw & Hneg). by exists w.
        -- exfalso. apply Hnn. intros w Hw%list_elem_of_In.
           destruct (PhononStability.is_negative w) eqn:Hneg; [| done].
           exfalso. apply Hex, Exists_exists. by exists w.
      * split; [done |]. by intros [?|[e [=]]].
  - assert ((if forallb (λ p, PhononStability.exists_ (fs p)) (p :: args)
             then 2%Z else 2%Z) = 2%Z) as Hif by by destruct (forallb _ _).
    rewrite Hif. split; [| split].
    + split; [done |]. by intros (_ & all & [=] & _).
    + split; [done |]. by intros (_ & all & [=] & _).
    + split; [| done]. intros _. right. by exists e.
Qed.

Section summary_facts.
Import PhononStability.

Variable fs : string → file.

Lemma Qminimum_le_l x y : (Qminimum x y <= x)%Q.
Proof.
  unfold Qminimum. destruct (Qlt_le_dec y x); [by apply Qlt_le_weak | apply Qle_refl].
Qed.

Lemma Qminimum_le_r x y : (Qminimum x y <= y)%Q.
Proof.
  unfold Qminimum. destruct (Qlt_le_dec y x); [apply Qle_refl | done].
Qed.

Lemma Qminimum_cases x y : Qminimum x y = x ∨ Qminimum x y = y.
Proof. unfold Qminimum. destruct (Qlt_le_dec y x); tauto. Qed.

Lemma foldl_Qminimum_spec w (ws : list Q) :
  foldl Qminimum w ws ∈ w :: ws ∧ ∀ x, x ∈ w :: ws → (foldl Qminimum w ws <= x)%Q.
Proof.
  revert w. induction ws as [|z ws IH]; intros w; simpl.
  - split; [by left |]. intros x ->%list_elem_of_singleton. apply Qle_refl.
  - destruct (IH (Qminimum w z)) as [Hin Hle]. split.
    + apply elem_of_cons in Hin as [->|Hin]; [| right; by right].
      destruct (Qminimum_cases w z) as [->| ->]; [by left | right; by left].
    + intros x Hx.
      assert (foldl Qminimum (Qminimum w z) ws <= Qminimum w z)%Q as Hm
        by (apply Hle; by left).
      apply elem_of_cons in Hx as [->|Hx].
      * eapply Qle_trans; [exact Hm | apply Qminimum_le_l].
      * apply elem_of_cons in Hx as [->|Hx].
        -- eapply Qle_trans; [exact Hm | apply Qminimum_le_r].
        -- apply Hle. by right.
Qed.

Lemma min_list_Q_spec (freqs : list Q) :
  freqs ≠ [] →
  min_list_Q freqs ∈ freqs ∧ ∀ x, x ∈ freqs → (min_list_Q freqs <= x)%Q.
Proof. destruct freqs as [|w ws]; [done |]. intros _. apply foldl_Qminimum_spec. Qed.

Lemma parse_frequencies_nonempty path freqs :
  parse_frequencies fs path = Ok freqs → freqs ≠ [].
Proof.
  unfold parse_frequencies. destruct (fs path) as [| |lines]; try done.
  destruct (scan_lines lines []) as [freqs'|]; simpl; [| done].
  destruct freqs'; [done | by intros [= <-]].
Qed.

Lemma is_negative_false w : is_negative w = false ↔ (0 <= w)%Q.
Proof.
  unfold is_negative. rewrite bool_decide_eq_false. unfold Qle. simpl. lia.
Qed.

(** The loop of [analyse_files], with its running minimum. *)
Lemma analyse_loop_summary files total imag min_freq total' imag' min_freq' :
  analyse_loop fs files total imag min_freq = Ok (total', imag', min_freq') →
  ∃ all,
    accumulate fs files = Ok all
    ∧ total' = (total + length all)%nat
    ∧ imag' = (imag + length (filter (λ w, is_negative w = true) all))%nat
    ∧ (length files ≤ length all)%nat
    ∧ (min_freq' <= min_freq)%Q
    ∧ (∀ w, w ∈ all → (min_freq' <= w)%Q)
    ∧ (min_freq' = min_freq ∨ min_freq' ∈ all).
Proof.
  revert total imag min_freq.
  induction files as [|f rest IH]; intros total imag min_freq; simpl.
  - intros [= <- <- <-]. exists []. simpl. rewrite !Nat.add_0_r.
    repeat split; try done; [apply Qle_refl | by intros w ?%elem_of_nil | by left].
  - destruct (parse_frequencies fs f) as [freqs|] eqn:Hparse; simpl; [| done].
    intros Hloop. apply IH in Hloop
      as (more & Hmore & -> & -> & Hlen & Hle & Hall & Hmin).
    rewrite Hmore. simpl. exists (freqs ++ more).
    pose proof (parse_frequencies_nonempty _ _ Hparse) as Hne.
    destruct (min_list_Q_spec freqs Hne) as [Hmin_in Hmin_le].
    split; [done |]. rewrite filter_app, !length_app.
    split; [lia |]. split; [lia |]. split.
    { destruct freqs; [done |]. simpl. lia. }
    split; [eapply Qle_trans; [exact Hle | apply Qminimum_le_l] |]. split.
    + intros w [Hw|Hw]%elem_of_app; [| by apply Hall].
      eapply Qle_trans; [exact Hle |].
      eapply Qle_trans; [apply Qminimum_le_r | by apply Hmin_le].
    + destruct Hmin as [->|Hin]; [| right; apply elem_of_app; by right].
      destruct (Qminimum_cases min_freq (min_list_Q freqs)) as [->| ->];
        [by left | right; apply elem_of_app; by left].
Qed.

End summary_facts.

(** X18: when [analyse_files] returns, its three results describe the
    frequencies of all the files together, as the binary64 numbers
    [float] read: [total] is their number (at least one per file),
    [imag] is the number of negative ones, [min_freq] is a lower bound
    of all of them and is one of them or the initial 1e9; and [imag] is
    0 exactly when [min_freq] is not negative, so the summary line and
    the exit code agree. *)
Theorem analyse_files_summary
    (fs : string → PhononStability.file) (files : list string)
    (total imag : nat) (min_freq : Q) :
  PhononStability.analyse_files fs files = Ok (total, imag, min_freq) →
  ∃ all,
    PhononStability.accumulate fs files = Ok all
    ∧ total = length all
    ∧ imag = length (filter (λ w, PhononStability.is_negative w = true) all)
    ∧ (imag ≤ total)%nat
    ∧ (length files ≤ total)%nat
    ∧ (∀ w, w ∈ all → (min_freq <= w)%Q)
    ∧ (min_freq = (1000000000 # 1)%Q ∨ min_freq ∈ all)
    ∧ (imag = 0%nat ↔ (0 <= min_freq)%Q).
Proof.
  unfold PhononStability.analyse_files.
  intros (all & Hacc & -> & -> & Hlen & Hle & Hall & Hmin)%analyse_loop_summary.
  exists all. simpl. split; [done |]. split; [done |]. split; [done |].
  split; [apply length_filter |]. split; [done |]. split; [done |].
  split; [done |].
  rewrite no_negative_count, forallb_not_negative. split.
  - intros Hnn. destruct Hmin as [->|Hin]; [done |].
    by apply is_negative_false, Hnn.
  - intros Hpos w Hw. apply is_negative_false.
    eapply Qle_trans; [exact Hpos | by apply Hall].
Qed.

(** X18 on the file with one negative and one positive mode; the
    minimum is the binary64 number nearest to -16.678. *)
Lemma analyse_files_summary_tight :
  PhononStability.analyse_files Examples.phonon_files ["tight.dyn0"]
    = Ok (2%nat, 1%nat, (-4694439661580321 # 281474976710656)%Q)
  ∧ ¬ (0 <= (-4694439661580321 # 281474976710656))%Q.
Proof.
  assert (PhononStability.analyse_files Examples.phonon_files ["tight.dyn0"]
          = Ok (2%nat, 1%nat, (-4694439661580321 # 281474976710656)%Q)) as Hrun
    by (vm_compute; reflexivity).
  split; [exact Hrun |].
  destruct (analyse_files_summary Examples.phonon_files ["tight.dyn0"]
              2 1 (-4694439661580321 # 281474976710656)%Q Hrun)
    as (all & _ & _ & _ & _ & _ & _ & _ & Hiff).
  intros Hpos. apply Hiff in Hpos. discriminate Hpos.
Defined.

(** A negative frequency too small for binary64 is read as a zero: the
    mode is not counted as imaginary and the exit code is 0. *)
Example analyse_files_underflow :
  PhononStability.analyse_files (λ _, PhononStability.Lines Examples.underflow_dyn0)
    ["underflow.dyn0"] = Ok (1%nat, 0%nat, 0%Q)
  ∧ PhononStability.main (λ _, PhononStability.Lines Examples.underflow_dyn0)
      ["underflow.dyn0"] = 0%Z.
Proof. split; vm_compute; reflexivity. Qed.

Section regex_facts.
Import PhononStability.

Lemma String_app c s t : String c s +:+ t = String c (s +:+ t).
Proof. reflexivity. Qed.

Lemma strip_prefix_Some p s rest : strip_prefix p s = Some rest → s = p +:+ rest.
Proof.
  revert s. induction p as [|a p IH]; intros s; simpl.
  - by intros [= ->].
  - destruct s as [|b s]; [done |]. case_decide as Hab; [| done].
    intros Hrest%IH. rewrite String_app. by subst.
Qed.

Lemma skip_spaces_spec s :
  ∃ spaces, s = spaces +:+ skip_spaces s ∧ all_chars is_space spaces = true.
Proof.
  induction s as [|c s (spaces & Heq & Hall)]; simpl.
  - by exists "".
  - destruct (is_space c) eqn:Hc.
    + exists (String c spaces). simpl. rewrite Hc, Hall.
      split; [by rewrite String_app, <- Heq | done].
    + by exists "".
Qed.

Lemma take_freq_chars_spec s :
  ∃ after,
    s = take_freq_chars s +:+ after
    ∧ all_chars is_freq_char (take_freq_chars s) = true
    ∧ not_starting_with is_freq_char after = true.
Proof.
  induction s as [|c s (after & Heq & Hall & Hafter)]; simpl.
  - by exists "".
  - destruct (is_freq_char c) eqn:Hc.
    + exists after. simpl. rewrite Hc, Hall.
      split; [by rewrite String_app, <- Heq | done].
    + exists (String c s). simpl. by rewrite Hc.
Qed.

Lemma match_tail_Some s group :
  match_tail s = Some group →
  ∃ spaces after,
    s = ")=" +:+ spaces +:+ group +:+ after
    ∧ group ≠ ""
    ∧ all_chars is_freq_char group = true
    ∧ all_chars is_space spaces = true
    ∧ not_starting_with is_freq_char after = true.
Proof.
  unfold match_tail. destruct (strip_prefix ")=" s) as [rest|] eqn:Hrest; [| done].
  apply strip_prefix_Some in Hrest as ->. simpl.
  destruct (skip_spaces_spec rest) as (spaces & Hrest & Hspaces).
  destruct (take_freq_chars_spec (skip_spaces rest)) as (after & Htail & Hgroup & Hafter).
  destruct (take_freq_chars (skip_spaces rest)) as [|c g] eqn:Htake; [done |].
  intros [= <-]. exists spaces, after.
  split; [by rewrite Hrest at 1; rewrite Htail at 1 |]. done.
Qed.

Lemma match_lazy_Some s group :
  match_lazy s = Some group →
  ∃ inside spaces after,
    s = inside +:+ ")=" +:+ spaces +:+ group +:+ after
    ∧ all_chars (λ c, negb (bool_decide (c = LF))) inside = true
    ∧ group ≠ ""
    ∧ all_chars is_freq_char group = true
    ∧ all_chars is_space spaces = true
    ∧ not_starting_with is_freq_char after = true.
Proof.
  induction s as [|c s IH]; simpl.
  - done.
  - destruct (match_tail (String c s)) as [g|] eqn:Htail.
    + intros [= <-]. apply match_tail_Some in Htail as (spaces & after & Heq & ?).
      by exists "", spaces, after.
    + case_decide as Hc; [done |].
      intros (inside & spaces & after & -> & Hinside & ?)%IH.
      exists (String c inside), spaces, after. split; [done |]. split; [| done].
      simpl. rewrite Hinside. by rewrite bool_decide_eq_false_2.
Qed.

Lemma match_here_Some s group :
  match_here s = Some group →
  ∃ inside spaces after,
    s = "freq(" +:+ inside +:+ ")=" +:+ spaces +:+ group +:+ after
    ∧ all_chars (λ c, negb (bool_decide (c = LF))) inside = true
    ∧ group ≠ ""
    ∧ all_chars is_freq_char group = true
    ∧ all_chars is_space spaces = true
    ∧ not_starting_with is_freq_char after = true.
Proof.
  unfold match_here.
  destruct (strip_prefix "freq(" s) as [rest|] eqn:Hrest; [| done].
  apply strip_prefix_Some in Hrest as ->. simpl.
  intros (inside & spaces & after & -> & ?)%match_lazy_Some.
  by exists inside, spaces, after.
Qed.

End regex_facts.

(** X19: when the frequency pattern matches a line, the line reads
    [freq(], then characters other than a newline, then [)=] with
    nothing between the two, then white space, then the captured text,
    which is not empty, consists of [-], digits and [.] only, and is
    not followed by another such character. *)
Theorem FREQ_REGEX_search_sound (line group : string) :
  PhononStability.FREQ_REGEX_search line = Some group →
  ∃ before inside spaces after,
    line = before +:+ "freq(" +:+ inside +:+ ")=" +:+ spaces +:+ group +:+ after
    ∧ PhononStability.all_chars
        (λ c, negb (bool_decide (c = PhononStability.LF))) inside = true
    ∧ group ≠ ""
    ∧ PhononStability.all_chars PhononStability.is_freq_char group = true
    ∧ PhononStability.all_chars PhononStability.is_space spaces = true
    ∧ PhononStability.not_starting_with PhononStability.is_freq_char after = true.
Proof.
  induction line as [|c line IH]; simpl.
  - done.
  - destruct (PhononStability.match_here (String c line)) as [g|] eqn:Hhere.
    + intros [= <-].
      apply match_here_Some in Hhere as (inside & spaces & after & Heq & ?).
      by exists "", inside, spaces, after.
    + intros (before & inside & spaces & after & -> & ?)%IH.
      by exists (String c before), inside, spaces, after.
Qed.

(** X19 on a line of a dynamical-matrix file. *)
Lemma FREQ_REGEX_search_sound_example :
  PhononStability.FREQ_REGEX_search "    freq(   1)=    -16.678000 [cm-1]"
    = Some "-16.678000"
  ∧ ∃ before inside spaces after,
      "    freq(   1)=    -16.678000 [cm-1]"
      = before +:+ "freq(" +:+ inside +:+ ")=" +:+ spaces +:+ "-16.678000" +:+ after.
Proof.
  assert (PhononStability.FREQ_REGEX_search "    freq(   1)=    -16.678000 [cm-1]"
          = Some "-16.678000") as Hsearch by reflexivity.
  split; [exact Hsearch |].
  destruct (FREQ_REGEX_search_sound _ _ Hsearch)
    as (before & inside & spaces & after & Heq & _).
  by exists before, inside, spaces, after.
Defined.

Section malformed_facts.
Import PhononStability.

Lemma scan_lines_malformed lines freqs line group :
  line ∈ lines → FREQ_REGEX_search line = Some group →
  float_of_string group = None →
  scan_lines lines freqs = Raise RuntimeError.
Proof.
  intros Hin Hsearch Hfloat. revert freqs.
  induction lines as [|l rest IH]; intros freqs; [by apply elem_of_nil in Hin |].
  simpl. apply elem_of_cons in Hin as [<-|Hin].
  - by rewrite Hsearch, Hfloat.
  - destruct (FREQ_REGEX_search l) as [g|]; [| by apply IH].
    destruct (float_of_string g); [by apply IH | done].
Qed.

End malformed_facts.

(** X20: a line that matches the pattern but whose captured text is
    not a number (two points, a lone or misplaced minus sign) makes the
    whole run a parse failure: [parse_frequencies] raises and the exit
    code is 2, whatever the other lines and files hold. *)
Theorem malformed_frequency_exit_2
    (fs : string → PhononStability.file) (args : list string)
    (path : string) (lines : list string) (line group : string) :
  path ∈ args →
  fs path = PhononStability.Lines lines →
  line ∈ lines →
  PhononStability.FREQ_REGEX_search line = Some group →
  PhononStability.float_of_string group = None →
  PhononStability.parse_frequencies fs path = Raise RuntimeError
  ∧ PhononStability.main fs args = 2%Z.
Proof.
  intros Hpath Hfs Hline Hsearch Hfloat.
  assert (PhononStability.parse_frequencies fs path = Raise RuntimeError) as Hraise.
  { unfold PhononStability.parse_frequencies. rewrite Hfs.
    by rewrite (scan_lines_malformed lines [] line group). }
  split; [exact Hraise |].
  rewrite main_exit_code. destruct args as [|p args]; [done |].
  destruct (forallb _ (p :: args)); [| done].
  by rewrite (accumulate_raises_at fs (p :: args) path Hpath Hraise).
Qed.

(** X20 on a file whose second mode line reads [1.2.3]. *)
Lemma malformed_frequency_exit_2_garbled :
  PhononStability.parse_frequencies
    (λ _, PhononStability.Lines Examples.garbled_dyn0) "garbled.dyn0"
  = Raise RuntimeError
  ∧ PhononStability.main
      (λ _, PhononStability.Lines Examples.garbled_dyn0)
      ["stable.dyn0"; "garbled.dyn0"] = 2%Z.
Proof.
  apply (malformed_frequency_exit_2
           (λ _, PhononStability.Lines Examples.garbled_dyn0)
           ["stable.dyn0"; "garbled.dyn0"] "garbled.dyn0"
           Examples.garbled_dyn0 "    freq(   2)=    1.2.3 [cm-1]" "1.2.3").
  - apply list_elem_of_further, list_elem_of_here.
  - reflexivity.
  - apply list_elem_of_further, list_elem_of_here.
  - reflexivity.
  - reflexivity.
Defined.

(** * The McMillan estimate of the strain-scan post-processing *)

Section mcmillan_facts.
Import StrainScan.

Lemma Rdiv_lt_denominator a d1 d2 :
  (0 < a)%R → (0 < d1)%R → (d1 < d2)%R → (a / d2 < a / d1)%R.
Proof.
  intros Ha Hd1 Hd. unfold Rdiv. apply Rmult_lt_compat_l; [done |].
  apply Rinv_lt_contravar; [| done]. apply Rmult_lt_0_compat; lra.
Qed.

Lemma exp_gt_1 x : (0 < x)%R → (1 < exp x)%R.
Proof. intros Hx. rewrite <- exp_0. by apply exp_increasing. Qed.

Lemma exp_lt_1 x : (x < 0)%R → (exp x < 1)%R.
Proof. intros Hx. rewrite <- exp_0. by apply exp_increasing. Qed.

Lemma calculate_tc_mcmillan_eq lambda_val omega_log mu_star :
  (0 <= mu_star)%R → (mu_star < lambda_val)%R →
  slope lambda_val mu_star ≠ 0%R →
  calculate_tc_mcmillan lambda_val omega_log mu_star
  = Some (omega_log / 1.45
          / ((1 + lambda_val)
             * exp (1.04 * (1 + lambda_val) / slope lambda_val mu_star)))%R.
Proof.
  intros Hmu Hlam Hslope. unfold calculate_tc_mcmillan.
  destruct (decide (lambda_val <= mu_star)%R); [lra |].
  destruct (decide (slope lambda_val mu_star = 0%R)); [done |].
  case_decide as Hden; [| done].
  apply Rmult_integral in Hden as [Hden|Hden]; [lra |].
  pose proof (exp_pos (1.04 * (1 + lambda_val) / slope lambda_val mu_star)). lra.
Qed.

End mcmillan_facts.

(** X21: [calculate_tc_mcmillan] with a coupling [mu_star >= 0] and a
    positive [omega_log].  The guard returns 0 up to [lambda = mu_star].
    Beyond the pole of the exponent, where
    [lambda - mu_star * (1 + 0.62 * lambda)] is positive, the estimate
    is positive and below the prefactor [omega_log / 1.45 / (1 + lambda)].
    The guard does not reach the pole: at the pole the division in the
    exponent fails, and between the guard and the pole the estimate is
    above the prefactor. *)
Theorem calculate_tc_mcmillan_range (lambda_val omega_log mu_star : R) :
  (0 <= mu_star)%R → (0 < omega_log)%R →
  ((lambda_val <= mu_star)%R →
     StrainScan.calculate_tc_mcmillan lambda_val omega_log mu_star = Some 0%R)
  ∧ ((mu_star < lambda_val)%R →
     (0 < StrainScan.slope lambda_val mu_star)%R →
     ∃ tc, StrainScan.calculate_tc_mcmillan lambda_val omega_log mu_star = Some tc
           ∧ (0 < tc < omega_log / 1.45 / (1 + lambda_val))%R)
  ∧ ((mu_star < lambda_val)%R →
     StrainScan.slope lambda_val mu_star = 0%R →
     StrainScan.calculate_tc_mcmillan lambda_val omega_log mu_star = None)
  ∧ ((mu_star < lambda_val)%R →
     (StrainScan.slope lambda_val mu_star < 0)%R →
     ∃ tc, StrainScan.calculate_tc_mcmillan lambda_val omega_log mu_star = Some tc
           ∧ (omega_log / 1.45 / (1 + lambda_val) < tc)%R).
Proof.
  intros Hmu Homega. split; [| split; [| split]].
  - intros Hguard. unfold StrainScan.calculate_tc_mcmillan.
    by destruct (decide (lambda_val <= mu_star)%R).
  - intros Hlam Hslope. eexists. split; [apply calculate_tc_mcmillan_eq; lra |].
    assert (1 < exp (1.04 * (1 + lambda_val) / StrainScan.slope lambda_val mu_star))%R
      as Hexp.
    { apply exp_gt_1, Rdiv_lt_0_compat; lra. }
    split.
    + apply Rdiv_lt_0_compat; [lra |]. apply Rmult_lt_0_compat; lra.
    + apply Rdiv_lt_denominator; [lra | lra | nra].
  - intros Hlam Hslope. unfold StrainScan.calculate_tc_mcmillan.
    destruct (decide (lambda_val <= mu_star)%R); [lra |].
    by destruct (decide (StrainScan.slope lambda_val mu_star = 0%R)).
  - intros Hlam Hslope. eexists. split; [apply calculate_tc_mcmillan_eq; lra |].
    pose proof (exp_pos (1.04 * (1 + lambda_val) / StrainScan.slope lambda_val mu_star))
      as Hpos.
    assert (exp (1.04 * (1 + lambda_val) / StrainScan.slope lambda_val mu_star) < 1)%R
      as Hexp.
    { apply exp_lt_1. unfold Rdiv.
      rewrite <- (Rmult_0_r (1.04 * (1 + lambda_val))).
      apply Rmult_lt_compat_l; [lra |]. by apply Rinv_lt_0_compat. }
    apply Rdiv_lt_denominator; [lra | apply Rmult_lt_0_compat; lra | nra].
Qed.

(** X21 with the default [mu_star = 0.1] and [omega_log = 100]: a
    coupling of 1 lies beyond the pole, a coupling of 0.105 between the
    guard and the pole. *)
Lemma calculate_tc_mcmillan_range_default :
  (∃ tc, StrainScan.calculate_tc_mcmillan 1 100 StrainScan.mu_star_default = Some tc
         ∧ (0 < tc < 100 / 1.45 / (1 + 1))%R)
  ∧ (∃ tc, StrainScan.calculate_tc_mcmillan 0.105 100 StrainScan.mu_star_default
           = Some tc
           ∧ (100 / 1.45 / (1 + 0.105) < tc)%R).
Proof.
  split.
  - destruct (calculate_tc_mcmillan_range 1 100 StrainScan.mu_star_default)
      as (_ & Habove & _);
      unfold StrainScan.mu_star_default, StrainScan.slope in *; try lra.
    apply Habove; lra.
  - destruct (calculate_tc_mcmillan_range 0.105 100 StrainScan.mu_star_default)
      as (_ & _ & _ & Hwindow);
      unfold StrainScan.mu_star_default, StrainScan.slope in *; try lra.
    apply Hwindow; lra.
Defined.

(** * The file counts of the progress monitor *)

Section monitor_facts.
Import MonitorProgress.

Lemma count_step_foldl folders total_files completed :
  foldl count_step (total_files, completed) folders
  = (total_files + sum_list_with files_in folders,
     completed + length (filter (λ f, finished f = true) folders)).
Proof.
  revert total_files completed.
  induction folders as [|f folders IH]; intros total_files completed.
  - simpl. f_equal; lia.
  - cbn [foldl]. rewrite filter_cons. cbn [sum_list_with].
    unfold count_step at 2. fold (finished f). rewrite IH.
    unfold files_in.
    destruct f as [[] [] []]; cbn; case_decide; try done;
      cbn [length]; f_equal; lia.
Qed.

Lemma files_in_le f : files_in f ≤ 3.
Proof. by destruct f as [[] [] []]; cbn; lia. Qed.

Lemma finished_files_in f : finished f = true ↔ files_in f = 3.
Proof. by destruct f as [[] [] []]; cbn. Qed.

Lemma counts_bounds folders :
  let files := sum_list_with files_in folders in
  let done_ := length (filter (λ f, finished f = true) folders) in
  done_ ≤ length folders
  ∧ 3 * done_ ≤ files ≤ 3 * length folders
  ∧ (files = 3 * length folders ↔ done_ = length folders).
Proof.
  induction folders as [|f folders IH]; [cbn; lia |].
  cbn zeta in *. rewrite filter_cons. cbn [sum_list_with length].
  pose proof (files_in_le f) as Hle. pose proof (finished_files_in f) as Hfin.
  destruct (decide (finished f = true)) as [Hf|Hf].
  - apply Hfin in Hf as Hfiles. cbn [length]. lia.
  - assert (files_in f ≠ 3) by (by rewrite <- Hfin). lia.
Qed.

End monitor_facts.

(** X22: [count_files_in_strain_folders] returns the number of output
    files that exist and the number of folders holding all three.  So
    [completed] never exceeds the number of folders, [total_files] lies
    between [3 * completed] and three times the number of folders, all
    folders are completed exactly when every file exists, and the
    order in which [glob] yields the folders does not matter. *)
Theorem count_files_in_strain_folders_counts
    (folders : list MonitorProgress.StrainFolder) :
  let '(total_files, completed) :=
    MonitorProgress.count_files_in_strain_folders folders in
  total_files = sum_list_with MonitorProgress.files_in folders
  ∧ completed
    = length (filter (λ f, MonitorProgress.finished f = true) folders)
  ∧ completed ≤ length folders
  ∧ 3 * completed ≤ total_files ≤ 3 * length folders
  ∧ (total_files = 3 * length folders ↔ completed = length folders)
  ∧ ∀ folders', folders ≡ₚ folders' →
      MonitorProgress.count_files_in_strain_folders folders'
      = (total_files, completed).
Proof.
  unfold MonitorProgress.count_files_in_strain_folders.
  rewrite count_step_foldl. cbn [Nat.add].
  pose proof (counts_bounds folders) as (Hdone & Hfiles & Hall).
  repeat split; try done; try lia; try (by apply Hall).
  intros folders' Hperm. rewrite count_step_foldl. cbn [Nat.add].
  f_equal.
  - clear -Hperm. induction Hperm; cbn; lia.
  - by rewrite Hperm.
Qed.
